(** * A minimal S-expression interpreter (main.c)

    Shallow embedding of the value system ([pval]), the printer
    ([pval_print]), list growth ([pval_add]), the recursive-descent parser
    ([pval_parse]), the builtin operations and the evaluator ([pval_eval]),
    followed by the properties established about them.

    Conventions of the embedding.
    - A C [double] is a primitive binary64 [float]; its arithmetic and
      comparisons are the IEEE-754 ones of [PrimFloat].
    - An [int32_t] is a [Z]; where the C arithmetic can leave the 32-bit
      range the wrap-around is written out ([C.int32]).
    - A NUL-terminated [char *] is a [string]; the end of the string plays
      the terminating NUL.
    - A nullable [pval *] is an [option pval].
    - Allocation failure is outside the model: [malloc] and [strdup] return
      their object, and [realloc] succeeds whenever the requested size is
      one the C library can serve ([C.realloc_succeeds]). *)

From Stdlib Require Import ZArith Floats String Ascii List Bool Lia.
From Stdlib Require Import Uint63 DecimalString DecimalPos.
Import ListNotations.

Local Open Scope Z_scope.
Set Warnings "-inexact-float,-register-all".

(** ** C integers and characters *)

Module C.

Definition INT32_MIN : Z := - 2 ^ 31.
Definition INT32_MAX : Z := 2 ^ 31 - 1.

Definition int32_range (z : Z) : Prop := INT32_MIN <= z <= INT32_MAX.

(** Conversion to [int32_t], two's complement wrap-around. *)
Definition int32 (z : Z) : Z := (z + 2 ^ 31) mod 2 ^ 32 - 2 ^ 31.

(** The LP64 target named in the header of main.c (Apple Silicon):
    [size_t] has 64 bits and a pointer 8 bytes. *)
Definition SIZE_MAX : Z := 2 ^ 64 - 1.
Definition PTRDIFF_MAX : Z := 2 ^ 63 - 1.
Definition sizeof_pointer : Z := 8.

(** Conversion to [size_t]. *)
Definition size_t (z : Z) : Z := z mod (SIZE_MAX + 1).

(** [realloc] of a live block to [bytes] bytes: it fails for a size no
    object can have and, memory exhaustion being outside the model,
    succeeds otherwise. *)
Definition realloc_succeeds (bytes : Z) : bool := bytes <=? PTRDIFF_MAX.

(** <ctype.h>, "C" locale. *)
Definition isspace (c : ascii) : bool :=
  let n := Z.of_nat (nat_of_ascii c) in
  (n =? 32) || ((9 <=? n) && (n <=? 13)).

Definition isdigit (c : ascii) : bool :=
  let n := Z.of_nat (nat_of_ascii c) in
  (48 <=? n) && (n <=? 57).

Definition isxdigit (c : ascii) : bool :=
  let n := Z.of_nat (nat_of_ascii c) in
  isdigit c || ((65 <=? n) && (n <=? 70)) || ((97 <=? n) && (n <=? 102)).

End C.

(** ** Doubles: conversions and [printf] formats

    The two formats of [printf] that [pval_print] uses on numbers are
    modelled from the C standard (ISO C 7.21.6.1): [%d] of an [int], and
    [%.3f] of a [double], whose exact value is rounded to three decimals
    (round to nearest, ties to even).  For an infinity and for a NaN the
    standard leaves the text to the C library ([[-]inf] or
    [[-]infinity], [[-]nan] or [[-]nan(...)]), and the sign of a NaN,
    which a [float] does not have, may show in it: the model writes
    [inf], [-inf] and [nan] there, and no statement below is about the
    text of a number that is not finite. *)

Module Double.

(** [(double) z] for an [int32_t] [z]: exact. *)
Definition of_int32 (z : Z) : float :=
  if z <? 0 then PrimFloat.opp (PrimFloat.of_uint63 (Uint63.of_Z (- z)))
  else PrimFloat.of_uint63 (Uint63.of_Z z).

Definition clamp_int32 (z : Z) : Z :=
  Z.max C.INT32_MIN (Z.min C.INT32_MAX z).

(** [(int32_t) x]: the fractional part is discarded.  ISO C leaves the
    conversion undefined when the truncated value is not representable;
    the target's instruction (AArch64 [fcvtzs]) saturates and maps NaN
    to 0, which is what is modelled. *)
Definition to_int32 (x : float) : Z :=
  match Prim2SF x with
  | S754_nan => 0
  | S754_zero _ => 0
  | S754_infinity s => if s then C.INT32_MIN else C.INT32_MAX
  | S754_finite s m e => clamp_int32 (cond_Zopp s (Z.shiftl (Zpos m) e))
  end.

(** A number without fractional part: a zero, or [m * 2^e] with [2^-e]
    dividing [m] when [e] is negative. *)
Definition is_integral (x : float) : bool :=
  match Prim2SF x with
  | S754_zero _ => true
  | S754_finite _ m e => (0 <=? e) || (Zpos m mod 2 ^ (- e) =? 0)
  | _ => false
  end.

(** A number whose integer part is in the range of [int32_t]. *)
Definition fits_int32 (x : float) : bool :=
  match Prim2SF x with
  | S754_zero _ => true
  | S754_finite s m e =>
      let t := cond_Zopp s (Z.shiftl (Zpos m) e) in
      (C.INT32_MIN <=? t) && (t <=? C.INT32_MAX)
  | _ => false
  end.

(** Neither an infinity nor a NaN. *)
Definition finite (x : float) : bool :=
  match Prim2SF x with
  | S754_zero _ | S754_finite _ _ _ => true
  | _ => false
  end.

(** [printf("%d", z)]. *)
Definition printf_d (z : Z) : string := NilZero.string_of_int (Z.to_int z).

Definition round_half_even (n d : Z) : Z :=
  let q := n / d in
  match 2 * (n mod d) ?= d with
  | Lt => q
  | Gt => q + 1
  | Eq => if Z.even q then q else q + 1
  end.

(** The magnitude [m * 2^e] in thousandths, correctly rounded. *)
Definition thousandths (m : positive) (e : Z) : Z :=
  if 0 <=? e then 1000 * Zpos m * 2 ^ e
  else round_half_even (1000 * Zpos m) (2 ^ (- e)).

Definition digit (n : Z) : ascii := ascii_of_nat (48 + Z.to_nat n).

(** Three decimal digits of [0 <= n < 1000]. *)
Definition digits3 (n : Z) : string :=
  String (digit (n / 100 mod 10))
    (String (digit (n / 10 mod 10)) (String (digit (n mod 10)) EmptyString)).

Definition sign_text (s : bool) : string := if s then "-"%string else ""%string.

(** [printf("%.3f", x)]. *)
Definition printf_3f (x : float) : string :=
  match Prim2SF x with
  | S754_nan => "nan"%string
  | S754_infinity s => (sign_text s ++ "inf")%string
  | S754_zero s => (sign_text s ++ "0.000")%string
  | S754_finite s m e =>
      let q := thousandths m e in
      (sign_text s ++ printf_d (q / 1000) ++ "." ++ digits3 (q mod 1000))%string
  end.

End Double.

(** ** The value system *)

(** [pval_t]: the tag of a value. *)
Inductive pval_t : Set :=
| PVAL_NUMBER
| PVAL_BOOL
| PVAL_SYMBOL
| PVAL_LIST
| PVAL_FUNCTION
| PVAL_ERROR.

(** [builtin_function_ptr]: the address of one of the six builtin
    operations, the only functions of that type in the program. *)
Inductive builtin_function_ptr : Set :=
| builtin_add_ptr
| builtin_sub_ptr
| builtin_mul_ptr
| builtin_div_ptr
| builtin_eq_ptr
| builtin_quit_ptr.

(** [struct pval], one constructor per tag, each with the fields its tag
    uses (the designated initialisers zero the others).  For a list,
    [list_items] holds the element pointers stored in the array, in slot
    order; [list_count] and [list_capacity] are the two [int32_t] fields.
    The functions below keep [list_count] equal to the number of stored
    elements ([pval_wf]); a slot index at or past the end of [list_items]
    stands for a slot the model holds no element for, and is read as a null
    pointer. *)
Inductive pval : Type :=
| PNumber (number : float)
| PBool (boolean : bool)
| PSymbol (symbol : string)
| PList (list_items : list pval) (list_count list_capacity : Z)
| PFunction (function : builtin_function_ptr)
| PError (error_type error_message : string).

Definition type (v : pval) : pval_t :=
  match v with
  | PNumber _ => PVAL_NUMBER
  | PBool _ => PVAL_BOOL
  | PSymbol _ => PVAL_SYMBOL
  | PList _ _ _ => PVAL_LIST
  | PFunction _ => PVAL_FUNCTION
  | PError _ _ => PVAL_ERROR
  end.

Definition pval_t_eqb (a b : pval_t) : bool :=
  match a, b with
  | PVAL_NUMBER, PVAL_NUMBER | PVAL_BOOL, PVAL_BOOL | PVAL_SYMBOL, PVAL_SYMBOL
  | PVAL_LIST, PVAL_LIST | PVAL_FUNCTION, PVAL_FUNCTION | PVAL_ERROR, PVAL_ERROR => true
  | _, _ => false
  end.

(** *** Constructors *)

Definition pval_number (number_val : float) : pval := PNumber number_val.
Definition pval_bool (bool_val : bool) : pval := PBool bool_val.
Definition pval_symbol (symbol_str : string) : pval := PSymbol symbol_str.
Definition pval_function (func_ptr : builtin_function_ptr) : pval := PFunction func_ptr.
Definition pval_list : pval := PList [] 0 4.
Definition pval_error (error_type error_message : string) : pval :=
  PError error_type error_message.

(** *** Printing *)

Definition print_number (number : float) : string :=
  if PrimFloat.eqb number (Double.of_int32 (Double.to_int32 number))
  then Double.printf_d (Double.to_int32 number)
  else Double.printf_3f number.

Definition separator (i list_count : Z) : string :=
  if i <? list_count - 1 then " "%string else ""%string.

(** The iterations of the printing loop over slots the model holds no
    element for: each prints as a null pointer does. *)
Fixpoint print_null_slots (n : nat) (i list_count : Z) : string :=
  match n with
  | O => ""%string
  | S n' => ("NULL_PVAL" ++ separator i list_count
               ++ print_null_slots n' (i + 1) list_count)%string
  end.

Section PrintItems.

(** The recursive call [pval_print(target_value->list_items[i])]. *)
Variable print : pval -> string.
Variable list_count : Z.

(** The loop over the elements of a list, from slot [i] on. *)
Fixpoint print_items (slots : list pval) (i : Z) {struct slots} : string :=
  if i <? list_count then
    match slots with
    | item :: slots' =>
        (print item ++ separator i list_count ++ print_items slots' (i + 1))%string
    | [] => print_null_slots (Z.to_nat (list_count - i)) i list_count
    end
  else ""%string.

End PrintItems.

(** [pval_print] of a non-null value: the text written to stdout. *)
Fixpoint pval_print (target_value : pval) : string :=
  match target_value with
  | PNumber number => print_number number
  | PBool boolean => if boolean then "#t"%string else "#f"%string
  | PSymbol symbol => symbol
  | PList list_items list_count _ =>
      ("(" ++ print_items pval_print list_count list_items 0 ++ ")")%string
  | PError error_type error_message =>
      ("$error{" ++ error_type ++ " " ++ error_message ++ "}")%string
  | PFunction _ => "<function>"%string
  end.

(** *** Appending to a list *)

(** The slots below the new count after [list_items[list_count++] = item],
    for a list that holds the elements it counts.  When the list counts
    more slots than it holds, the slots in between hold nothing the model
    can name; no statement is made on the elements of such a list after
    the store. *)
Definition store_slot (list_items : list pval) (list_count : Z) (new_item : pval)
  : list pval :=
  firstn (Z.to_nat list_count) list_items ++ [new_item].

(** [pval_add]: the state of [*target_list] after the call ([None] when
    the pointer is null).  The function returns nothing; every refusal
    leaves the object as it was.  The capacity is positive where it is
    compared with [SIZE_MAX / 2], so its conversion to [size_t] for that
    comparison changes nothing; the doubling is an [int] multiplication,
    converted to [size_t] and, once the block is reallocated, back to the
    [int32_t] field; the count is below the capacity where it is
    incremented. *)
Definition pval_add (target_list new_item : option pval) : option pval :=
  match target_list, new_item with
  | Some (PList list_items list_count list_capacity), Some item =>
      if (list_count <? 0) || (list_capacity <=? 0) then target_list
      else
        let store capacity :=
          if list_count <? capacity
          then Some (PList (store_slot list_items list_count item) (list_count + 1) capacity)
          else Some (PList list_items list_count capacity) in
        if list_count >=? list_capacity then
          if list_capacity >? C.SIZE_MAX / 2 then target_list
          else
            let new_capacity := C.size_t (C.int32 (list_capacity * 2)) in
            if C.realloc_succeeds (C.size_t (new_capacity * C.sizeof_pointer))
            then store (C.int32 new_capacity)
            else target_list
        else store list_capacity
  | _, _ => target_list
  end.

(** ** The parser *)

(** Modelled from the C standard (ISO C 7.22.1.3), [strtod] being a
    function of the C library and not of main.c: the conversion in the "C"
    locale of a decimal or hexadecimal floating constant with an optional
    sign, as far as [pval_parse] can reach it.  The parser calls it only
    on text that starts with a digit, with [-] and a digit, or with [.],
    so the INF and NAN forms are never seen and are left out.  The result
    is the correctly rounded value (round to nearest, ties to even) and
    the rest of the text; no conversion leaves the text where it was. *)
Module Strtod.

Definition digit_value (c : ascii) : Z :=
  let n := Z.of_nat (nat_of_ascii c) in
  if C.isdigit c then n - 48
  else if 97 <=? n then n - 87
  else n - 55.

(** The longest run of digits of [base]: the number read so far, how
    many digits were read, and the rest. *)
Fixpoint digits (base : Z) (is_digit : ascii -> bool) (s : string) (acc n : Z)
  : Z * Z * string :=
  match s with
  | String c rest =>
      if is_digit c
      then digits base is_digit rest (acc * base + digit_value c) (n + 1)
      else (acc, n, s)
  | EmptyString => (acc, n, s)
  end.

(** A non-empty digit sequence that may hold one radix character: the
    digits as one integer, the number of them after the point, and the
    rest. *)
Definition mantissa (base : Z) (is_digit : ascii -> bool) (s : string)
  : option (Z * Z * string) :=
  let '(a, n1, r1) := digits base is_digit s 0 0 in
  match r1 with
  | String c r2 =>
      if Ascii.eqb c "." then
        let '(b, n2, r3) := digits base is_digit r2 a 0 in
        if n1 + n2 =? 0 then None else Some (b, n2, r3)
      else if n1 =? 0 then None else Some (a, 0, r1)
  | EmptyString => if n1 =? 0 then None else Some (a, 0, r1)
  end.

(** An optional sign: whether it is a minus, and the rest. *)
Definition sign (s : string) : bool * string :=
  match s with
  | String c r =>
      if Ascii.eqb c "-" then (true, r)
      else if Ascii.eqb c "+" then (false, r)
      else (false, s)
  | EmptyString => (false, s)
  end.

(** An optional exponent part: the marker, an optional sign and at least
    one decimal digit; anything less is not part of the number. *)
Definition exponent (is_marker : ascii -> bool) (s : string) : Z * string :=
  match s with
  | String c r =>
      if is_marker c then
        let '(negative, r') := sign r in
        let '(x, n, r'') := digits 10 C.isdigit r' 0 0 in
        if n =? 0 then (0, s) else (if negative then - x else x, r'')
      else (0, s)
  | EmptyString => (0, s)
  end.

(** The double nearest to [m * 10^e], [m >= 0]. *)
Definition decimal_value (m e : Z) : spec_float :=
  if m =? 0 then S754_zero false
  else if 0 <=? e then binary_normalize prec emax (m * 10 ^ e) 0 false
  else
    let '(q, e', l) := SFdiv_core_binary prec emax m 0 (10 ^ (- e)) 0 in
    binary_round_aux prec emax false q e' l.

(** The double nearest to [m * 2^e], [m >= 0]. *)
Definition binary_value (m e : Z) : spec_float :=
  binary_normalize prec emax m e false.

Definition is_e (c : ascii) : bool := Ascii.eqb c "e" || Ascii.eqb c "E".
Definition is_p (c : ascii) : bool := Ascii.eqb c "p" || Ascii.eqb c "P".
Definition is_x (c : ascii) : bool := Ascii.eqb c "x" || Ascii.eqb c "X".

Definition hexadecimal (s : string) : option (spec_float * string) :=
  match s with
  | String c (String x r) =>
      if Ascii.eqb c "0" && is_x x then
        match mantissa 16 C.isxdigit r with
        | Some (m, k, r') =>
            let '(e, r'') := exponent is_p r' in
            Some (binary_value m (e - 4 * k), r'')
        | None => None
        end
      else None
  | _ => None
  end.

Definition decimal (s : string) : option (spec_float * string) :=
  match mantissa 10 C.isdigit s with
  | Some (m, k, r) =>
      let '(e, r') := exponent is_e r in
      Some (decimal_value m (e - k), r')
  | None => None
  end.

(** The magnitude after the sign: hexadecimal when the text has that
    form, decimal otherwise. *)
Definition unsigned (s : string) : option (spec_float * string) :=
  match hexadecimal s with
  | Some r => Some r
  | None => decimal s
  end.

Fixpoint skip_space (s : string) : string :=
  match s with
  | String c rest => if C.isspace c then skip_space rest else s
  | EmptyString => s
  end.

(** [strtod(nptr, &end_ptr)]: the value and [end_ptr]. *)
Definition strtod (nptr : string) : float * string :=
  let '(negative, body) := sign (skip_space nptr) in
  match unsigned body with
  | Some (v, end_ptr) =>
      (if negative then PrimFloat.opp (SF2Prim v) else SF2Prim v, end_ptr)
  | None => (PrimFloat.zero, nptr)
  end.

End Strtod.

Fixpoint skip_whitespace (input_ptr : string) : string :=
  match input_ptr with
  | String c rest => if C.isspace c then skip_whitespace rest else input_ptr
  | EmptyString => input_ptr
  end.

(** What a call of [pval_parse] leaves: the returned pointer and the
    cursor [*input_ptr]. *)
Definition parsed : Type := option pval * string.

Definition is_error (v : pval) : bool :=
  match v with PError _ _ => true | _ => false end.

Definition is_delimiter (c : ascii) : bool :=
  C.isspace c || Ascii.eqb c "(" || Ascii.eqb c ")".

(** The symbol loop: characters are copied into the 256-byte buffer until
    a delimiter or the end; [i] is the number copied so far.  The result
    is the text copied from here on ([None] when the buffer is full) and
    the cursor. *)
Fixpoint read_symbol (input_ptr : string) (i : Z) : option string * string :=
  match input_ptr with
  | String c rest =>
      if is_delimiter c then (Some EmptyString, input_ptr)
      else if i >=? 256 - 1 then (None, input_ptr)
      else
        match read_symbol rest (i + 1) with
        | (Some symbol_buffer, cursor) => (Some (String c symbol_buffer), cursor)
        | (None, cursor) => (None, cursor)
        end
  | EmptyString => (Some EmptyString, input_ptr)
  end.

Definition starts_number (input_ptr : string) : bool :=
  match input_ptr with
  | String c rest =>
      C.isdigit c
      || (Ascii.eqb c "-"
          && match rest with String d _ => C.isdigit d | EmptyString => false end)
      || Ascii.eqb c "."
  | EmptyString => false
  end.

(** [strncmp(input, literal, 2) == 0] for a two-character literal. *)
Definition starts_with2 (input_ptr : string) (a b : ascii) : option string :=
  match input_ptr with
  | String c (String d rest) =>
      if Ascii.eqb c a && Ascii.eqb d b then Some rest else None
  | _ => None
  end.

(** The branches of [pval_parse] for a token that is not a list. *)
Definition parse_atom (input_ptr : string) : parsed :=
  if starts_number input_ptr then
    let '(parsed_num, end_ptr) := Strtod.strtod input_ptr in
    if (String.length end_ptr =? String.length input_ptr)%nat
    then (Some (pval_error "SyntaxError" "Invalid number format"), input_ptr)
    else (Some (pval_number parsed_num), end_ptr)
  else
    match starts_with2 input_ptr "#" "t" with
    | Some rest => (Some (pval_bool true), rest)
    | None =>
        match starts_with2 input_ptr "#" "f" with
        | Some rest => (Some (pval_bool false), rest)
        | None =>
            match read_symbol input_ptr 0 with
            | (None, cursor) =>
                (Some (pval_error "SyntaxError" "Symbol too long"), cursor)
            | (Some EmptyString, cursor) =>
                (Some (pval_error "SyntaxError" "Empty symbol or unparsable token"),
                 cursor)
            | (Some symbol_buffer, cursor) => (Some (pval_symbol symbol_buffer), cursor)
            end
        end
    end.

Section ListLoop.

(** The recursive call [pval_parse(input_ptr)]; [None] when the call
    does not complete within the steps granted. *)
Variable parse : string -> option parsed.

(** The [while (true)] loop that reads the elements of a list, [steps]
    bounding the number of iterations. *)
Fixpoint parse_list_items (steps : nat) (input_ptr : string) (list_value : option pval)
  : option parsed :=
  match steps with
  | O => None
  | S steps' =>
      let input := skip_whitespace input_ptr in
      match input with
      | EmptyString =>
          Some (Some (pval_error "SyntaxError" "Unexpected EOF, expected ')'"), input)
      | String c rest =>
          if Ascii.eqb c ")" then Some (list_value, rest)
          else
            match parse input with
            | None => None
            | Some (None, cursor) =>
                Some (Some (pval_error "SyntaxError" "Invalid expression inside list"),
                      cursor)
            | Some (Some parsed_item, cursor) =>
                if is_error parsed_item then Some (Some parsed_item, cursor)
                else parse_list_items steps' cursor
                       (pval_add list_value (Some parsed_item))
            end
      end
  end.

End ListLoop.

(** [pval_parse] with a bound on the depth of its recursion. *)
Fixpoint pval_parse_fuel (fuel : nat) (input_ptr : string) : option parsed :=
  match fuel with
  | O => None
  | S fuel' =>
      let input := skip_whitespace input_ptr in
      match input with
      | EmptyString => Some (None, input)
      | String c rest =>
          if Ascii.eqb c "("
          then parse_list_items (pval_parse_fuel fuel') (S (String.length rest)) rest
                 (Some pval_list)
          else Some (parse_atom input)
      end
  end.

(** [pval_parse(&input_ptr)].  Every call consumes a character before it
    recurses, so the length of the text bounds the depth
    ([pval_parse_fuel_enough] below). *)
Definition pval_parse (input_ptr : string) : parsed :=
  match pval_parse_fuel (S (String.length input_ptr)) input_ptr with
  | Some r => r
  | None => (None, input_ptr)
  end.

(** The list loop run to its end, its recursive calls being [pval_parse]. *)
Definition parse_list (input_ptr : string) (list_value : option pval) : parsed :=
  match parse_list_items (fun s => Some (pval_parse s))
          (S (String.length input_ptr)) input_ptr list_value with
  | Some r => r
  | None => (None, input_ptr)
  end.

(** ** The builtin operations

    A builtin receives [args] and [arg_count]; the evaluator always passes
    an array of exactly [arg_count] evaluated values, so the pair is one
    list here and [arg_count] is its length. *)

Fixpoint add_loop (args : list pval) (running_sum : float) : pval :=
  match args with
  | [] => pval_number running_sum
  | PNumber number :: args' => add_loop args' (running_sum + number)%float
  | _ :: _ => pval_error "TypeError" "Arguments to + must be numbers"
  end.

Definition builtin_add (args : list pval) : pval :=
  match args with
  | [] => pval_number 0%float
  | _ => add_loop args 0%float
  end.

Definition builtin_sub (args : list pval) : pval :=
  match args with
  | [] => pval_error "ArityError" "'-' requires at least one argument"
  | PNumber first :: args' =>
      match args' with
      | [] => pval_number (- first)%float
      | [PNumber second] => pval_number (first - second)%float
      | [_] => pval_error "TypeError" "Second argument to - must be a number"
      | _ => pval_error "ArityError" "'-' currently supports 1 or 2 arguments"
      end
  | _ :: _ => pval_error "TypeError" "First argument to - must be a number"
  end.

Fixpoint mul_loop (args : list pval) (running_product : float) : pval :=
  match args with
  | [] => pval_number running_product
  | PNumber number :: args' => mul_loop args' (running_product * number)%float
  | _ :: _ => pval_error "TypeError" "Arguments to * must be numbers"
  end.

Definition builtin_mul (args : list pval) : pval :=
  match args with
  | [] => pval_number 1%float
  | _ => mul_loop args 1%float
  end.

Definition builtin_div (args : list pval) : pval :=
  match args with
  | [first_arg; second_arg] =>
      match first_arg, second_arg with
      | PNumber dividend, PNumber divisor =>
          if (divisor =? 0)%float
          then pval_error "DivisionByZeroError" "Division by zero"
          else pval_number (dividend / divisor)%float
      | _, _ => pval_error "TypeError" "Arguments to / must be numbers"
      end
  | _ => pval_error "ArityError" "'/' requires exactly 2 arguments"
  end.

Definition builtin_eq (args : list pval) : pval :=
  match args with
  | [first_arg; second_arg] =>
      if negb (pval_t_eqb (type first_arg) (type second_arg)) then pval_bool false
      else
        match first_arg, second_arg with
        | PNumber a, PNumber b => pval_bool (PrimFloat.abs (a - b) <? 1e-10)%float
        | PBool a, PBool b => pval_bool (Bool.eqb a b)
        | PSymbol a, PSymbol b => pval_bool (String.eqb a b)
        | _, _ => pval_error "TypeError" "Unsupported types for equality comparison"
        end
  | _ => pval_error "ArityError" "'=' requires exactly 2 arguments"
  end.

Definition builtin_quit (args : list pval) : pval :=
  match args with
  | [] => pval_symbol "quitting"
  | _ => pval_error "ArityError" "quit takes no arguments"
  end.

(** A call through a [builtin_function_ptr]. *)
Definition call (function : builtin_function_ptr) (args : list pval) : pval :=
  match function with
  | builtin_add_ptr => builtin_add args
  | builtin_sub_ptr => builtin_sub args
  | builtin_mul_ptr => builtin_mul args
  | builtin_div_ptr => builtin_div args
  | builtin_eq_ptr => builtin_eq args
  | builtin_quit_ptr => builtin_quit args
  end.

(** The table [builtins], without its terminating entry. *)
Definition builtins : list (string * builtin_function_ptr) :=
  [ ("+"%string, builtin_add_ptr); ("-"%string, builtin_sub_ptr);
    ("*"%string, builtin_mul_ptr); ("/"%string, builtin_div_ptr);
    ("="%string, builtin_eq_ptr); ("quit"%string, builtin_quit_ptr) ].

(** The linear search of the table by [strcmp]. *)
Fixpoint lookup (symbol : string) (table : list (string * builtin_function_ptr))
  : option builtin_function_ptr :=
  match table with
  | (name, func) :: table' => if String.eqb symbol name then Some func else lookup symbol table'
  | [] => None
  end.

(** ** The evaluator *)

Section EvalItems.

(** The recursive call [pval_eval(input_value->list_items[i])], with the
    calls it makes. *)
Variable eval : pval -> list pval * pval.
Variable list_count : Z.

(** The loop that fills [evaluated_items], from slot [i] on: the calls
    made, and the error the loop returns or the values it stored. *)
Fixpoint eval_items (slots : list pval) (i : Z) {struct slots}
  : list pval * (pval + list pval) :=
  if i <? list_count then
    match slots with
    | item :: slots' =>
        let '(calls_item, evaluated) := eval item in
        match evaluated with
        | PError error_type error_message =>
            (calls_item, inl (pval_error error_type error_message))
        | _ =>
            let '(calls_rest, outcome) := eval_items slots' (i + 1) in
            (calls_item ++ calls_rest,
             match outcome with
             | inl error_result => inl error_result
             | inr evaluated_items => inr (evaluated :: evaluated_items)
             end)
        end
    | [] => ([], inl (pval_error "EvalError" "Null evaluation result"))
    end
  else ([], inr []).

End EvalItems.

(** The application of the evaluated head to the evaluated arguments. *)
Definition apply_head (evaluated_items : list pval) : pval :=
  match evaluated_items with
  | PFunction function :: function_args => call function function_args
  | _ => pval_error "InapplicableHeadError" "Expression head is not a function"
  end.

(** [pval_eval] on a non-null value, together with the values it was
    called on while it ran, in the order of the calls (the call at hand
    first).  The two bounds checks inside the loops of the C function
    repeat the loop conditions and never fire; they are not part of the
    model. *)
Fixpoint pval_eval_log (input_value : pval) : list pval * pval :=
  let '(calls, result) :=
    match input_value with
    | PNumber number => ([], pval_number number)
    | PBool boolean => ([], pval_bool boolean)
    | PError error_type error_message => ([], pval_error error_type error_message)
    | PSymbol symbol =>
        ([], match lookup symbol builtins with
             | Some func => pval_function func
             | None => pval_error "UnboundError" "Symbol not bound to a function"
             end)
    | PList list_items list_count _ =>
        if list_count <? 0 then ([], pval_error "ListError" "Invalid list count")
        else if list_count =? 0 then ([], pval_list)
        else
          match eval_items pval_eval_log list_count list_items 0 with
          | (calls, inl error_result) => (calls, error_result)
          | (calls, inr evaluated_items) => (calls, apply_head evaluated_items)
          end
    | _ => ([], pval_error "EvalError" "Unsupported pval type for evaluation")
    end in
  (input_value :: calls, result).

(** [pval_eval]: the value returned. *)
Definition pval_eval (input_value : pval) : pval := snd (pval_eval_log input_value).

(** The values [pval_eval] is called on during [pval_eval(input_value)]. *)
Definition eval_calls (input_value : pval) : list pval := fst (pval_eval_log input_value).

(** ** Notions used in the statements *)

(** The kind of an error value. *)
Definition error_kind (v : pval) : option string :=
  match v with
  | PError error_type _ => Some error_type
  | _ => None
  end.

(** [suffix r s]: the cursor [r] is a position of the text [s]. *)
Definition suffix (r s : string) : Prop := exists p, s = (p ++ r)%string.

(** A parser that completes on every text of at most [bound] characters:
    it returns, leaves the cursor at a position of the text, and has moved
    it when it returns a value that is not an error. *)
Definition completes (parse : string -> option parsed) (bound : nat) : Prop :=
  forall s, (String.length s <= bound)%nat ->
    exists v r, parse s = Some (v, r) /\ suffix r s
      /\ (forall x, v = Some x -> is_error x = false ->
            (String.length r < String.length s)%nat).

(** A text with a decimal point in it. *)
Fixpoint has_point (s : string) : bool :=
  match s with
  | String c rest => Ascii.eqb c "." || has_point rest
  | EmptyString => false
  end.

(** A text that ends with a decimal point and three decimal digits, its
    only point. *)
Definition three_decimals (s : string) : Prop :=
  exists whole d1 d2 d3,
    s = (whole ++ "." ++ String d1 (String d2 (String d3 EmptyString)))%string
    /\ has_point whole = false
    /\ C.isdigit d1 = true /\ C.isdigit d2 = true /\ C.isdigit d3 = true.

(** A text made of white space only. *)
Fixpoint all_space (s : string) : bool :=
  match s with
  | String c rest => C.isspace c && all_space rest
  | EmptyString => true
  end.

(** The representation invariant of a list object: [list_count] is the
    number of stored elements. *)
Definition count_matches (list_items : list pval) (list_count : Z) : Prop :=
  list_count = Z.of_nat (length list_items).

(** A well-formed value: in every list of it the count is the number of
    stored elements, within a positive capacity that an [int32_t] holds. *)
Fixpoint pval_wf (v : pval) : bool :=
  match v with
  | PList list_items list_count list_capacity =>
      (list_count =? Z.of_nat (length list_items))
      && (0 <? list_capacity) && (list_count <=? list_capacity)
      && (list_capacity <=? C.INT32_MAX)
      && forallb pval_wf list_items
  | _ => true
  end.

(** The two states [pval_add] tests for as invalid. *)
Definition invalid_state (list_count list_capacity : Z) : Prop :=
  list_count < 0 \/ list_capacity <= 0.

(** Bookkeeping that breaks the invariant of a list object, a count
    between 0 and a positive capacity: the two states above, and a count
    above the capacity, which [pval_add] does not test for. *)
Definition inconsistent (list_count list_capacity : Z) : Prop :=
  invalid_state list_count list_capacity \/ list_capacity < list_count.

(** Doubling the capacity leaves the range of [size_t] (the guard of
    [pval_add]) or of the [int32_t] field that holds it. *)
Definition growth_overflows (list_capacity : Z) : Prop :=
  C.SIZE_MAX / 2 < list_capacity
  \/ (C.INT32_MAX / 2 < list_capacity /\ list_capacity <= C.INT32_MAX).

(** ** The parenthesis check of the read loop *)

(** [Stack]: the linked list of nodes, as the list of their [data], the
    head first. *)
Definition Stack : Type := list Z.

(** [stack_is_empty]: the [int32_t] value of [stack->head == NULL]. *)
Definition stack_is_empty (stack : Stack) : Z :=
  match stack with
  | [] => 1
  | _ :: _ => 0
  end.

Definition stack_init : Stack * Z := ([], 0).

(** [stack_insert]: the stack after the call and the value returned (the
    node is allocated). *)
Definition stack_insert (stack : Stack) (value : Z) : Stack * Z :=
  (value :: stack, 0).

Definition stack_pop (stack : Stack) : Stack * Z :=
  if negb (stack_is_empty stack =? 0) then (stack, -1)
  else
    match stack with
    | popped_value :: next => (next, popped_value)
    | [] => (stack, -1)
    end.

Fixpoint clear_stack (stack : Stack) : Stack :=
  match stack with
  | _ :: next => clear_stack next
  | [] => []
  end.

(** The [for] loop of [check_balanced_parens] from the character [i] on,
    and the statements after it: the value returned and the stack left. *)
Fixpoint scan_parens (i : string) (paren_stack : Stack) : bool * Stack :=
  match i with
  | String c rest =>
      if Ascii.eqb c "(" then scan_parens rest (fst (stack_insert paren_stack 40))
      else if Ascii.eqb c ")" then
        if negb (stack_is_empty paren_stack =? 0) then (false, clear_stack paren_stack)
        else scan_parens rest (fst (stack_pop paren_stack))
      else scan_parens rest paren_stack
  | EmptyString =>
      let balanced := negb (stack_is_empty paren_stack =? 0) in
      (balanced, clear_stack paren_stack)
  end.

Definition check_balanced_parens (input_str : string) (paren_stack : Stack)
  : bool * Stack :=
  scan_parens input_str (clear_stack paren_stack).

(** ** The read loop

    One turn of the loop of [main] once a line has been read into
    [input_buffer] and its newline removed: the text written to stdout,
    whether the loop is left, and the stack of the parenthesis check. *)

Definition newline : string := String "010"%char EmptyString.

(** The test for the list of the one symbol [quit].  It reads
    [list_items[0]] of a list that counts one element; the lists the
    parser builds hold the elements they count. *)
Definition is_quit_list (parsed_value : pval) : bool :=
  match parsed_value with
  | PList (PSymbol symbol :: _) list_count _ =>
      (list_count =? 1) && String.eqb symbol "quit"
  | _ => false
  end.

(** The test for the symbol that [builtin_quit] returns. *)
Definition is_quitting (final_result : pval) : bool :=
  match final_result with
  | PSymbol symbol => String.eqb symbol "quitting"
  | _ => false
  end.

Definition main_step (input_buffer : string) (paren_stack : Stack)
  : string * bool * Stack :=
  match input_buffer with
  | EmptyString =>
      ("$error{SyntaxError Empty input}" ++ newline, false, paren_stack)%string
  | String _ _ =>
      let '(balanced, paren_stack) := check_balanced_parens input_buffer paren_stack in
      if negb balanced
      then ("$error{SyntaxError Unbalanced parentheses}" ++ newline, false,
            paren_stack)%string
      else
        match pval_parse input_buffer with
        | (None, _) =>
            ("$error{SyntaxError Empty input or unparsable}" ++ newline, false,
             paren_stack)%string
        | (Some parsed_value, _) =>
            if is_error parsed_value
            then ((pval_print parsed_value ++ newline)%string, false, paren_stack)
            else if is_quit_list parsed_value
            then (("Quitting..." ++ newline)%string, true, paren_stack)
            else
              let final_result := pval_eval parsed_value in
              if is_quitting final_result
              then (("Quitting..." ++ newline)%string, true, paren_stack)
              else ((pval_print final_result ++ newline)%string, false, paren_stack)
        end
  end.

(** ** More notions used in the statements *)

(** The number of occurrences of a character in a text. *)
Fixpoint count_char (c : ascii) (s : string) : nat :=
  match s with
  | String x rest => (if Ascii.eqb x c then 1 else 0) + count_char c rest
  | EmptyString => 0
  end.

(** A value made of numbers, booleans, symbols and lists of such. *)
Fixpoint is_data (v : pval) : bool :=
  match v with
  | PNumber _ | PBool _ | PSymbol _ => true
  | PList list_items _ _ => forallb is_data list_items
  | PFunction _ | PError _ _ => false
  end.

(** What [pval_eval] can return: a number, a boolean, a function, an
    error, the fresh empty list, or the symbol of [builtin_quit]. *)
Definition eval_result (v : pval) : Prop :=
  match v with
  | PNumber _ | PBool _ | PFunction _ | PError _ _ => True
  | PSymbol symbol => symbol = "quitting"%string
  | PList list_items list_count list_capacity =>
      list_items = [] /\ list_count = 0 /\ list_capacity = 4
  end.

Definition is_number (v : pval) : bool :=
  match v with PNumber _ => true | _ => false end.

(** The numbers among the arguments, in order. *)
Fixpoint numbers (args : list pval) : list float :=
  match args with
  | PNumber number :: args' => number :: numbers args'
  | _ :: args' => numbers args'
  | [] => []
  end.

(** A text without white space and parentheses. *)
Fixpoint no_delimiter (t : string) : bool :=
  match t with
  | String c rest => negb (is_delimiter c) && no_delimiter rest
  | EmptyString => true
  end.

(** A text that is over or starts with white space or a parenthesis. *)
Definition ends_token (r : string) : bool :=
  match r with
  | String c _ => is_delimiter c
  | EmptyString => true
  end.

(** A text that starts neither as a number nor as a boolean literal. *)
Definition starts_symbol (t : string) : bool :=
  negb (starts_number t)
  && match starts_with2 t "#" "t" with Some _ => false | None => true end
  && match starts_with2 t "#" "f" with Some _ => false | None => true end.

(** The nesting depth after a text read from the depth [depth]: one more
    after an opening parenthesis, one less after a closing one; none when
    a closing parenthesis comes at depth 0. *)
Fixpoint paren_depth (s : string) (depth : nat) : option nat :=
  match s with
  | String c rest =>
      if Ascii.eqb c "(" then paren_depth rest (S depth)
      else if Ascii.eqb c ")" then
        match depth with
        | O => None
        | S depth' => paren_depth rest depth'
        end
      else paren_depth rest depth
  | EmptyString => Some depth
  end.

(** The error of a list that the text ends in. *)
Definition is_eof_error (v : pval) : bool :=
  match v with
  | PError error_type error_message =>
      String.eqb error_type "SyntaxError"
      && String.eqb error_message "Unexpected EOF, expected ')'"
  | _ => false
  end.

Definition is_paren (c : ascii) : bool := Ascii.eqb c "(" || Ascii.eqb c ")".

Fixpoint no_paren (s : string) : bool :=
  match s with
  | String c rest => negb (is_paren c) && no_paren rest
  | EmptyString => true
  end.

(** [r] is [s] without a prefix that holds no parenthesis. *)
Definition plain_suffix (r s : string) : Prop :=
  exists p, s = (p ++ r)%string /\ no_paren p = true.

(** The two errors of [pval_parse] that a single token gives. *)
Definition token_error (v : pval) : Prop :=
  v = PError "SyntaxError" "Invalid number format"
  \/ v = PError "SyntaxError" "Symbol too long".

(** The kinds of error that the evaluation of an expression can give. *)
Definition evaluation_errors : list string :=
  [ "UnboundError"; "InapplicableHeadError"; "TypeError"; "ArityError";
    "DivisionByZeroError" ]%string.

(** A value that reads back from its printed form: a number printed
    as an integer, a boolean, a symbol that is one token the parser takes
    for a symbol, or a list of such values that holds the elements it
    counts, at most 2^30 of them. *)
Fixpoint readable (v : pval) : bool :=
  match v with
  | PNumber number =>
      PrimFloat.eqb number (Double.of_int32 (Double.to_int32 number))
  | PBool _ => true
  | PSymbol symbol =>
      negb (String.eqb symbol "") && no_delimiter symbol && starts_symbol symbol
      && (String.length symbol <=? 255)%nat
  | PList list_items list_count _ =>
      (list_count =? Z.of_nat (length list_items)) && (list_count <=? 2 ^ 30)
      && forallb readable list_items
  | PFunction _ | PError _ _ => false
  end.

(** * Properties *)

(** ** The embedding on the examples of the README *)

Example readme_examples :
  map (fun line =>
         match pval_parse line with
         | (Some v, _) => pval_print (pval_eval v)
         | (None, _) => EmptyString
         end)
    [ "(+ 1 2 3)"; "(- 5)"; "(- 10 3)"; "(* 2 3 4)"; "(/ 10 2)"; "(= 5 5)"; "(= 3 4)";
      "(+ (* 2 3) (/ 8 2))"; "(= (+ 1 1) (* 1 2))"; "()"; "(+ 1 #t)"; "(/ 1 3)";
      "(/ 1 0)"; "(/ 1)"; "(foo 1)"; "(1 2)" ]%string
  = [ "6"; "-5"; "7"; "24"; "5"; "#t"; "#f"; "10"; "#t"; "()";
      "$error{TypeError Arguments to + must be numbers}"; "0.333";
      "$error{DivisionByZeroError Division by zero}";
      "$error{ArityError '/' requires exactly 2 arguments}";
      "$error{UnboundError Symbol not bound to a function}";
      "$error{InapplicableHeadError Expression head is not a function}" ]%string.
Proof. vm_compute. reflexivity. Qed.

(** [Strtod.strtod] agrees with the reading of floating-point literals by
    the proof assistant, itself correctly rounded. *)
Example strtod_examples :
  map (fun text => fst (Strtod.strtod text))
    [ "1.0000000001"; "1e-10"; "0.1"; "1e23"; "-2.5"; ".5"; "1."; "3.14 x";
      "9007199254740993"; "1.7976931348623157e308"; "4.9e-324"; "0x1.8p1" ]%string
  = [ 1.0000000001; 1e-10; 0.1; 1e23; -2.5; 0.5; 1; 3.14;
      9007199254740992; 1.7976931348623157e308; 4.9e-324; 3 ]%float
  /\ map (fun text => snd (Strtod.strtod text))
       [ "12abc"; "1e"; "1e+"; "1.5e3)"; "0xg"; "."; "-.x" ]%string
     = [ "abc"; "e"; "e+"; ")"; "xg"; "."; "-.x" ]%string.
Proof. split; vm_compute; reflexivity. Qed.

(** ** Evaluation of atoms *)

(** C9.  A value tagged as a function is not self-evaluating: it falls
    through every case of [pval_eval] to the catch-all and yields the
    EvalError "Unsupported pval type for evaluation"; no other value is
    evaluated on the way. *)
Theorem pval_eval_function (input_value : pval) :
  type input_value = PVAL_FUNCTION ->
  pval_eval input_value = PError "EvalError" "Unsupported pval type for evaluation"
  /\ eval_calls input_value = [input_value].
Proof.
  intros Htag.
  destruct input_value as [n | b | s | items count cap | f | t m];
    simpl in Htag; try discriminate Htag.
  split; reflexivity.
Qed.

Lemma pval_eval_function_witness :
  pval_eval (PFunction builtin_add_ptr)
    = PError "EvalError" "Unsupported pval type for evaluation"
  /\ eval_calls (PFunction builtin_add_ptr) = [PFunction builtin_add_ptr].
Proof.
  apply (pval_eval_function (PFunction builtin_add_ptr)). reflexivity.
Defined.

(** ** Evaluation of a non-empty list *)

Section EvalItemsFacts.

Variable eval : pval -> list pval * pval.
Variable list_count : Z.

(** The loop over slots that all evaluate to something else than an
    error: every slot is evaluated, in slot order, and the values are
    stored in that order. *)
Lemma eval_items_all (slots : list pval) (i : Z) :
  i + Z.of_nat (length slots) = list_count ->
  Forall (fun v => is_error (snd (eval v)) = false) slots ->
  eval_items eval list_count slots i
  = (flat_map (fun v => fst (eval v)) slots, inr (map (fun v => snd (eval v)) slots)).
Proof.
  revert i. induction slots as [|item slots IH]; intros i Hlen Hok.
  - simpl in *. replace (i <? list_count) with false by (symmetry; apply Z.ltb_ge; lia).
    reflexivity.
  - apply Forall_cons_iff in Hok; destruct Hok as [Hitem Hrest].
    cbn [eval_items length flat_map map].
    replace (i <? list_count) with true
      by (symmetry; apply Z.ltb_lt; cbn [length] in Hlen; lia).
    destruct (eval item) as [calls_item evaluated] eqn:Heval.
    cbn [fst snd] in *.
    rewrite (IH (i + 1)); [|cbn [length] in Hlen; lia|assumption].
    destruct evaluated; try reflexivity. discriminate Hitem.
Qed.

(** The loop up to the first slot that evaluates to an error: the slots
    before it and that slot are evaluated, the loop returns a copy of that
    error, and no slot after it is evaluated. *)
Lemma eval_items_first_error (before after : list pval) (item : pval) (i : Z)
      (error_type error_message : string) :
  i + Z.of_nat (length (before ++ item :: after)) = list_count ->
  Forall (fun v => is_error (snd (eval v)) = false) before ->
  snd (eval item) = PError error_type error_message ->
  eval_items eval list_count (before ++ item :: after) i
  = (flat_map (fun v => fst (eval v)) before ++ fst (eval item),
     inl (PError error_type error_message)).
Proof.
  revert i. induction before as [|b before IH]; intros i Hlen Hok Herr.
  - cbn [app eval_items flat_map].
    replace (i <? list_count) with true
      by (symmetry; apply Z.ltb_lt; cbn [app length] in Hlen; lia).
    destruct (eval item) as [calls_item evaluated]. cbn [fst snd] in *.
    subst evaluated. reflexivity.
  - apply Forall_cons_iff in Hok; destruct Hok as [Hb Hrest].
    cbn [app eval_items flat_map].
    replace (i <? list_count) with true
      by (symmetry; apply Z.ltb_lt; cbn [app length] in Hlen; lia).
    destruct (eval b) as [calls_b evaluated] eqn:Heval. cbn [fst snd] in *.
    rewrite (IH (i + 1)); [|cbn [app length] in Hlen; lia|assumption|assumption].
    rewrite app_assoc.
    destruct evaluated; try reflexivity. discriminate Hb.
Qed.

End EvalItemsFacts.

Lemma pval_eval_log_list (list_items : list pval) (list_count list_capacity : Z) :
  0 < list_count ->
  pval_eval_log (PList list_items list_count list_capacity)
  = (PList list_items list_count list_capacity
       :: fst (eval_items pval_eval_log list_count list_items 0),
     match snd (eval_items pval_eval_log list_count list_items 0) with
     | inl error_result => error_result
     | inr evaluated_items => apply_head evaluated_items
     end).
Proof.
  intros Hpos. cbn [pval_eval_log].
  replace (list_count <? 0) with false by (symmetry; apply Z.ltb_ge; lia).
  replace (list_count =? 0) with false by (symmetry; apply Z.eqb_neq; lia).
  destruct (eval_items pval_eval_log list_count list_items 0) as [calls [e|vs]];
    reflexivity.
Qed.

Lemma pval_eval_list_first_error (before after : list pval) (item : pval)
      (list_capacity : Z) (error_type error_message : string) :
  Forall (fun v => is_error (pval_eval v) = false) before ->
  pval_eval item = PError error_type error_message ->
  pval_eval_log
    (PList (before ++ item :: after)
       (Z.of_nat (length (before ++ item :: after))) list_capacity)
  = (PList (before ++ item :: after)
       (Z.of_nat (length (before ++ item :: after))) list_capacity
       :: flat_map eval_calls before ++ eval_calls item,
     PError error_type error_message).
Proof.
  intros Hok Herr.
  rewrite pval_eval_log_list by (rewrite length_app; cbn [length]; lia).
  rewrite (eval_items_first_error pval_eval_log _ before after item 0
             error_type error_message); [reflexivity|lia|exact Hok|exact Herr].
Qed.

Lemma pval_eval_list_no_error (list_items : list pval) (list_capacity : Z) :
  list_items <> [] ->
  Forall (fun v => is_error (pval_eval v) = false) list_items ->
  pval_eval_log (PList list_items (Z.of_nat (length list_items)) list_capacity)
  = (PList list_items (Z.of_nat (length list_items)) list_capacity
       :: flat_map eval_calls list_items,
     apply_head (map pval_eval list_items)).
Proof.
  intros Hne Hok.
  rewrite pval_eval_log_list
    by (destruct list_items; [contradiction | cbn [length]; lia]).
  rewrite (eval_items_all pval_eval_log _ list_items 0); [reflexivity|lia|exact Hok].
Qed.

(** C1.  Evaluating a non-empty list evaluates its elements from left to
    right, the head included.  When no element evaluates to an error the
    calls made are those of each element in order, and the evaluated head
    is applied to the evaluated rest.  When some element evaluates to an
    error, the elements before the first such one and that element are
    the only ones evaluated, and its error is the result of the list.  In
    particular (+ 1 (/ 1 0) undefined-symbol) evaluates to the
    DivisionByZeroError of (/ 1 0) after seven calls of the evaluator,
    none of them on undefined-symbol. *)
Theorem pval_eval_list_short_circuit :
  (forall before item after list_capacity error_type error_message,
      let list_items := before ++ item :: after in
      let input_value :=
        PList list_items (Z.of_nat (length list_items)) list_capacity in
      Forall (fun v => is_error (pval_eval v) = false) before ->
      pval_eval item = PError error_type error_message ->
      pval_eval input_value = PError error_type error_message
      /\ eval_calls input_value
         = input_value :: flat_map eval_calls before ++ eval_calls item)
  /\ (forall list_items list_capacity,
        let input_value :=
          PList list_items (Z.of_nat (length list_items)) list_capacity in
        list_items <> [] ->
        Forall (fun v => is_error (pval_eval v) = false) list_items ->
        pval_eval input_value = apply_head (map pval_eval list_items)
        /\ eval_calls input_value = input_value :: flat_map eval_calls list_items)
  /\ (let quotient := PList [PSymbol "/"; PNumber 1; PNumber 0] 3 4 in
      let input_value :=
        PList [PSymbol "+"; PNumber 1; quotient; PSymbol "undefined-symbol"] 4 4 in
      pval_parse "(+ 1 (/ 1 0) undefined-symbol)" = (Some input_value, ""%string)
      /\ pval_eval input_value = PError "DivisionByZeroError" "Division by zero"
      /\ eval_calls input_value
         = [input_value; PSymbol "+"; PNumber 1; quotient;
            PSymbol "/"; PNumber 1; PNumber 0]
      /\ pval_eval (PSymbol "undefined-symbol")
         = PError "UnboundError" "Symbol not bound to a function").
Proof.
  split.
  { intros before item after list_capacity error_type error_message
           list_items input_value Hok Herr.
    change (pval_eval input_value) with (snd (pval_eval_log input_value)).
    change (eval_calls input_value) with (fst (pval_eval_log input_value)).
    subst input_value list_items.
    rewrite (pval_eval_list_first_error before after item list_capacity
               error_type error_message Hok Herr).
    split; reflexivity. }
  split.
  { intros list_items list_capacity input_value Hne Hok.
    change (pval_eval input_value) with (snd (pval_eval_log input_value)).
    change (eval_calls input_value) with (fst (pval_eval_log input_value)).
    subst input_value.
    rewrite (pval_eval_list_no_error list_items list_capacity Hne Hok).
    split; reflexivity. }
  cbv zeta.
  split; [vm_compute; reflexivity|].
  split; [vm_compute; reflexivity|].
  split; vm_compute; reflexivity.
Qed.

Lemma pval_eval_list_short_circuit_witness :
  let quotient := PList [PSymbol "/"; PNumber 1; PNumber 0] 3 4 in
  let input_value :=
    PList [PSymbol "+"; PNumber 1; quotient; PSymbol "undefined-symbol"] 4 4 in
  pval_eval input_value = PError "DivisionByZeroError" "Division by zero"
  /\ eval_calls input_value
     = input_value
         :: flat_map eval_calls [PSymbol "+"; PNumber 1] ++ eval_calls quotient.
Proof.
  cbv zeta.
  apply (proj1 pval_eval_list_short_circuit
           [PSymbol "+"; PNumber 1]
           (PList [PSymbol "/"; PNumber 1; PNumber 0] 3 4)
           [PSymbol "undefined-symbol"] 4
           "DivisionByZeroError"%string "Division by zero"%string).
  - repeat constructor.
  - vm_compute. reflexivity.
Defined.

(** ** The builtin operations *)

(** C10.  The zero test of [builtin_div] is the floating-point comparison
    [== 0.0], which holds of the negative zero as well as of the positive
    one: dividing by either yields DivisionByZeroError, whatever the
    dividend.  In particular (/ 1 -0.0), whose divisor the parser reads as
    the negative zero, evaluates to that error and not to the infinite
    quotient the division itself would give. *)
Theorem builtin_div_negative_zero (dividend : float) :
  builtin_div [PNumber dividend; PNumber PrimFloat.neg_zero]
    = PError "DivisionByZeroError" "Division by zero"
  /\ builtin_div [PNumber dividend; PNumber PrimFloat.zero]
    = PError "DivisionByZeroError" "Division by zero"
  /\ get_sign PrimFloat.neg_zero = true
  /\ (1 / PrimFloat.neg_zero)%float = PrimFloat.neg_infinity
  /\ pval_parse "(/ 1 -0.0)"
     = (Some (PList [PSymbol "/"; PNumber 1; PNumber PrimFloat.neg_zero] 3 4), ""%string)
  /\ pval_eval (PList [PSymbol "/"; PNumber 1; PNumber PrimFloat.neg_zero] 3 4)
     = PError "DivisionByZeroError" "Division by zero".
Proof.
  assert (Hneg : (PrimFloat.neg_zero =? 0)%float = true) by (vm_compute; reflexivity).
  assert (Hpos : (PrimFloat.zero =? 0)%float = true) by (vm_compute; reflexivity).
  split; [unfold builtin_div; rewrite Hneg; reflexivity|].
  split; [unfold builtin_div; rewrite Hpos; reflexivity|].
  split; [vm_compute; reflexivity|].
  split; [vm_compute; reflexivity|].
  split; vm_compute; reflexivity.
Qed.

Lemma builtin_eq_arity (args : list pval) :
  length args <> 2%nat ->
  builtin_eq args = PError "ArityError" "'=' requires exactly 2 arguments".
Proof.
  destruct args as [|a [|b [|c l]]]; simpl; intros H; try reflexivity.
  exfalso; apply H; reflexivity.
Qed.

Lemma builtin_eq_tags_differ (a b : pval) :
  type a <> type b -> builtin_eq [a; b] = PBool false.
Proof.
  intros H. unfold builtin_eq.
  destruct a, b; simpl in *; try reflexivity; exfalso; apply H; reflexivity.
Qed.

Lemma builtin_eq_unsupported (a b : pval) :
  type a = type b ->
  type a = PVAL_LIST \/ type a = PVAL_FUNCTION \/ type a = PVAL_ERROR ->
  builtin_eq [a; b] = PError "TypeError" "Unsupported types for equality comparison".
Proof.
  intros Hab [H | [H | H]]; destruct a; simpl in H; try discriminate H;
    destruct b; simpl in Hab; try discriminate Hab; reflexivity.
Qed.

(** C4.  [=] takes exactly two arguments, any other count being an
    ArityError.  Two arguments of different tags compare as false, not as
    an error; two booleans and two symbols compare as true exactly when
    they are the same boolean, the same text; two lists, two functions and
    two errors are a TypeError. *)
Theorem builtin_eq_cases :
  (forall args, length args <> 2%nat ->
     builtin_eq args = PError "ArityError" "'=' requires exactly 2 arguments")
  /\ (forall a b, type a <> type b -> builtin_eq [a; b] = PBool false)
  /\ (forall a b, exists r,
        builtin_eq [PBool a; PBool b] = PBool r /\ (r = true <-> a = b))
  /\ (forall a b, exists r,
        builtin_eq [PSymbol a; PSymbol b] = PBool r /\ (r = true <-> a = b))
  /\ (forall a b, type a = type b ->
        type a = PVAL_LIST \/ type a = PVAL_FUNCTION \/ type a = PVAL_ERROR ->
        builtin_eq [a; b]
          = PError "TypeError" "Unsupported types for equality comparison").
Proof.
  split; [exact builtin_eq_arity|].
  split; [exact builtin_eq_tags_differ|].
  split.
  { intros a b. exists (Bool.eqb a b). split; [reflexivity|].
    apply Bool.eqb_true_iff. }
  split.
  { intros a b. exists (String.eqb a b). split; [reflexivity|].
    apply String.eqb_eq. }
  exact builtin_eq_unsupported.
Qed.

Lemma builtin_eq_cases_witness :
  builtin_eq [PNumber 1; PNumber 2; PNumber 3]
    = PError "ArityError" "'=' requires exactly 2 arguments"
  /\ builtin_eq [PNumber 1; PBool true] = PBool false
  /\ builtin_eq [PList [] 0 4; PList [] 0 4]
     = PError "TypeError" "Unsupported types for equality comparison"
  /\ builtin_eq [PFunction builtin_add_ptr; PFunction builtin_add_ptr]
     = PError "TypeError" "Unsupported types for equality comparison"
  /\ builtin_eq [PError "a" "b"; PError "a" "b"]
     = PError "TypeError" "Unsupported types for equality comparison".
Proof.
  destruct builtin_eq_cases as (Harity & Htags & _ & _ & Hunsupported).
  split; [apply Harity; simpl; lia|].
  split; [apply Htags; simpl; discriminate|].
  split; [apply Hunsupported; simpl; auto|].
  split; apply Hunsupported; simpl; auto.
Defined.

Lemma builtin_sub_first_not_number (first : pval) (rest : list pval) :
  type first <> PVAL_NUMBER ->
  builtin_sub (first :: rest)
    = PError "TypeError" "First argument to - must be a number".
Proof.
  intros H. destruct first; simpl in *; try reflexivity.
  exfalso; apply H; reflexivity.
Qed.

Lemma builtin_sub_too_many (x : float) (a b : pval) (rest : list pval) :
  builtin_sub (PNumber x :: a :: b :: rest)
    = PError "ArityError" "'-' currently supports 1 or 2 arguments".
Proof.
  unfold builtin_sub. destruct a; reflexivity.
Qed.

(** C5, the claim as stated fails: [-] applied to three arguments of which
    the first is not a number returns a TypeError, the type of the first
    argument being tested before the count. *)
Lemma builtin_sub_three_args_type_error :
  builtin_sub [PBool true; PNumber 1; PNumber 2]
    = PError "TypeError" "First argument to - must be a number"
  /\ error_kind (builtin_sub [PBool true; PNumber 1; PNumber 2])
     <> Some "ArityError"%string.
Proof.
  split; [reflexivity | discriminate].
Qed.

(** C5, amended.  [+] of no argument is 0 and [*] of no argument is 1.
    [-] of one number is its negation and of two numbers the first minus
    the second; of no argument it is an ArityError; of three or more
    arguments it is an ArityError when the first is a number, and the
    TypeError of a non-number first argument otherwise. *)
Theorem builtin_arity_laws :
  builtin_add [] = PNumber 0
  /\ builtin_mul [] = PNumber 1
  /\ (forall x, builtin_sub [PNumber x] = PNumber (- x))
  /\ (forall x y, builtin_sub [PNumber x; PNumber y] = PNumber (x - y))
  /\ builtin_sub [] = PError "ArityError" "'-' requires at least one argument"
  /\ (forall x a b rest,
        builtin_sub (PNumber x :: a :: b :: rest)
          = PError "ArityError" "'-' currently supports 1 or 2 arguments")
  /\ (forall first a b rest, type first <> PVAL_NUMBER ->
        builtin_sub (first :: a :: b :: rest)
          = PError "TypeError" "First argument to - must be a number").
Proof.
  split; [reflexivity|].
  split; [reflexivity|].
  split; [intros x; reflexivity|].
  split; [intros x y; reflexivity|].
  split; [reflexivity|].
  split; [exact builtin_sub_too_many|].
  intros first a b rest H. apply builtin_sub_first_not_number, H.
Qed.

Lemma builtin_arity_laws_witness :
  builtin_sub [PNumber 1; PNumber 2; PNumber 3]
    = PError "ArityError" "'-' currently supports 1 or 2 arguments"
  /\ builtin_sub [PSymbol "x"; PNumber 2; PNumber 3]
     = PError "TypeError" "First argument to - must be a number".
Proof.
  destruct builtin_arity_laws as (_ & _ & _ & _ & _ & Hmany & Hfirst).
  split; [apply Hmany|].
  apply Hfirst. simpl. discriminate.
Defined.

(** C2, the claim as stated fails: the double nearest to 1.0000000001
    differs from 1.0 by 450360 units of 2^-52, which is more than the
    double nearest to 1e-10, so [=] answers false. *)
Lemma builtin_eq_tolerance_edge :
  builtin_eq [PNumber 1.0000000001; PNumber 1.0] = PBool false.
Proof.
  vm_compute. reflexivity.
Qed.

(** C2, amended.  Two numbers are equal for [=] exactly when the absolute
    value of their difference, computed in double precision, is below
    the double 1e-10.  That makes 1.0000000001 and 1.0 different (their
    difference is 7737125885706240 * 2^-86 against a tolerance of
    7737125245533627 * 2^-86), 1.1 and 1.0 different, and 1.00000000001
    and 1.0 equal.  The parser reads the text 1.0000000001 as that
    double. *)
Theorem builtin_eq_numbers :
  (forall a b,
     builtin_eq [PNumber a; PNumber b] = PBool (PrimFloat.abs (a - b) <? 1e-10)%float)
  /\ builtin_eq [PNumber 1.0000000001; PNumber 1.0] = PBool false
  /\ builtin_eq [PNumber 1.1; PNumber 1.0] = PBool false
  /\ builtin_eq [PNumber 1.00000000001; PNumber 1.0] = PBool true
  /\ Prim2SF (PrimFloat.abs (1.0000000001 - 1.0))
     = S754_finite false 7737125885706240 (-86)
  /\ Prim2SF 1e-10 = S754_finite false 7737125245533627 (-86)
  /\ pval_parse "1.0000000001" = (Some (PNumber 1.0000000001), ""%string)
  /\ pval_eval (PList [PSymbol "="; PNumber 1.0000000001; PNumber 1.0] 3 4)
     = PBool false.
Proof.
  split; [intros a b; reflexivity|].
  split; [vm_compute; reflexivity|].
  split; [vm_compute; reflexivity|].
  split; [vm_compute; reflexivity|].
  split; [vm_compute; reflexivity|].
  split; [vm_compute; reflexivity|].
  split; vm_compute; reflexivity.
Qed.

(** ** Appending to a list *)

Lemma mod_shift (a b k : Z) : 0 <= a + k * b < b -> a mod b = a + k * b.
Proof.
  intros H. symmetry. apply (Z.mod_unique a b (- k)); [left; exact H | ring].
Qed.

Lemma int32_in_range (z : Z) : C.int32_range z -> C.int32 z = z.
Proof.
  unfold C.int32_range, C.INT32_MIN, C.INT32_MAX, C.int32.
  change (2 ^ 31) with 2147483648. change (2 ^ 32) with 4294967296.
  intros H. rewrite (mod_shift _ _ 0); lia.
Qed.

Lemma int32_above (z : Z) : 2 ^ 31 <= z < 2 ^ 32 -> C.int32 z = z - 2 ^ 32.
Proof.
  unfold C.int32.
  change (2 ^ 31) with 2147483648. change (2 ^ 32) with 4294967296.
  intros H. rewrite (mod_shift _ _ (- 1)); lia.
Qed.

Lemma size_t_in_range (z : Z) : 0 <= z <= C.SIZE_MAX -> C.size_t z = z.
Proof.
  unfold C.size_t, C.SIZE_MAX. change (2 ^ 64 - 1 + 1) with 18446744073709551616.
  change (2 ^ 64) with 18446744073709551616.
  intros H. rewrite (mod_shift _ _ 0); lia.
Qed.

Lemma size_t_negative (z : Z) : - 2 ^ 64 <= z < 0 -> C.size_t z = z + 2 ^ 64.
Proof.
  unfold C.size_t, C.SIZE_MAX. change (2 ^ 64 - 1 + 1) with 18446744073709551616.
  change (2 ^ 64) with 18446744073709551616.
  intros H. rewrite (mod_shift _ _ 1); lia.
Qed.

Lemma store_slot_appends (list_items : list pval) (list_count : Z) (item : pval) :
  count_matches list_items list_count ->
  store_slot list_items list_count item = list_items ++ [item].
Proof.
  unfold count_matches, store_slot. intros ->.
  rewrite Nat2Z.id, firstn_all. reflexivity.
Qed.

(** The refusals that do not depend on the fields of the list. *)
Lemma pval_add_absent (target_list new_item : option pval) :
  target_list = None \/ new_item = None
  \/ (exists v, target_list = Some v /\ type v <> PVAL_LIST) ->
  pval_add target_list new_item = target_list.
Proof.
  intros [-> | [-> | (v & -> & Htag)]].
  - reflexivity.
  - destruct target_list as [[]|]; reflexivity.
  - destruct v; try reflexivity. exfalso; apply Htag; reflexivity.
Qed.

Lemma pval_add_invalid (list_items : list pval) (list_count list_capacity : Z)
      (new_item : option pval) :
  invalid_state list_count list_capacity ->
  pval_add (Some (PList list_items list_count list_capacity)) new_item
  = Some (PList list_items list_count list_capacity).
Proof.
  intros H. destruct new_item as [item|]; [|reflexivity].
  unfold pval_add.
  replace ((list_count <? 0) || (list_capacity <=? 0)) with true; [reflexivity|].
  symmetry. apply orb_true_iff.
  destruct H as [H | H]; [left; apply Z.ltb_lt | right; apply Z.leb_le]; exact H.
Qed.

Lemma pval_add_overflow (list_items : list pval) (list_count list_capacity : Z)
      (new_item : option pval) :
  list_capacity <= list_count ->
  growth_overflows list_capacity ->
  pval_add (Some (PList list_items list_count list_capacity)) new_item
  = Some (PList list_items list_count list_capacity).
Proof.
  intros Hfull Hover. destruct new_item as [item|]; [|reflexivity].
  unfold pval_add.
  destruct ((list_count <? 0) || (list_capacity <=? 0)); [reflexivity|].
  replace (list_count >=? list_capacity) with true
    by (symmetry; apply Z.geb_le; exact Hfull).
  destruct Hover as [Hsize | [Hlow Hhigh]].
  - replace (list_capacity >? C.SIZE_MAX / 2) with true; [reflexivity|].
    symmetry. apply Z.gtb_lt. exact Hsize.
  - destruct (list_capacity >? C.SIZE_MAX / 2); [reflexivity|].
    unfold C.INT32_MAX in Hlow, Hhigh.
    change ((2 ^ 31 - 1) / 2) with 1073741823 in Hlow.
    change (2 ^ 31 - 1) with 2147483647 in Hhigh.
    rewrite (int32_above (list_capacity * 2))
      by (change (2 ^ 31) with 2147483648; change (2 ^ 32) with 4294967296; lia).
    change (2 ^ 32) with 4294967296.
    rewrite (size_t_negative (list_capacity * 2 - 4294967296))
      by (change (2 ^ 64) with 18446744073709551616; lia).
    change (2 ^ 64) with 18446744073709551616.
    unfold C.sizeof_pointer.
    replace (C.size_t ((list_capacity * 2 - 4294967296 + 18446744073709551616) * 8))
      with ((list_capacity * 2 - 4294967296) * 8 + 18446744073709551616).
    + replace (C.realloc_succeeds _) with false; [reflexivity|].
      symmetry. apply Z.leb_gt. unfold C.PTRDIFF_MAX.
      change (2 ^ 63 - 1) with 9223372036854775807. lia.
    + unfold C.size_t, C.SIZE_MAX.
      change (2 ^ 64 - 1 + 1) with 18446744073709551616.
      rewrite (mod_shift _ _ (- 7)); lia.
Qed.

(** An accepted append: there is room, or the capacity can be doubled. *)
Lemma pval_add_appends (list_items : list pval) (list_count list_capacity : Z)
      (item : pval) :
  count_matches list_items list_count ->
  0 < list_capacity <= C.INT32_MAX ->
  0 <= list_count <= list_capacity ->
  list_count < list_capacity \/ list_capacity <= C.INT32_MAX / 2 ->
  pval_add (Some (PList list_items list_count list_capacity)) (Some item)
  = Some (PList (list_items ++ [item]) (list_count + 1)
            (if list_count <? list_capacity then list_capacity
             else list_capacity * 2)).
Proof.
  intros Hrep Hcap Hcount Hroom. unfold pval_add.
  replace ((list_count <? 0) || (list_capacity <=? 0)) with false
    by (symmetry; apply orb_false_iff; split;
        [apply Z.ltb_ge | apply Z.leb_gt]; lia).
  rewrite (store_slot_appends _ _ _ Hrep).
  destruct (list_count <? list_capacity) eqn:Hlt.
  - replace (list_count >=? list_capacity) with false; [reflexivity|].
    symmetry. apply Z.ltb_lt in Hlt. rewrite Z.geb_leb. apply Z.leb_gt. exact Hlt.
  - apply Z.ltb_ge in Hlt.
    destruct Hroom as [Hroom | Hroom]; [lia|].
    unfold C.INT32_MAX in Hroom, Hcap.
    change ((2 ^ 31 - 1) / 2) with 1073741823 in Hroom.
    change (2 ^ 31 - 1) with 2147483647 in Hcap.
    replace (list_count >=? list_capacity) with true
      by (symmetry; apply Z.geb_le; exact Hlt).
    replace (list_capacity >? C.SIZE_MAX / 2) with false
      by (symmetry; rewrite Z.gtb_ltb; apply Z.ltb_ge;
          change (C.SIZE_MAX / 2) with 9223372036854775807; lia).
    assert (Hint : C.int32 (list_capacity * 2) = list_capacity * 2).
    { apply int32_in_range. unfold C.int32_range, C.INT32_MIN, C.INT32_MAX.
      change (2 ^ 31) with 2147483648. lia. }
    assert (Hsize : C.size_t (list_capacity * 2) = list_capacity * 2).
    { apply size_t_in_range. change C.SIZE_MAX with 18446744073709551615. lia. }
    rewrite Hint, Hsize, Hint.
    replace (C.realloc_succeeds _) with true.
    + replace (list_count <? list_capacity * 2) with true; [reflexivity|].
      symmetry. apply Z.ltb_lt. lia.
    + symmetry. unfold C.realloc_succeeds, C.sizeof_pointer. apply Z.leb_le.
      rewrite size_t_in_range; change C.SIZE_MAX with 18446744073709551615;
        change C.PTRDIFF_MAX with 9223372036854775807; lia.
Qed.

(** A count above the capacity is not refused: the capacity is doubled
    and, if the count is then below it, the item is stored and the count
    incremented. *)
Lemma pval_add_above_capacity (list_items : list pval) (list_count list_capacity : Z)
      (item : pval) :
  0 < list_capacity < list_count ->
  list_capacity <= C.INT32_MAX / 2 ->
  exists items,
    pval_add (Some (PList list_items list_count list_capacity)) (Some item)
    = Some (PList items
              (if list_count <? list_capacity * 2 then list_count + 1 else list_count)
              (list_capacity * 2))
    /\ (list_capacity * 2 <= list_count -> items = list_items).
Proof.
  intros Hcap Hsmall. unfold C.INT32_MAX in Hsmall.
  change ((2 ^ 31 - 1) / 2) with 1073741823 in Hsmall.
  unfold pval_add.
  replace ((list_count <? 0) || (list_capacity <=? 0)) with false
    by (symmetry; apply orb_false_iff; split;
        [apply Z.ltb_ge | apply Z.leb_gt]; lia).
  replace (list_count >=? list_capacity) with true
    by (symmetry; apply Z.geb_le; lia).
  replace (list_capacity >? C.SIZE_MAX / 2) with false
    by (symmetry; rewrite Z.gtb_ltb; apply Z.ltb_ge;
        change (C.SIZE_MAX / 2) with 9223372036854775807; lia).
  assert (Hint : C.int32 (list_capacity * 2) = list_capacity * 2).
  { apply int32_in_range. unfold C.int32_range, C.INT32_MIN, C.INT32_MAX.
    change (2 ^ 31) with 2147483648. lia. }
  assert (Hsize : C.size_t (list_capacity * 2) = list_capacity * 2).
  { apply size_t_in_range. change C.SIZE_MAX with 18446744073709551615. lia. }
  rewrite Hint, Hsize, Hint.
  replace (C.realloc_succeeds _) with true.
  - destruct (Z.ltb_spec list_count (list_capacity * 2)) as [Hroom | Hfull].
    + eexists. split; [reflexivity|]. lia.
    + eexists. split; [reflexivity|]. reflexivity.
  - symmetry. unfold C.realloc_succeeds, C.sizeof_pointer. apply Z.leb_le.
    rewrite size_t_in_range; change C.SIZE_MAX with 18446744073709551615;
      change C.PTRDIFF_MAX with 9223372036854775807; lia.
Qed.

(** C7, the claim as stated fails on a list whose bookkeeping is
    inconsistent because its count is above its capacity: the append is
    not a no-op there.  With a count of 10 and a capacity of 4 the block
    is reallocated and the capacity becomes 8. *)
Lemma pval_add_count_above_capacity :
  inconsistent 10 4
  /\ pval_add (Some (PList [] 10 4)) (Some (PNumber 1)) = Some (PList [] 10 8)
  /\ PList [] 10 8 <> PList [] 10 4.
Proof.
  split; [right; lia|]. split; [reflexivity | discriminate].
Qed.

(** C7, amended.  [pval_add] is refused, leaving the list object exactly
    as it was and the item out of it, when either pointer is null, when
    the target is not a list, when the count is negative or the capacity
    is not positive, and when the count is not below the capacity and
    doubling the capacity would overflow.  An append to a list whose
    count is the number of its elements and within its capacity is
    accepted when there is room or the capacity can be doubled: the item
    becomes the last element, the elements before it and their order are
    as they were, and the count is one more.  The remaining inconsistent
    state, a count above the capacity, is not refused: when the capacity
    can be doubled it is doubled, and the count is incremented if it is
    then below the capacity; when it is not, the elements and the count
    are as they were and only the capacity has changed. *)
Theorem pval_add_spec :
  (forall target_list new_item,
      target_list = None \/ new_item = None
      \/ (exists v, target_list = Some v /\ type v <> PVAL_LIST) ->
      pval_add target_list new_item = target_list)
  /\ (forall list_items list_count list_capacity new_item,
        invalid_state list_count list_capacity
        \/ (list_capacity <= list_count /\ growth_overflows list_capacity) ->
        pval_add (Some (PList list_items list_count list_capacity)) new_item
        = Some (PList list_items list_count list_capacity))
  /\ (forall list_items list_count list_capacity item,
        count_matches list_items list_count ->
        0 < list_capacity <= C.INT32_MAX ->
        0 <= list_count <= list_capacity ->
        list_count < list_capacity \/ list_capacity <= C.INT32_MAX / 2 ->
        pval_add (Some (PList list_items list_count list_capacity)) (Some item)
        = Some (PList (list_items ++ [item]) (list_count + 1)
                  (if list_count <? list_capacity then list_capacity
                   else list_capacity * 2)))
  /\ (forall list_items list_count list_capacity item,
        0 < list_capacity < list_count ->
        list_capacity <= C.INT32_MAX / 2 ->
        inconsistent list_count list_capacity
        /\ exists items,
             pval_add (Some (PList list_items list_count list_capacity)) (Some item)
             = Some (PList items
                       (if list_count <? list_capacity * 2 then list_count + 1
                        else list_count)
                       (list_capacity * 2))
             /\ (list_capacity * 2 <= list_count -> items = list_items)).
Proof.
  split; [exact pval_add_absent|].
  split.
  { intros list_items list_count list_capacity new_item [H | [Hfull Hover]].
    - apply pval_add_invalid, H.
    - apply pval_add_overflow; assumption. }
  split; [exact pval_add_appends|].
  intros list_items list_count list_capacity item Hcap Hsmall.
  split; [right; lia|]. apply pval_add_above_capacity; assumption.
Qed.

Lemma pval_add_spec_witness :
  pval_add (Some (PNumber 1)) (Some (PNumber 2)) = Some (PNumber 1)
  /\ pval_add (Some (PList [] (- 1) 4)) (Some (PNumber 2)) = Some (PList [] (- 1) 4)
  /\ pval_add (Some (PList (repeat (PBool true) (2 ^ 30)) (2 ^ 30) (2 ^ 30)))
       (Some (PNumber 2))
     = Some (PList (repeat (PBool true) (2 ^ 30)) (2 ^ 30) (2 ^ 30))
  /\ pval_add
       (Some (PList [PNumber 1; PNumber 2; PNumber 3; PNumber 4] 4 4))
       (Some (PNumber 5))
     = Some (PList ([PNumber 1; PNumber 2; PNumber 3; PNumber 4] ++ [PNumber 5])
               (4 + 1) (if 4 <? 4 then 4 else 4 * 2))
  /\ (inconsistent 10 4
      /\ exists items,
           pval_add (Some (PList [PNumber 1] 10 4)) (Some (PNumber 5))
           = Some (PList items (if 10 <? 4 * 2 then 10 + 1 else 10) (4 * 2))
           /\ (4 * 2 <= 10 -> items = [PNumber 1])).
Proof.
  destruct pval_add_spec as (Habsent & Hrefused & Haccepted & Habove).
  split.
  { apply Habsent. right; right. exists (PNumber 1). split; [reflexivity|].
    simpl; discriminate. }
  split.
  { apply Hrefused. left. left. lia. }
  split.
  { apply Hrefused. right. split; [lia|]. right.
    unfold C.INT32_MAX. change ((2 ^ 31 - 1) / 2) with 1073741823.
    change (2 ^ 31 - 1) with 2147483647. change (2 ^ 30) with 1073741824. lia. }
  split.
  { apply Haccepted.
    - reflexivity.
    - unfold C.INT32_MAX. change (2 ^ 31 - 1) with 2147483647. lia.
    - lia.
    - right. unfold C.INT32_MAX. change ((2 ^ 31 - 1) / 2) with 1073741823. lia. }
  apply Habove.
  - lia.
  - unfold C.INT32_MAX. change ((2 ^ 31 - 1) / 2) with 1073741823. lia.
Defined.

(** ** The parser: cursors *)

Lemma append_assoc (a b c : string) : ((a ++ b) ++ c = a ++ (b ++ c))%string.
Proof.
  induction a as [|x a IH]; simpl; [reflexivity | rewrite IH; reflexivity].
Qed.

Lemma length_append (a b : string) :
  String.length (a ++ b) = (String.length a + String.length b)%nat.
Proof.
  induction a as [|x a IH]; simpl; [reflexivity | rewrite IH; reflexivity].
Qed.

Lemma suffix_refl (s : string) : suffix s s.
Proof. exists EmptyString. reflexivity. Qed.

Lemma suffix_trans (a b c : string) : suffix a b -> suffix b c -> suffix a c.
Proof.
  intros [p ->] [q ->]. exists (q ++ p)%string. apply eq_sym, append_assoc.
Qed.

Lemma suffix_tail (c : ascii) (r s : string) : suffix r s -> suffix r (String c s).
Proof.
  intros [p ->]. exists (String c p). reflexivity.
Qed.

Lemma suffix_length (r s : string) :
  suffix r s -> (String.length r <= String.length s)%nat.
Proof.
  intros [p ->]. rewrite length_append. lia.
Qed.

Create HintDb cursor.
#[local] Hint Resolve suffix_refl suffix_tail : cursor.

Lemma skip_whitespace_suffix (s : string) : suffix (skip_whitespace s) s.
Proof.
  induction s as [|c s IH]; simpl; [apply suffix_refl|].
  destruct (C.isspace c); auto with cursor.
Qed.

Lemma skip_whitespace_blanks (blanks s : string) :
  all_space blanks = true ->
  skip_whitespace (blanks ++ s) = skip_whitespace s.
Proof.
  induction blanks as [|c blanks IH]; simpl; [reflexivity|].
  intros H. apply andb_true_iff in H. destruct H as [Hc Hrest].
  rewrite Hc. apply IH, Hrest.
Qed.

Module StrtodFacts.

Import Strtod.

Lemma digits_suffix (base : Z) (is_digit : ascii -> bool) (s : string) (acc n : Z) :
  suffix (snd (digits base is_digit s acc n)) s.
Proof.
  revert acc n. induction s as [|c s IH]; intros acc n; simpl; [apply suffix_refl|].
  destruct (is_digit c); [apply suffix_tail, IH | apply suffix_refl].
Qed.

Lemma mantissa_suffix (base : Z) (is_digit : ascii -> bool) (s : string)
      (m k : Z) (r : string) :
  mantissa base is_digit s = Some (m, k, r) -> suffix r s.
Proof.
  unfold mantissa.
  pose proof (digits_suffix base is_digit s 0 0) as H1.
  destruct (digits base is_digit s 0 0) as [[a n1] r1]. cbn [snd] in H1.
  destruct r1 as [|c r2].
  - destruct (n1 =? 0); [discriminate|]. intros H; injection H as _ _ <-. exact H1.
  - destruct (Ascii.eqb c ".").
    + pose proof (digits_suffix base is_digit r2 a 0) as H2.
      destruct (digits base is_digit r2 a 0) as [[b n2] r3]. cbn [snd] in H2.
      destruct (n1 + n2 =? 0); [discriminate|].
      intros H; injection H as _ _ <-.
      eapply suffix_trans; [|exact H1]. apply suffix_tail, H2.
    + destruct (n1 =? 0); [discriminate|].
      intros H; injection H as _ _ <-. exact H1.
Qed.

Lemma sign_suffix (s : string) : suffix (snd (sign s)) s.
Proof.
  unfold sign. destruct s as [|c r]; [apply suffix_refl|].
  destruct (Ascii.eqb c "-"); [cbn [snd]; auto with cursor|].
  destruct (Ascii.eqb c "+"); cbn [snd]; auto with cursor.
Qed.

Lemma exponent_suffix (is_marker : ascii -> bool) (s : string) :
  suffix (snd (exponent is_marker s)) s.
Proof.
  unfold exponent. destruct s as [|c r]; [apply suffix_refl|].
  destruct (is_marker c); [|apply suffix_refl].
  pose proof (sign_suffix r) as Hr'.
  destruct (sign r) as [negative r']. cbn [snd] in Hr'.
  pose proof (digits_suffix 10 C.isdigit r' 0 0) as H.
  destruct (digits 10 C.isdigit r' 0 0) as [[x n] r'']. cbn [snd] in H.
  destruct (n =? 0); cbn [snd]; [apply suffix_refl|].
  apply suffix_tail. eapply suffix_trans; eassumption.
Qed.

Lemma hexadecimal_suffix (s : string) (v : spec_float) (r : string) :
  hexadecimal s = Some (v, r) -> suffix r s.
Proof.
  unfold hexadecimal. destruct s as [|c [|x s]]; try discriminate.
  destruct (Ascii.eqb c "0" && is_x x); [|discriminate].
  destruct (mantissa 16 C.isxdigit s) as [[[m k] r']|] eqn:Hm; [|discriminate].
  apply mantissa_suffix in Hm.
  pose proof (exponent_suffix is_p r') as He.
  destruct (exponent is_p r') as [e r'']. cbn [snd] in He.
  intros H; injection H as _ <-.
  do 2 apply suffix_tail. eapply suffix_trans; eassumption.
Qed.

Lemma decimal_suffix (s : string) (v : spec_float) (r : string) :
  decimal s = Some (v, r) -> suffix r s.
Proof.
  unfold decimal.
  destruct (mantissa 10 C.isdigit s) as [[[m k] r']|] eqn:Hm; [|discriminate].
  apply mantissa_suffix in Hm.
  pose proof (exponent_suffix is_e r') as He.
  destruct (exponent is_e r') as [e r'']. cbn [snd] in He.
  intros H; injection H as _ <-. eapply suffix_trans; eassumption.
Qed.

Lemma unsigned_suffix (s : string) (v : spec_float) (r : string) :
  unsigned s = Some (v, r) -> suffix r s.
Proof.
  unfold unsigned. destruct (hexadecimal s) as [[v' r']|] eqn:Hh.
  - intros H; injection H as _ <-. eapply hexadecimal_suffix, Hh.
  - apply decimal_suffix.
Qed.

Lemma skip_space_suffix (s : string) : suffix (skip_space s) s.
Proof.
  induction s as [|c s IH]; simpl; [apply suffix_refl|].
  destruct (C.isspace c); auto with cursor.
Qed.

(** [end_ptr] is a position of the text [strtod] was given. *)
Lemma strtod_suffix (nptr : string) : suffix (snd (strtod nptr)) nptr.
Proof.
  unfold strtod.
  pose proof (sign_suffix (skip_space nptr)) as Hbody.
  destruct (sign (skip_space nptr)) as [negative body]. cbn [snd] in Hbody.
  destruct (unsigned body) as [[v end_ptr]|] eqn:Hu; cbn [snd]; [|apply suffix_refl].
  apply unsigned_suffix in Hu.
  eapply suffix_trans; [exact Hu|].
  eapply suffix_trans; [exact Hbody | apply skip_space_suffix].
Qed.

End StrtodFacts.

(** ** The parser: atoms *)

Lemma read_symbol_text (input_ptr : string) (i : Z) (symbol_buffer cursor : string) :
  read_symbol input_ptr i = (Some symbol_buffer, cursor) ->
  input_ptr = (symbol_buffer ++ cursor)%string.
Proof.
  revert i symbol_buffer cursor.
  induction input_ptr as [|c rest IH]; intros i symbol_buffer cursor;
    cbn [read_symbol].
  - intros H; injection H as <- <-. reflexivity.
  - destruct (is_delimiter c); [intros H; injection H as <- <-; reflexivity|].
    destruct (i >=? 256 - 1); [discriminate|].
    destruct (read_symbol rest (i + 1)) as [[text|] cursor'] eqn:Hrest; [|discriminate].
    intros H; injection H as <- <-. simpl. f_equal. eapply IH, Hrest.
Qed.

Lemma read_symbol_suffix (input_ptr : string) (i : Z) :
  suffix (snd (read_symbol input_ptr i)) input_ptr.
Proof.
  revert i. induction input_ptr as [|c rest IH]; intros i; cbn [read_symbol];
    [apply suffix_refl|].
  destruct (is_delimiter c); [apply suffix_refl|].
  destruct (i >=? 256 - 1); [apply suffix_refl|].
  specialize (IH (i + 1)).
  destruct (read_symbol rest (i + 1)) as [[text|] cursor']; cbn [snd] in *;
    apply suffix_tail, IH.
Qed.

Lemma starts_with2_text (input_ptr : string) (a b : ascii) (rest : string) :
  starts_with2 input_ptr a b = Some rest -> input_ptr = String a (String b rest).
Proof.
  unfold starts_with2. destruct input_ptr as [|c [|d r]]; try discriminate.
  destruct (Ascii.eqb c a) eqn:Hc; [|discriminate].
  destruct (Ascii.eqb d b) eqn:Hd; [|discriminate].
  apply Ascii.eqb_eq in Hc, Hd. subst c d. simpl.
  intros H; injection H as <-. reflexivity.
Qed.

(** [parse_atom] returns a value, leaves the cursor at a position of the
    text, and has moved it unless the value is an error. *)
Lemma parse_atom_cursor (input_ptr : string) :
  exists x r, parse_atom input_ptr = (Some x, r) /\ suffix r input_ptr
    /\ (is_error x = false -> (String.length r < String.length input_ptr)%nat).
Proof.
  unfold parse_atom. destruct (starts_number input_ptr).
  { pose proof (StrtodFacts.strtod_suffix input_ptr) as Hend.
    destruct (Strtod.strtod input_ptr) as [parsed_num end_ptr]. cbn [snd] in Hend.
    destruct (String.length end_ptr =? String.length input_ptr)%nat eqn:Hsame.
    - eexists _, _. split; [reflexivity|]. split; [apply suffix_refl|].
      simpl; discriminate.
    - eexists _, _. split; [reflexivity|]. split; [exact Hend|].
      intros _. apply Nat.eqb_neq in Hsame. apply suffix_length in Hend. lia. }
  destruct (starts_with2 input_ptr "#" "t") as [rest|] eqn:Ht.
  { apply starts_with2_text in Ht. subst input_ptr.
    eexists _, _. split; [reflexivity|].
    split; [auto with cursor | simpl; lia]. }
  destruct (starts_with2 input_ptr "#" "f") as [rest|] eqn:Hf.
  { apply starts_with2_text in Hf. subst input_ptr.
    eexists _, _. split; [reflexivity|].
    split; [auto with cursor | simpl; lia]. }
  pose proof (read_symbol_suffix input_ptr 0) as Hcur.
  destruct (read_symbol input_ptr 0) as [[[|c text]|] cursor] eqn:Hsym; cbn [snd] in Hcur.
  - eexists _, _. split; [reflexivity|]. split; [exact Hcur | simpl; discriminate].
  - eexists _, _. split; [reflexivity|]. split; [exact Hcur|].
    intros _. apply read_symbol_text in Hsym. subst input_ptr.
    rewrite length_append. simpl. lia.
  - eexists _, _. split; [reflexivity|]. split; [exact Hcur | simpl; discriminate].
Qed.

(** ** The parser: termination *)

Lemma pval_parse_fuel_step (fuel : nat) (s : string) :
  pval_parse_fuel (S fuel) s
  = match skip_whitespace s with
    | EmptyString => Some (None, EmptyString)
    | String c rest =>
        if Ascii.eqb c "("
        then parse_list_items (pval_parse_fuel fuel) (S (String.length rest)) rest
               (Some pval_list)
        else Some (parse_atom (String c rest))
    end.
Proof.
  cbn [pval_parse_fuel]. destruct (skip_whitespace s); reflexivity.
Qed.

Lemma parse_list_items_step (parse : string -> option parsed) (steps : nat)
      (s : string) (l : option pval) :
  parse_list_items parse (S steps) s l
  = match skip_whitespace s with
    | EmptyString =>
        Some (Some (pval_error "SyntaxError" "Unexpected EOF, expected ')'"),
              EmptyString)
    | String c rest =>
        if Ascii.eqb c ")" then Some (l, rest)
        else
          match parse (String c rest) with
          | None => None
          | Some (None, cursor) =>
              Some (Some (pval_error "SyntaxError" "Invalid expression inside list"),
                    cursor)
          | Some (Some parsed_item, cursor) =>
              if is_error parsed_item then Some (Some parsed_item, cursor)
              else parse_list_items parse steps cursor (pval_add l (Some parsed_item))
          end
    end.
Proof.
  cbn [parse_list_items]. destruct (skip_whitespace s); reflexivity.
Qed.

Lemma parse_list_items_completes (parse : string -> option parsed) (bound : nat) :
  completes parse bound ->
  forall (steps : nat) (s : string) (l : option pval),
    (String.length s <= bound)%nat -> (String.length s < steps)%nat ->
    exists v r, parse_list_items parse steps s l = Some (v, r) /\ suffix r s.
Proof.
  intros Hparse. induction steps as [|steps IH]; intros s l Hbound Hsteps; [lia|].
  rewrite parse_list_items_step.
  pose proof (skip_whitespace_suffix s) as Hskip.
  destruct (skip_whitespace s) as [|c rest] eqn:Hinput.
  - eexists _, _. split; [reflexivity | exact Hskip].
  - destruct (Ascii.eqb c ")").
    + eexists _, _. split; [reflexivity|].
      eapply suffix_trans; [|exact Hskip]. auto with cursor.
    + pose proof (suffix_length _ _ Hskip) as Hlen.
      destruct (Hparse (String c rest)) as (v & r & -> & Hr & Hmoved); [lia|].
      destruct v as [item|].
      * destruct (is_error item) eqn:Herr.
        -- eexists _, _. split; [reflexivity|]. eapply suffix_trans; eassumption.
        -- specialize (Hmoved item eq_refl Herr).
           pose proof (suffix_length _ _ Hr) as Hlen'.
           destruct (IH r (pval_add l (Some item))) as (v' & r' & -> & Hr'); [lia|lia|].
           eexists _, _. split; [reflexivity|].
           eapply suffix_trans; [exact Hr'|]. eapply suffix_trans; eassumption.
      * eexists _, _. split; [reflexivity|]. eapply suffix_trans; eassumption.
Qed.

(** With more fuel than the text has characters [pval_parse_fuel] returns. *)
Lemma pval_parse_fuel_completes (fuel : nat) : completes (pval_parse_fuel (S fuel)) fuel.
Proof.
  induction fuel as [|fuel IH]; intros s Hlen.
  - destruct s; [|simpl in Hlen; lia].
    exists None, EmptyString. split; [reflexivity|]. split; [apply suffix_refl|].
    discriminate.
  - rewrite pval_parse_fuel_step.
    pose proof (skip_whitespace_suffix s) as Hskip.
    pose proof (suffix_length _ _ Hskip) as Hskiplen.
    destruct (skip_whitespace s) as [|c rest] eqn:Hinput.
    + exists None, EmptyString. split; [reflexivity|]. split; [exact Hskip|].
      discriminate.
    + simpl in Hskiplen. destruct (Ascii.eqb c "(").
      * destruct (parse_list_items_completes _ _ IH (S (String.length rest)) rest
                    (Some pval_list)) as (v & r & -> & Hr); [lia|lia|].
        exists v, r. split; [reflexivity|].
        split; [eapply suffix_trans; [|exact Hskip]; auto with cursor|].
        intros _ _ _. apply suffix_length in Hr. lia.
      * destruct (parse_atom_cursor (String c rest)) as (x & r & -> & Hr & Hmoved).
        exists (Some x), r. split; [reflexivity|].
        split; [eapply suffix_trans; eassumption|].
        intros y Hy Herr. injection Hy as <-. specialize (Hmoved Herr).
        simpl in Hmoved. lia.
Qed.

Lemma parse_list_items_mono (parse1 parse2 : string -> option parsed) :
  (forall s r, parse1 s = Some r -> parse2 s = Some r) ->
  forall (steps1 steps2 : nat) (s : string) (l : option pval) (r : parsed),
    (steps1 <= steps2)%nat ->
    parse_list_items parse1 steps1 s l = Some r ->
    parse_list_items parse2 steps2 s l = Some r.
Proof.
  intros Hparse. induction steps1 as [|steps1 IH]; intros steps2 s l r Hle; [discriminate|].
  destruct steps2 as [|steps2]; [lia|].
  rewrite !parse_list_items_step.
  destruct (skip_whitespace s) as [|c rest]; [exact (fun H => H)|].
  destruct (Ascii.eqb c ")"); [exact (fun H => H)|].
  destruct (parse1 (String c rest)) as [[v cursor]|] eqn:H1; [|discriminate].
  rewrite (Hparse _ _ H1).
  destruct v as [item|]; [|exact (fun H => H)].
  destruct (is_error item); [exact (fun H => H)|].
  apply IH. lia.
Qed.

Lemma pval_parse_fuel_mono (fuel1 fuel2 : nat) (s : string) (r : parsed) :
  (fuel1 <= fuel2)%nat ->
  pval_parse_fuel fuel1 s = Some r -> pval_parse_fuel fuel2 s = Some r.
Proof.
  revert fuel2 s r. induction fuel1 as [|fuel1 IH]; intros fuel2 s r Hle; [discriminate|].
  destruct fuel2 as [|fuel2]; [lia|].
  rewrite !pval_parse_fuel_step.
  destruct (skip_whitespace s) as [|c rest]; [exact (fun H => H)|].
  destruct (Ascii.eqb c "("); [|exact (fun H => H)].
  apply parse_list_items_mono; [|lia].
  intros s' r'. apply IH. lia.
Qed.

(** The length of the text is fuel enough: more fuel gives the result of
    [pval_parse]. *)
Lemma pval_parse_fuel_enough (fuel : nat) (s : string) :
  (String.length s < fuel)%nat -> pval_parse_fuel fuel s = Some (pval_parse s).
Proof.
  intros Hlen. unfold pval_parse.
  destruct (pval_parse_fuel_completes (String.length s) s (Nat.le_refl _))
    as (v & r & Hrun & _).
  rewrite Hrun. eapply pval_parse_fuel_mono; [|exact Hrun]. lia.
Qed.

(** Whatever the fuel, a result is the result of [pval_parse]. *)
Lemma pval_parse_fuel_sound (fuel : nat) (s : string) (r : parsed) :
  pval_parse_fuel fuel s = Some r -> pval_parse s = r.
Proof.
  intros Hrun.
  pose proof (pval_parse_fuel_enough (Nat.max fuel (S (String.length s))) s) as Hbig.
  rewrite (pval_parse_fuel_mono fuel _ s r) in Hbig; [|lia|exact Hrun].
  symmetry. injection Hbig; [auto|lia].
Qed.

(** [pval_parse] returns, leaves the cursor at a position of the text, and
    has moved it when it returns a value that is not an error. *)
Lemma pval_parse_completes (bound : nat) : completes (fun s => Some (pval_parse s)) bound.
Proof.
  intros s _.
  destruct (pval_parse_fuel_completes (String.length s) s (Nat.le_refl _))
    as (v & r & Hrun & Hr & Hmoved).
  exists v, r. split; [|split; assumption].
  f_equal. eapply pval_parse_fuel_sound, Hrun.
Qed.

Lemma parse_list_items_enough (steps : nat) (s : string) (l : option pval) :
  (String.length s < steps)%nat ->
  parse_list_items (fun s => Some (pval_parse s)) steps s l = Some (parse_list s l).
Proof.
  intros Hlen. unfold parse_list.
  destruct (parse_list_items_completes _ _ (pval_parse_completes (String.length s))
              (S (String.length s)) s l) as (v & r & Hrun & _); [lia|lia|].
  rewrite Hrun.
  eapply parse_list_items_mono; [| |exact Hrun]; [auto | lia].
Qed.

(** ** The parser: its equations *)

(** [pval_parse] in terms of itself: white space is skipped; the end of
    the text gives no value; an opening parenthesis starts the list loop;
    anything else is an atom. *)
Lemma pval_parse_unfold (s : string) :
  pval_parse s
  = match skip_whitespace s with
    | EmptyString => (None, EmptyString)
    | String c rest =>
        if Ascii.eqb c "(" then parse_list rest (Some pval_list)
        else parse_atom (String c rest)
    end.
Proof.
  pose proof (pval_parse_fuel_enough (S (String.length s)) s (Nat.lt_succ_diag_r _)) as H.
  rewrite pval_parse_fuel_step in H.
  destruct (skip_whitespace s) as [|c rest]; [injection H; auto|].
  destruct (Ascii.eqb c "("); [|injection H; auto].
  apply (parse_list_items_mono _ (fun s => Some (pval_parse s)))
    with (steps2 := S (String.length rest)) in H.
  - rewrite parse_list_items_enough in H by lia. injection H; auto.
  - intros s' r' Hrun. f_equal. eapply pval_parse_fuel_sound, Hrun.
  - lia.
Qed.

(** The list loop in terms of itself. *)
Lemma parse_list_unfold (s : string) (l : option pval) :
  parse_list s l
  = match skip_whitespace s with
    | EmptyString =>
        (Some (pval_error "SyntaxError" "Unexpected EOF, expected ')'"), EmptyString)
    | String c rest =>
        if Ascii.eqb c ")" then (l, rest)
        else
          match pval_parse (String c rest) with
          | (None, cursor) =>
              (Some (pval_error "SyntaxError" "Invalid expression inside list"), cursor)
          | (Some parsed_item, cursor) =>
              if is_error parsed_item then (Some parsed_item, cursor)
              else parse_list cursor (pval_add l (Some parsed_item))
          end
    end.
Proof.
  pose proof (parse_list_items_enough (S (String.length s)) s l (Nat.lt_succ_diag_r _)) as H.
  rewrite parse_list_items_step in H.
  pose proof (suffix_length _ _ (skip_whitespace_suffix s)) as Hlen.
  destruct (skip_whitespace s) as [|c rest]; [injection H; auto|].
  destruct (Ascii.eqb c ")"); [injection H; auto|].
  destruct (pval_parse_completes _ (String c rest) (Nat.le_refl _))
    as (v & r & Hrun & _ & Hmoved).
  injection Hrun as Hrun. rewrite Hrun in *.
  destruct v as [item|]; [|injection H; auto].
  destruct (is_error item) eqn:Herr; [injection H; auto|].
  specialize (Hmoved item eq_refl Herr).
  rewrite parse_list_items_enough in H by lia. injection H; auto.
Qed.

(** ** Boolean literals *)

(** C8.  After the white space, a text that starts with the two characters
    [#t] parses to the boolean true and a text that starts with [#f] to the
    boolean false; the cursor is left right after those two characters,
    whatever follows them.  So [#true] gives true and leaves [rue]. *)
Theorem pval_parse_boolean_literal (blanks rest : string) :
  all_space blanks = true ->
  pval_parse (blanks ++ "#t" ++ rest) = (Some (PBool true), rest)
  /\ pval_parse (blanks ++ "#f" ++ rest) = (Some (PBool false), rest)
  /\ skip_whitespace (blanks ++ "#t" ++ rest) = String "#" (String "t" rest)
  /\ skip_whitespace (blanks ++ "#f" ++ rest) = String "#" (String "f" rest).
Proof.
  intros Hblanks.
  assert (Ht : skip_whitespace (blanks ++ "#t" ++ rest) = String "#" (String "t" rest))
    by (rewrite skip_whitespace_blanks by exact Hblanks; reflexivity).
  assert (Hf : skip_whitespace (blanks ++ "#f" ++ rest) = String "#" (String "f" rest))
    by (rewrite skip_whitespace_blanks by exact Hblanks; reflexivity).
  split; [rewrite pval_parse_unfold, Ht; reflexivity|].
  split; [rewrite pval_parse_unfold, Hf; reflexivity|].
  split; assumption.
Qed.

Lemma pval_parse_boolean_literal_witness :
  pval_parse ("  " ++ "#t" ++ "rue") = (Some (PBool true), "rue"%string)
  /\ pval_parse ("  " ++ "#f" ++ "rue") = (Some (PBool false), "rue"%string)
  /\ skip_whitespace ("  " ++ "#t" ++ "rue") = String "#" (String "t" "rue")
  /\ skip_whitespace ("  " ++ "#f" ++ "rue") = String "#" (String "f" "rue").
Proof.
  apply (pval_parse_boolean_literal "  " "rue"). reflexivity.
Defined.

(** ** Lists *)

Lemma pval_add_keeps_list (list_items : list pval) (list_count list_capacity : Z)
      (new_item : option pval) :
  exists items count capacity,
    pval_add (Some (PList list_items list_count list_capacity)) new_item
    = Some (PList items count capacity).
Proof.
  unfold pval_add. destruct new_item as [item|]; [|eauto].
  destruct ((list_count <? 0) || (list_capacity <=? 0)); [eauto|].
  destruct (list_count >=? list_capacity).
  - destruct (list_capacity >? C.SIZE_MAX / 2); [eauto|].
    destruct (C.realloc_succeeds _); [|eauto].
    destruct (list_count <? _); eauto.
  - destruct (list_count <? list_capacity); eauto.
Qed.

(** The list loop on a list object: the value it returns is an error or a
    list, and a list is returned with the cursor right after a closing
    parenthesis of the text. *)
Lemma parse_list_closes (n : nat) :
  forall (s : string) (list_items : list pval) (list_count list_capacity : Z),
    (String.length s < n)%nat ->
    exists v r,
      parse_list s (Some (PList list_items list_count list_capacity)) = (Some v, r)
      /\ (is_error v = false ->
          type v = PVAL_LIST /\ exists consumed, s = (consumed ++ ")" ++ r)%string).
Proof.
  induction n as [|n IH]; intros s list_items list_count list_capacity Hn; [lia|].
  rewrite parse_list_unfold.
  destruct (skip_whitespace_suffix s) as [blanks Hs].
  pose proof (suffix_length _ _ (skip_whitespace_suffix s)) as Hlen.
  destruct (skip_whitespace s) as [|c rest].
  { eexists _, _. split; [reflexivity|]. simpl. discriminate. }
  destruct (Ascii.eqb c ")") eqn:Hc.
  { apply Ascii.eqb_eq in Hc. subst c.
    eexists _, _. split; [reflexivity|]. intros _.
    split; [reflexivity|]. exists blanks. exact Hs. }
  destruct (pval_parse_completes _ (String c rest) (Nat.le_refl _))
    as (v & cursor & Hrun & [q Hq] & Hmoved).
  injection Hrun as Hrun. rewrite Hrun.
  destruct v as [item|].
  2:{ eexists _, _. split; [reflexivity|]. simpl. discriminate. }
  destruct (is_error item) eqn:Herr.
  { eexists _, _. split; [reflexivity|]. rewrite Herr. discriminate. }
  specialize (Hmoved item eq_refl Herr).
  destruct (pval_add_keeps_list list_items list_count list_capacity (Some item))
    as (items' & count' & capacity' & ->).
  destruct (IH cursor items' count' capacity') as (v & r & Hloop & Hclosed); [lia|].
  exists v, r. split; [exact Hloop|].
  intros Hv. destruct (Hclosed Hv) as [Htag [consumed Hcursor]].
  split; [exact Htag|].
  exists (blanks ++ q ++ consumed)%string.
  rewrite Hs, Hq, Hcursor. rewrite !append_assoc. reflexivity.
Qed.

(** [pval_parse] returns no value exactly when nothing but white space is
    left; the list loop, which calls it in front of another character,
    never takes its "Invalid expression inside list" exit. *)
Lemma pval_parse_null_iff (s : string) :
  fst (pval_parse s) = None <-> skip_whitespace s = EmptyString.
Proof.
  rewrite pval_parse_unfold.
  destruct (skip_whitespace s) as [|c rest]; [split; reflexivity|].
  split; [|discriminate]. destruct (Ascii.eqb c "(").
  - destruct (parse_list_closes (S (String.length rest)) rest [] 0 4
                (Nat.lt_succ_diag_r _)) as (v & r & Hloop & _).
    unfold pval_list. rewrite Hloop. discriminate.
  - destruct (parse_atom_cursor (String c rest)) as (x & r & -> & _). discriminate.
Qed.

(** ** Doubles and 32-bit integers *)

Lemma digits2_pos_bounds (p : positive) :
  2 ^ (Zpos (digits2_pos p) - 1) <= Zpos p < 2 ^ Zpos (digits2_pos p).
Proof.
  induction p as [p IH | p IH |]; cbn [digits2_pos].
  - rewrite Pos2Z.inj_succ. 
    replace (Z.succ (Z.pos (digits2_pos p)) - 1) with (Z.succ (Z.pos (digits2_pos p) - 1)) by lia.
    rewrite !Z.pow_succ_r by lia. lia.
  - rewrite Pos2Z.inj_succ. 
    replace (Z.succ (Z.pos (digits2_pos p)) - 1) with (Z.succ (Z.pos (digits2_pos p) - 1)) by lia.
    rewrite !Z.pow_succ_r by lia. lia.
  - simpl. lia.
Qed.

(* digits characterised by bounds *)
Lemma digits2_pos_unique (p : positive) (d : Z) :
  2 ^ (d - 1) <= Zpos p < 2 ^ d -> Zpos (digits2_pos p) = d.
Proof.
  intros [Hlo Hhi]. pose proof (digits2_pos_bounds p) as [Hlo' Hhi'].
  assert (0 < d) by (destruct d; [simpl in Hhi; lia | lia | simpl in Hhi; lia]).
  destruct (Z.lt_trichotomy (Zpos (digits2_pos p)) d) as [H1 | [H1 | H1]]; [|assumption|].
  - exfalso. assert (2 ^ Zpos (digits2_pos p) <= 2 ^ (d - 1)) by (apply Z.pow_le_mono_r; lia). lia.
  - exfalso. assert (2 ^ d <= 2 ^ (Zpos (digits2_pos p) - 1)) by (apply Z.pow_le_mono_r; lia). lia.
Qed.

Lemma iter_xO_value (p k : positive) : Zpos (Pos.iter xO p k) = Zpos p * 2 ^ Zpos k.
Proof.
  revert p. induction k as [|k IH] using Pos.peano_ind; intros p.
  - simpl. lia.
  - rewrite Pos.iter_succ. rewrite Pos2Z.inj_xO, IH, Pos2Z.inj_succ, Z.pow_succ_r by lia. ring.
Qed.

Lemma SFeqb_finite (s s' : bool) (m m' : positive) (e e' : Z) :
  SFeqb (S754_finite s m e) (S754_finite s' m' e') = true
  <-> s = s' /\ m = m' /\ e = e'.
Proof.
  unfold SFeqb, SFcompare. split.
  - destruct s, s'; try discriminate;
      destruct (Z.compare_spec e e') as [He | He | He]; try discriminate;
      fold (Pos.compare m m'); destruct (Pos.compare_spec m m') as [Hm | Hm | Hm];
      try discriminate; intros _; auto.
  - intros (-> & -> & ->). rewrite Z.compare_refl. fold (Pos.compare m' m').
    rewrite Pos.compare_refl. destruct s'; reflexivity.
Qed.

(** The double of a positive integer below 2^53: its canonical form. *)
Lemma binary_round_small (s : bool) (p : positive) :
  Zpos (digits2_pos p) <= 53 ->
  exists m, binary_round prec emax s p 0 = S754_finite s m (Zpos (digits2_pos p) - 53)
            /\ Zpos m = Zpos p * 2 ^ (53 - Zpos (digits2_pos p)).
Proof.
  intros Hd. unfold binary_round.
  set (d := Zpos (digits2_pos p)) in *.
  assert (Hd1 : 1 <= d) by (unfold d; lia).
  assert (Hfexp : fexp prec emax (d + 0) = d - 53).
  { unfold fexp, SpecFloat.emin, prec, emax. lia. }
  rewrite Hfexp.
  assert (Halign : exists m, shl_align p 0 (d - 53) = (m, d - 53)
                   /\ Zpos m = Zpos p * 2 ^ (53 - d)).
  { unfold shl_align. destruct (d - 53 - 0) as [|k|k] eqn:Hk.
    - exists p. replace (d - 53) with 0 by lia. split; [reflexivity|].
      replace (53 - d) with 0 by lia. simpl. lia.
    - lia.
    - exists (Pos.iter xO p k). split; [reflexivity|].
      rewrite iter_xO_value. f_equal. f_equal. lia. }
  destruct Halign as (m & -> & Hm). exists m. split; [|exact Hm].
  assert (Hdm : Zpos (digits2_pos m) = 53).
  { apply digits2_pos_unique. rewrite Hm.
    pose proof (digits2_pos_bounds p) as [Hlo Hhi]. fold d in Hlo, Hhi.
    assert (H53 : 2 ^ 53 = 2 ^ d * 2 ^ (53 - d))
      by (rewrite <- Z.pow_add_r by lia; f_equal; lia).
    assert (H52 : 2 ^ (53 - 1) = 2 ^ (d - 1) * 2 ^ (53 - d))
      by (rewrite <- Z.pow_add_r by lia; f_equal; lia).
    rewrite H53, H52.
    assert (0 < 2 ^ (53 - d)) by (apply Z.pow_pos_nonneg; lia).
    split; [apply Z.mul_le_mono_nonneg_r; lia | apply Z.mul_lt_mono_pos_r; lia]. }
  unfold binary_round_aux, shr_fexp.
  cbn [Zdigits2]. rewrite Hdm.
  replace (fexp prec emax (53 + (d - 53))) with (d - 53)
    by (unfold fexp, SpecFloat.emin, prec, emax; lia).
  replace (d - 53 - (d - 53)) with 0 by lia.
  cbn [shr shr_record_of_loc shr_m loc_of_shr_record round_nearest_even Zdigits2].
  rewrite Hdm.
  replace (fexp prec emax (53 + (d - 53))) with (d - 53)
    by (unfold fexp, SpecFloat.emin, prec, emax; lia).
  replace (d - 53 - (d - 53)) with 0 by lia.
  cbn [shr shr_record_of_loc shr_m].
  replace (d - 53 <=? emax - prec) with true; [reflexivity|].
  symmetry. apply Z.leb_le. unfold emax, prec. lia.
Qed.

Lemma digits2_pos_shift (p m : positive) (k : Z) :
  0 <= k -> Zpos m = Zpos p * 2 ^ k ->
  Zpos (digits2_pos m) = Zpos (digits2_pos p) + k.
Proof.
  intros Hk Hm. apply digits2_pos_unique. rewrite Hm.
  pose proof (digits2_pos_bounds p) as [Hlo Hhi].
  replace (Z.pos (digits2_pos p) + k - 1) with (Z.pos (digits2_pos p) - 1 + k) by lia.
  rewrite !Z.pow_add_r by lia.
  assert (0 < 2 ^ k) by (apply Z.pow_pos_nonneg; lia).
  split; [apply Z.mul_le_mono_nonneg_r; lia | apply Z.mul_lt_mono_pos_r; lia].
Qed.

Lemma digits2_pos_le (p : positive) (n : Z) :
  0 <= n -> Zpos p <= 2 ^ n -> Zpos (digits2_pos p) <= n + 1.
Proof.
  intros Hn Hp. pose proof (digits2_pos_bounds p) as [Hlo _].
  destruct (Z.le_gt_cases (Zpos (digits2_pos p)) (n + 1)) as [H | H]; [exact H|].
  exfalso. assert (2 ^ (n + 1) <= 2 ^ (Zpos (digits2_pos p) - 1))
    by (apply Z.pow_le_mono_r; lia).
  rewrite Z.pow_add_r in H0 by lia. change (2 ^ 1) with 2 in H0.
  assert (0 < 2 ^ n) by (apply Z.pow_pos_nonneg; lia). lia.
Qed.

(** [(double) z] for a non-zero [int32_t]: sign, and the magnitude in
    canonical form. *)
Lemma Prim2SF_of_int32 (s : bool) (p : positive) :
  Zpos p <= 2 ^ 31 ->
  exists m,
    Prim2SF (Double.of_int32 (cond_Zopp s (Zpos p)))
    = S754_finite s m (Zpos (digits2_pos p) - 53)
    /\ Zpos m = Zpos p * 2 ^ (53 - Zpos (digits2_pos p)).
Proof.
  intros Hp.
  pose proof (digits2_pos_le p 31 ltac:(lia) Hp) as Hd.
  destruct (binary_round_small false p ltac:(lia)) as (m & Hround & Hm).
  exists m. split; [|exact Hm].
  assert (Hpos : Prim2SF (of_uint63 (Uint63.of_Z (Zpos p))) = S754_finite false m (Zpos (digits2_pos p) - 53)).
  { rewrite of_uint63_spec, Uint63.of_Z_spec.
    rewrite Z.mod_small; [exact Hround|].
    change (2 ^ 31) with 2147483648 in Hp. change wB with 9223372036854775808. lia. }
  unfold Double.of_int32. destruct s; cbn [cond_Zopp Z.opp].
  - replace (Z.neg p <? 0) with true by reflexivity.
    rewrite FloatAxioms.opp_spec, Hpos. reflexivity.
  - replace (Z.pos p <? 0) with false by reflexivity. exact Hpos.
Qed.

Lemma Prim2SF_of_int32_zero : Prim2SF (Double.of_int32 0) = S754_zero false.
Proof. vm_compute. reflexivity. Qed.

Lemma clamp_int32_sign (s : bool) (q : positive) :
  exists p, Double.clamp_int32 (cond_Zopp s (Zpos q)) = cond_Zopp s (Zpos p)
            /\ Zpos p <= 2 ^ 31.
Proof.
  unfold Double.clamp_int32, C.INT32_MIN, C.INT32_MAX.
  change (2 ^ 31) with 2147483648.
  destruct s; cbn [cond_Zopp].
  - destruct (Z.le_gt_cases (Zpos q) 2147483648).
    + exists q. split; [|assumption]. lia.
    + exists 2147483648%positive. split; lia.
  - destruct (Z.le_gt_cases (Zpos q) 2147483647).
    + exists q. split; lia.
    + exists 2147483647%positive. split; lia.
Qed.

Lemma shiftl_neg_exact (m p : positive) (e : Z) :
  e < 0 -> Zpos m = Zpos p * 2 ^ (- e) -> Z.shiftl (Zpos m) e = Zpos p.
Proof.
  intros He Hm. rewrite <- (Z.opp_involutive e) at 1. rewrite Z.shiftl_opp_r.
  rewrite Z.shiftr_div_pow2 by lia. rewrite Hm.
  apply Z.div_mul. apply Z.pow_nonzero; lia.
Qed.

(** The test of [pval_print] on a number: it holds exactly of the numbers
    that have no fractional part and lie in the range of [int32_t]. *)
Lemma print_test_spec (x : float) :
  (x =? Double.of_int32 (Double.to_int32 x))%float
  = Double.is_integral x && Double.fits_int32 x.
Proof.
  rewrite FloatAxioms.eqb_spec.
  unfold Double.to_int32, Double.is_integral, Double.fits_int32.
  pose proof (Prim2SF_valid x) as Hvalid.
  destruct (Prim2SF x) as [s | s | | s m e].
  - rewrite Prim2SF_of_int32_zero. reflexivity.
  - destruct s.
    + destruct (Prim2SF_of_int32 true 2147483648 ltac:(change (2^31) with 2147483648; lia)) as (m & Hm & _).
      change (cond_Zopp true 2147483648) with C.INT32_MIN in Hm. rewrite Hm. reflexivity.
    + destruct (Prim2SF_of_int32 false 2147483647 ltac:(change (2^31) with 2147483648; lia)) as (m & Hm & _).
      change (cond_Zopp false 2147483647) with C.INT32_MAX in Hm. rewrite Hm. reflexivity.
  - reflexivity.
  - cbn [valid_binary] in Hvalid. unfold bounded, canonical_mantissa in Hvalid.
    apply andb_true_iff in Hvalid. destruct Hvalid as [Hcanon Hemax].
    apply Z.eqb_eq in Hcanon. apply Z.leb_le in Hemax.
    assert (Ht0 : 0 <= Z.shiftl (Zpos m) e) by (apply Z.shiftl_nonneg; lia).
    destruct (Z.shiftl (Zpos m) e) as [|q|q] eqn:Hshift; [| |lia].
    + (* the magnitude is below one *)
      replace (cond_Zopp s 0) with 0 by (destruct s; reflexivity).
      change (Double.clamp_int32 0) with 0. rewrite Prim2SF_of_int32_zero.
      assert (He : e < 0).
      { destruct (Z.lt_ge_cases e 0) as [H | H]; [exact H|]. exfalso.
        rewrite Z.shiftl_mul_pow2 in Hshift by lia.
        assert (0 < 2 ^ e) by (apply Z.pow_pos_nonneg; lia). nia. }
      replace (0 <=? e) with false by (symmetry; apply Z.leb_gt; exact He).
      assert (Hsmall : Zpos m < 2 ^ (- e)).
      { rewrite <- (Z.opp_involutive e) in Hshift at 1.
        rewrite Z.shiftl_opp_r, Z.shiftr_div_pow2 in Hshift by lia.
        apply Z.div_small_iff in Hshift; [|apply Z.pow_nonzero; lia]. lia. }
      rewrite Z.mod_small by lia.
      replace (Z.pos m =? 0) with false by (symmetry; apply Z.eqb_neq; lia).
      destruct s; reflexivity.
    + destruct (clamp_int32_sign s q) as (p & Hclamp & Hp).
      rewrite Hclamp.
      destruct (Prim2SF_of_int32 s p Hp) as (m' & -> & Hm').
      pose proof (digits2_pos_le p 31 ltac:(lia) Hp) as Hd.
      set (d := Zpos (digits2_pos p)) in *.
      destruct (SFeqb (S754_finite s m e) (S754_finite s m' (d - 53))) eqn:Heq.
      * apply SFeqb_finite in Heq. destruct Heq as (_ & <- & He).
        assert (Hneg : e < 0) by lia.
        replace (53 - d) with (- e) in Hm' by lia.
        assert (Hq : Zpos q = Zpos p)
          by (rewrite <- Hshift; apply shiftl_neg_exact; assumption).
        injection Hq as Hq. subst q.
        symmetry. apply andb_true_iff. split.
        -- apply orb_true_iff. right. apply Z.eqb_eq. rewrite Hm'.
           apply Z.mod_mul. apply Z.pow_nonzero; lia.
        -- unfold Double.clamp_int32, C.INT32_MIN, C.INT32_MAX in *.
           change (2 ^ 31) with 2147483648 in *.
           apply andb_true_iff. split; apply Z.leb_le; lia.
      * symmetry. apply not_true_is_false. intros Hboth.
        apply andb_true_iff in Hboth. destruct Hboth as [Hint Hfits].
        apply andb_true_iff in Hfits. destruct Hfits as [Hlo Hhi].
        apply Z.leb_le in Hlo, Hhi.
        assert (Hpq : p = q).
        { unfold Double.clamp_int32 in Hclamp.
          assert (cond_Zopp s (Zpos q) = cond_Zopp s (Zpos p)) as Hsame by lia.
          destruct s; cbn [cond_Zopp] in Hsame; lia. }
        subst q.
        assert (Hfalse : SFeqb (S754_finite s m e) (S754_finite s m' (d - 53)) = true);
          [|congruence].
        apply SFeqb_finite. split; [reflexivity|].
        assert (Hneg : e < 0).
        { destruct (Z.lt_ge_cases e 0) as [H | H]; [exact H|]. exfalso.
          (* a non-negative exponent: the magnitude is at least 2^52 *)
          assert (Hval : Zpos p = Zpos m * 2 ^ e)
            by (rewrite <- Hshift; apply Z.shiftl_mul_pow2; lia).
          pose proof (digits2_pos_shift m p e H Hval) as Hdig. fold d in Hdig.
          rewrite <- Hdig in Hcanon.
          unfold fexp, SpecFloat.emin, prec, emax in Hcanon. lia. }
        replace (0 <=? e) with false in Hint by (symmetry; apply Z.leb_gt; exact Hneg).
        cbn [orb] in Hint. apply Z.eqb_eq in Hint.
        assert (Hval : Zpos m = Zpos p * 2 ^ (- e)).
        { rewrite <- Hshift, <- Z.shiftr_opp_r, Z.shiftr_div_pow2 by lia.
          apply Z.div_exact in Hint; [|apply Z.pow_nonzero; lia]. lia. }
        pose proof (digits2_pos_shift p m (- e) ltac:(lia) Hval) as Hdig. fold d in Hdig.
        rewrite Hdig in Hcanon.
        unfold fexp, SpecFloat.emin, prec, emax in Hcanon.
        assert (He : e = d - 53) by lia.
        split; [|exact He].
        apply Pos2Z.inj. rewrite Hval, Hm'. f_equal. f_equal. lia.
Qed.

(** No [int32_t] converts to a number that has a fractional part or lies
    outside the range of [int32_t]: whatever integer a conversion that ISO
    C leaves undefined produces, the test of [pval_print] fails on such a
    number. *)
Lemma of_int32_eqb_integral (x : float) (z : Z) :
  C.INT32_MIN <= z <= C.INT32_MAX ->
  (x =? Double.of_int32 z)%float = true ->
  Double.is_integral x && Double.fits_int32 x = true.
Proof.
  unfold C.INT32_MIN, C.INT32_MAX. change (2 ^ 31) with 2147483648.
  intros Hz. rewrite FloatAxioms.eqb_spec.
  unfold Double.is_integral, Double.fits_int32.
  assert (Hcase : z = 0 \/ exists s p, z = cond_Zopp s (Zpos p) /\ Zpos p <= 2 ^ 31).
  { change (2 ^ 31) with 2147483648.
    destruct z as [|p|p]; [left; reflexivity| |].
    - right. exists false, p. split; [reflexivity | lia].
    - right. exists true, p. split; [reflexivity | lia]. }
  destruct Hcase as [-> | (s' & p & -> & Hp)].
  - rewrite Prim2SF_of_int32_zero.
    destruct (Prim2SF x) as [s | s | | s m e]; try reflexivity;
      try (destruct s; discriminate); discriminate.
  - destruct (Prim2SF_of_int32 s' p Hp) as (m' & -> & Hm').
    pose proof (digits2_pos_le p 31 ltac:(lia) Hp) as Hd.
    destruct (Prim2SF x) as [s | s | | s m e];
      try (destruct s, s'; discriminate); try discriminate.
    intros Heq. apply SFeqb_finite in Heq. destruct Heq as (-> & -> & ->).
    set (d := Zpos (digits2_pos p)) in *.
    replace (53 - d) with (- (d - 53)) in Hm' by lia.
    rewrite (shiftl_neg_exact m' p (d - 53)) by (lia || exact Hm').
    apply andb_true_iff. split.
    + apply orb_true_iff. right. apply Z.eqb_eq. rewrite Hm'.
      apply Z.mod_mul. apply Z.pow_nonzero; lia.
    + unfold C.INT32_MIN, C.INT32_MAX. change (2 ^ 31) with 2147483648.
      apply andb_true_iff. split; apply Z.leb_le; lia.
Qed.

(** ** Printing a number *)

Lemma has_point_append (a b : string) :
  has_point (a ++ b) = has_point a || has_point b.
Proof.
  induction a as [|c a IH]; simpl; [reflexivity|].
  rewrite IH. apply orb_assoc.
Qed.

Lemma string_of_uint_no_point (d : Decimal.uint) :
  has_point (NilEmpty.string_of_uint d) = false.
Proof.
  induction d; simpl; auto.
Qed.

(** The text of [%d] has no decimal point. *)
Lemma printf_d_no_point (z : Z) : has_point (Double.printf_d z) = false.
Proof.
  unfold Double.printf_d, NilZero.string_of_int.
  assert (Huint : forall d, has_point (NilZero.string_of_uint d) = false).
  { intros d. unfold NilZero.string_of_uint.
    destruct d; try apply string_of_uint_no_point. reflexivity. }
  destruct (Z.to_int z) as [d | d]; [apply Huint|].
  cbn [has_point]. rewrite Huint. reflexivity.
Qed.

Lemma digit_isdigit (n : Z) : 0 <= n < 10 -> C.isdigit (Double.digit n) = true.
Proof.
  intros H. unfold Double.digit.
  destruct (Z.to_nat n) as [|[|[|[|[|[|[|[|[|[|k]]]]]]]]]] eqn:Hk;
    try reflexivity.
  lia.
Qed.

(** The text of [%.3f] for a finite number ends with a point and three
    digits. *)
Lemma printf_3f_three_decimals (x : float) :
  Double.finite x = true -> three_decimals (Double.printf_3f x).
Proof.
  unfold Double.finite, Double.printf_3f, three_decimals.
  destruct (Prim2SF x) as [s | s | | s m e]; try discriminate; intros _.
  - exists (Double.sign_text s ++ "0")%string, "0"%char, "0"%char, "0"%char.
    split; [destruct s; reflexivity|].
    split; [destruct s; reflexivity|]. repeat split.
  - set (q := Double.thousandths m e).
    exists (Double.sign_text s ++ Double.printf_d (q / 1000))%string,
      (Double.digit (q mod 1000 / 100 mod 10)),
      (Double.digit (q mod 1000 / 10 mod 10)),
      (Double.digit (q mod 1000 mod 10)).
    split; [rewrite append_assoc; reflexivity|].
    split.
    { rewrite has_point_append, printf_d_no_point. destruct s; reflexivity. }
    repeat split; apply digit_isdigit; apply Z.mod_pos_bound; lia.
Qed.

(** C3, the claim as stated fails: 2147483648 has no fractional part and
    is printed with three decimals, being outside the range of the
    [int32_t] the test of [pval_print] converts it to. *)
Lemma pval_print_large_integer :
  Double.is_integral 2147483648 = true
  /\ pval_print (PNumber 2147483648) = "2147483648.000"%string.
Proof.
  split; vm_compute; reflexivity.
Qed.

(** C3, amended.  A finite number is printed by [%d] when it has no
    fractional part and lies in the range of a 32-bit signed integer, and
    by [%.3f] otherwise.  So it is printed as an integer, without decimal
    point, exactly when it has no fractional part and lies in that range,
    the integer printed being its value; any other finite number is
    printed with three decimal digits.  No 32-bit integer equals a number
    of the second kind, so this does not depend on what the conversion of
    a number out of range yields. *)
Theorem pval_print_number :
  (forall number,
      Double.finite number = true ->
      pval_print (PNumber number)
      = if Double.is_integral number && Double.fits_int32 number
        then Double.printf_d (Double.to_int32 number)
        else Double.printf_3f number)
  /\ (forall number,
        Double.is_integral number && Double.fits_int32 number = true ->
        has_point (pval_print (PNumber number)) = false
        /\ (number =? Double.of_int32 (Double.to_int32 number))%float = true)
  /\ (forall number,
        Double.is_integral number && Double.fits_int32 number = false ->
        Double.finite number = true ->
        three_decimals (pval_print (PNumber number)))
  /\ (forall number z,
        C.INT32_MIN <= z <= C.INT32_MAX ->
        (number =? Double.of_int32 z)%float = true ->
        Double.is_integral number && Double.fits_int32 number = true).
Proof.
  assert (Hprint : forall number,
      pval_print (PNumber number)
      = if Double.is_integral number && Double.fits_int32 number
        then Double.printf_d (Double.to_int32 number)
        else Double.printf_3f number).
  { intros number. cbn [pval_print]. unfold print_number.
    rewrite print_test_spec. reflexivity. }
  split; [intros number _; apply Hprint|].
  split.
  { intros number Htest. rewrite Hprint, print_test_spec, Htest.
    split; [apply printf_d_no_point | reflexivity]. }
  split.
  { intros number Htest Hfinite. rewrite Hprint, Htest.
    apply printf_3f_three_decimals, Hfinite. }
  exact of_int32_eqb_integral.
Qed.

Lemma pval_print_number_witness :
  pval_print (PNumber 2.5)
  = (if Double.is_integral 2.5 && Double.fits_int32 2.5
     then Double.printf_d (Double.to_int32 2.5)
     else Double.printf_3f 2.5)
  /\ (has_point (pval_print (PNumber 5)) = false
      /\ (5 =? Double.of_int32 (Double.to_int32 5))%float = true)
  /\ three_decimals (pval_print (PNumber 2.5)).
Proof.
  destruct pval_print_number as (Hformat & Hinteger & Hdecimal & _).
  split; [apply Hformat; vm_compute; reflexivity|].
  split.
  - apply Hinteger. vm_compute. reflexivity.
  - apply Hdecimal; vm_compute; reflexivity.
Defined.

(** ** Well-formed values *)

Lemma pval_wf_list (list_items : list pval) (list_count list_capacity : Z) :
  pval_wf (PList list_items list_count list_capacity) = true
  <-> count_matches list_items list_count
      /\ 0 < list_capacity <= C.INT32_MAX
      /\ list_count <= list_capacity
      /\ forallb pval_wf list_items = true.
Proof.
  cbn [pval_wf]. unfold count_matches.
  rewrite !andb_true_iff, Z.eqb_eq, Z.ltb_lt, !Z.leb_le. tauto.
Qed.

(** [pval_add] of a well-formed item to a well-formed list leaves a
    well-formed list. *)
Lemma pval_add_wf (list_items : list pval) (list_count list_capacity : Z) (item : pval) :
  pval_wf (PList list_items list_count list_capacity) = true ->
  pval_wf item = true ->
  exists items count capacity,
    pval_add (Some (PList list_items list_count list_capacity)) (Some item)
    = Some (PList items count capacity)
    /\ pval_wf (PList items count capacity) = true.
Proof.
  intros Hlist Hitem. pose proof Hlist as Hwf.
  apply pval_wf_list in Hwf. destruct Hwf as (Hrep & Hcap & Hcount & Hitems).
  assert (Hnonneg : 0 <= list_count) by (unfold count_matches in Hrep; lia).
  destruct (Z.lt_ge_cases list_count list_capacity) as [Hroom | Hfull].
  - rewrite pval_add_appends by (try assumption; lia).
    replace (list_count <? list_capacity) with true by (symmetry; apply Z.ltb_lt, Hroom).
    eexists _, _, _. split; [reflexivity|]. apply pval_wf_list.
    unfold count_matches in *. rewrite length_app, forallb_app, Hitems. cbn [length forallb].
    rewrite Hitem. repeat split; try reflexivity; lia.
  - destruct (Z.le_gt_cases list_capacity (C.INT32_MAX / 2)) as [Hsmall | Hbig].
    + rewrite pval_add_appends by (try assumption; try lia; right; exact Hsmall).
      replace (list_count <? list_capacity) with false by (symmetry; apply Z.ltb_ge, Hfull).
      eexists _, _, _. split; [reflexivity|]. apply pval_wf_list.
      unfold count_matches in *. rewrite length_app, forallb_app, Hitems. cbn [length forallb].
      rewrite Hitem. unfold C.INT32_MAX in *.
      change ((2 ^ 31 - 1) / 2) with 1073741823 in Hsmall.
      change (2 ^ 31 - 1) with 2147483647 in *.
      repeat split; try reflexivity; lia.
    + rewrite pval_add_overflow; [| lia | right; split; [exact Hbig | lia]].
      eexists _, _, _. split; [reflexivity | exact Hlist].
Qed.

(** The list loop keeps the list well formed when the elements it parses
    are. *)
Lemma parse_list_wf (bound : nat) :
  (forall s v r, (String.length s <= bound)%nat ->
     pval_parse s = (Some v, r) -> pval_wf v = true) ->
  forall (n : nat) (s : string) (list_items : list pval) (list_count list_capacity : Z)
         (v : pval) (r : string),
    (String.length s < n)%nat -> (String.length s <= bound)%nat ->
    pval_wf (PList list_items list_count list_capacity) = true ->
    parse_list s (Some (PList list_items list_count list_capacity)) = (Some v, r) ->
    pval_wf v = true.
Proof.
  intros Hparse. induction n as [|n IH];
    intros s list_items list_count list_capacity v r Hn Hbound Hlist; [lia|].
  rewrite parse_list_unfold.
  pose proof (suffix_length _ _ (skip_whitespace_suffix s)) as Hlen.
  destruct (skip_whitespace s) as [|c rest].
  { intros H; injection H as <- _. reflexivity. }
  destruct (Ascii.eqb c ")").
  { intros H; injection H as <- _. exact Hlist. }
  destruct (pval_parse_completes _ (String c rest) (Nat.le_refl _))
    as (x & cursor & Hrun & Hcursor & Hmoved).
  injection Hrun as Hrun. rewrite Hrun.
  destruct x as [item|]; [|intros H; injection H as <- _; reflexivity].
  destruct (is_error item) eqn:Herr.
  { intros H; injection H as <- _. destruct item; try discriminate Herr. reflexivity. }
  specialize (Hmoved item eq_refl Herr).
  assert (Hitem : pval_wf item = true) by (eapply (Hparse (String c rest)); [lia | exact Hrun]).
  destruct (pval_add_wf _ _ _ item Hlist Hitem) as (items' & count' & capacity' & -> & Hwf').
  apply (IH cursor items' count' capacity'); [lia | lia | exact Hwf'].
Qed.

(** Every value the parser returns is well formed. *)
Lemma pval_parse_wf (s : string) (v : pval) (r : string) :
  pval_parse s = (Some v, r) -> pval_wf v = true.
Proof.
  remember (String.length s) as n eqn:Hn.
  assert (Hle : (String.length s <= n)%nat) by lia. clear Hn.
  revert s v r Hle. induction n as [|n IH]; intros s v r Hle.
  - destruct s; [|simpl in Hle; lia]. rewrite pval_parse_unfold. discriminate.
  - rewrite pval_parse_unfold.
    pose proof (suffix_length _ _ (skip_whitespace_suffix s)) as Hlen.
    destruct (skip_whitespace s) as [|c rest]; [discriminate|].
    destruct (Ascii.eqb c "(").
    + unfold pval_list.
      apply (parse_list_wf n IH (S (String.length rest)) rest [] 0 4 v r);
        [lia | simpl in Hlen; lia | reflexivity].
    + destruct (parse_atom_cursor (String c rest)) as (x & cursor & Hatom & _).
      rewrite Hatom. intros H; injection H as <- _.
      revert Hatom. unfold parse_atom.
      destruct (starts_number (String c rest)).
      { destruct (Strtod.strtod (String c rest)) as [parsed_num end_ptr].
        destruct (String.length end_ptr =? String.length (String c rest))%nat;
          intros H; injection H as <- _; reflexivity. }
      destruct (starts_with2 (String c rest) "#" "t");
        [intros H; injection H as <- _; reflexivity|].
      destruct (starts_with2 (String c rest) "#" "f");
        [intros H; injection H as <- _; reflexivity|].
      destruct (read_symbol (String c rest) 0) as [[[|a text]|] cur];
        intros H; injection H as <- _; reflexivity.
Qed.

(** * Further properties *)

(** ** Appending keeps a list well formed *)

(** X1.  Appending a well-formed item to a well-formed list leaves a
    well-formed list: the count is the number of elements and within a
    positive capacity.  The append either adds the item at the end, the
    count growing by one and the capacity staying or doubling, or changes
    nothing; it changes nothing only when the list is full with a capacity
    above 2^30 - 1. *)
Theorem pval_add_invariant (list_items : list pval) (list_count list_capacity : Z)
        (item : pval) :
  pval_wf (PList list_items list_count list_capacity) = true ->
  pval_wf item = true ->
  exists items count capacity,
    pval_add (Some (PList list_items list_count list_capacity)) (Some item)
    = Some (PList items count capacity)
    /\ pval_wf (PList items count capacity) = true
    /\ ((items = list_items ++ [item] /\ count = list_count + 1
         /\ (capacity = list_capacity \/ capacity = 2 * list_capacity))
        \/ (items = list_items /\ count = list_count /\ capacity = list_capacity
            /\ list_count = list_capacity /\ C.INT32_MAX / 2 < list_capacity)).
Proof.
  intros Hlist Hitem.
  destruct (pval_add_wf _ _ _ item Hlist Hitem) as (items & count & capacity & Hadd & Hwf).
  exists items, count, capacity. split; [exact Hadd|]. split; [exact Hwf|].
  apply pval_wf_list in Hlist. destruct Hlist as (Hrep & Hcap & Hcount & _).
  assert (Hnonneg : 0 <= list_count) by (unfold count_matches in Hrep; lia).
  destruct (Z.lt_ge_cases list_count list_capacity) as [Hroom | Hfull].
  - rewrite pval_add_appends in Hadd by (try assumption; lia).
    replace (list_count <? list_capacity) with true in Hadd
      by (symmetry; apply Z.ltb_lt, Hroom).
    injection Hadd as <- <- <-. left. auto.
  - destruct (Z.le_gt_cases list_capacity (C.INT32_MAX / 2)) as [Hsmall | Hbig].
    + rewrite pval_add_appends in Hadd by (try assumption; try lia; right; exact Hsmall).
      replace (list_count <? list_capacity) with false in Hadd
        by (symmetry; apply Z.ltb_ge, Hfull).
      injection Hadd as <- <- <-. left. repeat split; try reflexivity. right. lia.
    + rewrite pval_add_overflow in Hadd; [| lia | right; split; [exact Hbig | lia]].
      injection Hadd as <- <- <-. right. repeat split; try reflexivity; lia.
Qed.

Lemma pval_add_invariant_witness :
  exists items count capacity,
    pval_add (Some (PList [PNumber 1; PNumber 2; PNumber 3; PNumber 4] 4 4))
      (Some (PSymbol "x"))
    = Some (PList items count capacity)
    /\ pval_wf (PList items count capacity) = true
    /\ ((items = [PNumber 1; PNumber 2; PNumber 3; PNumber 4] ++ [PSymbol "x"]
         /\ count = 4 + 1 /\ (capacity = 4 \/ capacity = 2 * 4))
        \/ (items = [PNumber 1; PNumber 2; PNumber 3; PNumber 4] /\ count = 4
            /\ capacity = 4 /\ 4 = 4 /\ C.INT32_MAX / 2 < 4)).
Proof.
  apply (pval_add_invariant [PNumber 1; PNumber 2; PNumber 3; PNumber 4] 4 4
           (PSymbol "x")); reflexivity.
Defined.

(** ** What the parser returns *)

(** A property of every value the parser returns: it is enough that it
    holds of the atoms and of the two errors of the list loop, and that an
    append keeps it. *)
Lemma pval_parse_result_ind (P : pval -> Prop) :
  (forall s x r, parse_atom s = (Some x, r) -> P x) ->
  P (PError "SyntaxError" "Unexpected EOF, expected ')'") ->
  P (PError "SyntaxError" "Invalid expression inside list") ->
  P pval_list ->
  (forall list_items list_count list_capacity item items count capacity,
      P (PList list_items list_count list_capacity) -> P item ->
      is_error item = false ->
      pval_add (Some (PList list_items list_count list_capacity)) (Some item)
      = Some (PList items count capacity) ->
      P (PList items count capacity)) ->
  forall s v r, pval_parse s = (Some v, r) -> P v.
Proof.
  intros Hatom Heof Hinvalid Hempty Hadd.
  assert (Hloop : forall bound,
    (forall s v r, (String.length s <= bound)%nat -> pval_parse s = (Some v, r) -> P v) ->
    forall n s list_items list_count list_capacity v r,
      (String.length s < n)%nat -> (String.length s <= bound)%nat ->
      P (PList list_items list_count list_capacity) ->
      parse_list s (Some (PList list_items list_count list_capacity)) = (Some v, r) ->
      P v).
  { intros bound Hparse. induction n as [|n IH];
      intros s list_items list_count list_capacity v r Hn Hbound Hlist; [lia|].
    rewrite parse_list_unfold.
    pose proof (suffix_length _ _ (skip_whitespace_suffix s)) as Hlen.
    destruct (skip_whitespace s) as [|c rest].
    { intros H; injection H as <- _. exact Heof. }
    destruct (Ascii.eqb c ")").
    { intros H; injection H as <- _. exact Hlist. }
    destruct (pval_parse_completes _ (String c rest) (Nat.le_refl _))
      as (x & cursor & Hrun & Hcursor & Hmoved).
    injection Hrun as Hrun. rewrite Hrun.
    destruct x as [item|]; [|intros H; injection H as <- _; exact Hinvalid].
    assert (Hitem : P item) by (eapply (Hparse (String c rest)); [lia | exact Hrun]).
    destruct (is_error item) eqn:Herr.
    { intros H; injection H as <- _. exact Hitem. }
    specialize (Hmoved item eq_refl Herr).
    destruct (pval_add_keeps_list list_items list_count list_capacity (Some item))
      as (items' & count' & capacity' & Hstep).
    rewrite Hstep.
    apply (IH cursor items' count' capacity'); [lia | lia |].
    eapply Hadd; eassumption. }
  intros s. remember (String.length s) as n eqn:Hn.
  assert (Hle : (String.length s <= n)%nat) by lia. clear Hn.
  revert s Hle. induction n as [|n IH]; intros s Hle v r.
  - destruct s; [|simpl in Hle; lia]. rewrite pval_parse_unfold. discriminate.
  - rewrite pval_parse_unfold.
    pose proof (suffix_length _ _ (skip_whitespace_suffix s)) as Hlen.
    destruct (skip_whitespace s) as [|c rest]; [discriminate|].
    destruct (Ascii.eqb c "(").
    + unfold pval_list in *.
      apply (Hloop n (fun s' v' r' Hs' => IH s' Hs' v' r')
               (S (String.length rest)) rest [] 0 4 v r);
        [lia | simpl in Hlen; lia | exact Hempty].
    + destruct (parse_atom (String c rest)) as [x cursor] eqn:Hrun.
      intros H; injection H as -> ->. eapply Hatom, Hrun.
Qed.

(** The items of a list after an append: the ones before, alone or
    followed by the new one. *)
Lemma pval_add_items (list_items : list pval) (list_count list_capacity : Z)
      (item : pval) (items : list pval) (count capacity : Z) :
  pval_add (Some (PList list_items list_count list_capacity)) (Some item)
  = Some (PList items count capacity) ->
  items = list_items \/ items = store_slot list_items list_count item.
Proof.
  unfold pval_add.
  destruct ((list_count <? 0) || (list_capacity <=? 0));
    [intros H; injection H as <- _ _; auto|].
  destruct (list_count >=? list_capacity).
  - destruct (list_capacity >? C.SIZE_MAX / 2); [intros H; injection H as <- _ _; auto|].
    destruct (C.realloc_succeeds _); [|intros H; injection H as <- _ _; auto].
    destruct (list_count <? _); intros H; injection H as <- _ _; auto.
  - destruct (list_count <? list_capacity); intros H; injection H as <- _ _; auto.
Qed.

(** X2.  What the parser returns is data or a SyntaxError: a value made
    of numbers, booleans, symbols and lists of such, with no function and
    no error inside, or else an error whose kind is SyntaxError. *)
Theorem pval_parse_data_or_syntax_error (s : string) (v : pval) (r : string) :
  pval_parse s = (Some v, r) ->
  is_data v = true \/ error_kind v = Some "SyntaxError"%string.
Proof.
  revert s v r.
  apply (pval_parse_result_ind
           (fun v => is_data v = true \/ error_kind v = Some "SyntaxError"%string)).
  - intros s x r. unfold parse_atom.
    destruct (starts_number s).
    { destruct (Strtod.strtod s) as [parsed_num end_ptr].
      destruct (String.length end_ptr =? String.length s)%nat;
        intros H; injection H as <- _; [right | left]; reflexivity. }
    destruct (starts_with2 s "#" "t"); [intros H; injection H as <- _; left; reflexivity|].
    destruct (starts_with2 s "#" "f"); [intros H; injection H as <- _; left; reflexivity|].
    destruct (read_symbol s 0) as [[[|a text]|] cur];
      intros H; injection H as <- _; (left; reflexivity) || (right; reflexivity).
  - right; reflexivity.
  - right; reflexivity.
  - left; reflexivity.
  - intros list_items list_count list_capacity item items count capacity
           [Hlist | Hlist] [Hitem | Hitem] Herr Hadd; try discriminate Hlist.
    + left. cbn [is_data] in *.
      destruct (pval_add_items _ _ _ _ _ _ _ Hadd) as [-> | ->]; [exact Hlist|].
      unfold store_slot. rewrite forallb_app. cbn [forallb]. rewrite Hitem.
      rewrite andb_true_r.
      rewrite <- (firstn_skipn (Z.to_nat list_count) list_items), forallb_app in Hlist.
      apply andb_true_iff in Hlist. apply Hlist.
    + destruct item; try discriminate Hitem. discriminate Herr.
Qed.

Lemma pval_parse_data_or_syntax_error_witness :
  is_data (PList [PSymbol "a"; PList [PNumber 1] 1 4] 2 4) = true
  \/ error_kind (PList [PSymbol "a"; PList [PNumber 1] 1 4] 2 4)
     = Some "SyntaxError"%string.
Proof.
  apply (pval_parse_data_or_syntax_error "(a (1)) b" _ " b").
  vm_compute. reflexivity.
Defined.

(** X3.  The parser leaves the cursor at a position of the text it was
    given, and past at least one character whenever it returns a value
    that is not an error; it returns no value exactly when nothing but
    white space was left. *)
Theorem pval_parse_cursor (s : string) :
  suffix (snd (pval_parse s)) s
  /\ (forall v, fst (pval_parse s) = Some v -> is_error v = false ->
        (String.length (snd (pval_parse s)) < String.length s)%nat)
  /\ (fst (pval_parse s) = None <-> skip_whitespace s = EmptyString).
Proof.
  destruct (pval_parse_completes _ s (Nat.le_refl _)) as (v & r & Hrun & Hr & Hmoved).
  injection Hrun as Hrun. rewrite Hrun. cbn [fst snd].
  split; [exact Hr|]. split; [exact Hmoved|].
  pose proof (pval_parse_null_iff s) as Hnull. rewrite Hrun in Hnull. exact Hnull.
Qed.

Lemma pval_parse_cursor_witness :
  suffix (snd (pval_parse " (a) b")) " (a) b"
  /\ (String.length (snd (pval_parse " (a) b")) < String.length " (a) b")%nat.
Proof.
  destruct (pval_parse_cursor " (a) b") as (Hsuffix & Hmoved & _).
  split; [exact Hsuffix|].
  apply (Hmoved (PList [PSymbol "a"] 1 4)); vm_compute; reflexivity.
Defined.

(** X4.  Every value the parser returns is well formed: in each list of
    it the count is the number of elements, within a positive capacity. *)
Theorem pval_parse_well_formed (s : string) (v : pval) (r : string) :
  pval_parse s = (Some v, r) -> pval_wf v = true.
Proof.
  revert s v r. apply (pval_parse_result_ind (fun v => pval_wf v = true)).
  - intros s x r. unfold parse_atom.
    destruct (starts_number s).
    { destruct (Strtod.strtod s) as [parsed_num end_ptr].
      destruct (String.length end_ptr =? String.length s)%nat;
        intros H; injection H as <- _; reflexivity. }
    destruct (starts_with2 s "#" "t"); [intros H; injection H as <- _; reflexivity|].
    destruct (starts_with2 s "#" "f"); [intros H; injection H as <- _; reflexivity|].
    destruct (read_symbol s 0) as [[[|a text]|] cur];
      intros H; injection H as <- _; reflexivity.
  - reflexivity.
  - reflexivity.
  - reflexivity.
  - intros list_items list_count list_capacity item items count capacity
           Hlist Hitem _ Hadd.
    destruct (pval_add_wf _ _ _ item Hlist Hitem) as (i' & c' & k' & Hadd' & Hwf).
    rewrite Hadd in Hadd'. injection Hadd' as -> -> ->. exact Hwf.
Qed.

Lemma pval_parse_well_formed_witness :
  pval_wf (PList [PNumber 1; PNumber 2; PNumber 3; PNumber 4; PNumber 5] 5 8) = true.
Proof.
  apply (pval_parse_well_formed "(1 2 3 4 5)" _ "").
  vm_compute. reflexivity.
Defined.

(** ** Symbols *)

Lemma read_symbol_token (s : string) (i : Z) (t r : string) :
  read_symbol s i = (Some t, r) ->
  s = (t ++ r)%string /\ no_delimiter t = true /\ ends_token r = true
  /\ (t <> EmptyString -> i + Z.of_nat (String.length t) <= 255).
Proof.
  revert i t r. induction s as [|c rest IH]; intros i t r; cbn [read_symbol].
  - intros H; injection H as <- <-. repeat split. intros H; contradiction.
  - destruct (is_delimiter c) eqn:Hc.
    { intros H; injection H as <- <-. repeat split.
      - exact Hc.
      - intros H; contradiction. }
    destruct (i >=? 256 - 1) eqn:Hi; [discriminate|].
    destruct (read_symbol rest (i + 1)) as [[text|] cursor] eqn:Hrest; [|discriminate].
    intros H; injection H as <- <-.
    destruct (IH _ _ _ Hrest) as (-> & Hplain & Hend & Hlen).
    split; [reflexivity|]. split; [cbn [no_delimiter]; rewrite Hc; exact Hplain|].
    split; [exact Hend|]. intros _.
    rewrite Z.geb_leb in Hi. apply Z.leb_gt in Hi.
    destruct text as [|a text]; [simpl; lia|].
    specialize (Hlen ltac:(discriminate)). cbn [String.length] in *. lia.
Qed.

Lemma read_symbol_fits (t r : string) (i : Z) :
  no_delimiter t = true -> ends_token r = true ->
  i + Z.of_nat (String.length t) <= 255 ->
  read_symbol (t ++ r) i = (Some t, r).
Proof.
  revert i. induction t as [|c t IH]; intros i Hplain Hend Hlen.
  - destruct r as [|c r]; [reflexivity|]. cbn [append read_symbol].
    cbn [ends_token] in Hend. rewrite Hend. reflexivity.
  - cbn [no_delimiter] in Hplain. apply andb_true_iff in Hplain.
    destruct Hplain as [Hc Hplain]. apply negb_true_iff in Hc.
    cbn [append read_symbol]. rewrite Hc.
    cbn [String.length] in Hlen.
    replace (i >=? 256 - 1) with false
      by (symmetry; rewrite Z.geb_leb; apply Z.leb_gt; lia).
    rewrite (IH (i + 1)) by (try assumption; lia). reflexivity.
Qed.

Lemma read_symbol_full (a b : string) (i : Z) :
  no_delimiter a = true -> ends_token b = false ->
  i + Z.of_nat (String.length a) = 255 ->
  read_symbol (a ++ b) i = (None, b).
Proof.
  revert i. induction a as [|c a IH]; intros i Hplain Hend Hlen.
  - destruct b as [|c b]; [discriminate|]. cbn [append read_symbol].
    cbn [ends_token] in Hend. rewrite Hend.
    replace (i >=? 256 - 1) with true
      by (symmetry; apply Z.geb_le; simpl in Hlen; lia).
    reflexivity.
  - cbn [no_delimiter] in Hplain. apply andb_true_iff in Hplain.
    destruct Hplain as [Hc Hplain]. apply negb_true_iff in Hc.
    cbn [append read_symbol]. rewrite Hc.
    cbn [String.length] in Hlen.
    replace (i >=? 256 - 1) with false
      by (symmetry; rewrite Z.geb_leb; apply Z.leb_gt; lia).
    rewrite (IH (i + 1)) by (try assumption; lia). reflexivity.
Qed.

Lemma delimiter_not_digit (c : ascii) : is_delimiter c = true -> C.isdigit c = false.
Proof.
  unfold is_delimiter, C.isdigit, C.isspace. intros H.
  apply orb_true_iff in H. destruct H as [H | H].
  - apply orb_true_iff in H. destruct H as [H | H].
    + apply orb_true_iff in H. apply andb_false_iff.
      destruct H as [H | H].
      * apply Z.eqb_eq in H. left. apply Z.leb_gt. lia.
      * apply andb_true_iff in H. destruct H as [_ H]. apply Z.leb_le in H.
        left. apply Z.leb_gt. lia.
    + apply Ascii.eqb_eq in H. subst c. reflexivity.
  - apply Ascii.eqb_eq in H. subst c. reflexivity.
Qed.

Lemma starts_symbol_two (c d : ascii) (t r : string) :
  starts_symbol (String c (String d t) ++ r) = starts_symbol (String c (String d t)).
Proof.
  unfold starts_symbol, starts_number, starts_with2. cbn [append].
  destruct (Ascii.eqb c "#" && Ascii.eqb d "t"),
    (Ascii.eqb c "#" && Ascii.eqb d "f"); reflexivity.
Qed.

(** What follows a token does not change how the token starts. *)
Lemma starts_symbol_token (t r : string) :
  t <> EmptyString -> ends_token r = true ->
  starts_symbol (t ++ r) = starts_symbol t.
Proof.
  intros Ht Hend. destruct t as [|c [|d t]]; [contradiction| |].
  2:{ apply starts_symbol_two. }
  destruct r as [|x r]; [reflexivity|].
  cbn [ends_token] in Hend.
  unfold starts_symbol, starts_number, starts_with2. cbn [append].
  rewrite (delimiter_not_digit x Hend).
  assert (Hxt : Ascii.eqb x "t" = false).
  { destruct (Ascii.eqb x "t") eqn:H; [|reflexivity].
    apply Ascii.eqb_eq in H. subst x. discriminate Hend. }
  assert (Hxf : Ascii.eqb x "f" = false).
  { destruct (Ascii.eqb x "f") eqn:H; [|reflexivity].
    apply Ascii.eqb_eq in H. subst x. discriminate Hend. }
  rewrite Hxt, Hxf, !andb_false_r. reflexivity.
Qed.

Lemma parse_atom_symbol (t : string) (tail : option string * string) :
  starts_symbol t = true ->
  read_symbol t 0 = tail ->
  parse_atom t
  = match tail with
    | (None, cursor) => (Some (pval_error "SyntaxError" "Symbol too long"), cursor)
    | (Some EmptyString, cursor) =>
        (Some (pval_error "SyntaxError" "Empty symbol or unparsable token"), cursor)
    | (Some symbol_buffer, cursor) => (Some (pval_symbol symbol_buffer), cursor)
    end.
Proof.
  unfold starts_symbol, parse_atom. intros Hstart <-.
  apply andb_true_iff in Hstart. destruct Hstart as [Hstart Hf].
  apply andb_true_iff in Hstart. destruct Hstart as [Hnum Ht].
  apply negb_true_iff in Hnum. rewrite Hnum.
  destruct (starts_with2 t "#" "t"); [discriminate Ht|].
  destruct (starts_with2 t "#" "f"); [discriminate Hf|].
  reflexivity.
Qed.

Lemma skip_whitespace_token (c : ascii) (rest : string) :
  is_delimiter c = false ->
  skip_whitespace (String c rest) = String c rest /\ Ascii.eqb c "(" = false.
Proof.
  unfold is_delimiter. intros H.
  apply orb_false_iff in H. destruct H as [H Hclose].
  apply orb_false_iff in H. destruct H as [Hspace Hopen].
  cbn [skip_whitespace]. rewrite Hspace. split; [reflexivity | exact Hopen].
Qed.

(** The parse of a token of at most 255 characters that starts as a
    symbol. *)
Lemma pval_parse_token (t r : string) :
  t <> EmptyString -> no_delimiter t = true -> ends_token r = true ->
  starts_symbol t = true -> (String.length t <= 255)%nat ->
  pval_parse (t ++ r) = (Some (PSymbol t), r).
Proof.
  intros Ht Hplain Hend Hstart Hlen.
  rewrite pval_parse_unfold.
  destruct t as [|c t]; [contradiction|].
  pose proof Hplain as Hc. cbn [no_delimiter] in Hc.
  apply andb_true_iff in Hc. destruct Hc as [Hc _]. apply negb_true_iff in Hc.
  cbn [append]. destruct (skip_whitespace_token c (t ++ r) Hc) as [-> ->].
  change (String c (t ++ r)) with (String c t ++ r)%string.
  rewrite (parse_atom_symbol _ (Some (String c t), r)).
  - reflexivity.
  - rewrite starts_symbol_token by (discriminate || assumption). exact Hstart.
  - apply read_symbol_fits; [assumption | assumption | lia].
Qed.

(** X5.  The limit on symbols: a token that starts as a symbol parses to
    the symbol of that text, the cursor left at the delimiter or at the
    end, when it has at most 255 characters; when it has more, the parse
    is the SyntaxError "Symbol too long" and the cursor is left after the
    first 255 characters. *)
Theorem pval_parse_symbol_limit :
  (forall t r,
      t <> EmptyString -> no_delimiter t = true -> ends_token r = true ->
      starts_symbol t = true -> (String.length t <= 255)%nat ->
      pval_parse (t ++ r) = (Some (PSymbol t), r))
  /\ (forall a b,
        no_delimiter a = true -> ends_token b = false ->
        starts_symbol a = true -> String.length a = 255%nat ->
        pval_parse (a ++ b) = (Some (PError "SyntaxError" "Symbol too long"), b)).
Proof.
  split; [exact pval_parse_token|].
  intros a b Hplain Hend Hstart Hlen.
  rewrite pval_parse_unfold.
  destruct a as [|c [|d a]]; [discriminate Hlen | discriminate Hlen |].
  pose proof Hplain as Hc. cbn [no_delimiter] in Hc.
  apply andb_true_iff in Hc. destruct Hc as [Hc _]. apply negb_true_iff in Hc.
  cbn [append]. destruct (skip_whitespace_token c (String d (a ++ b)) Hc) as [-> ->].
  change (String c (String d (a ++ b))) with (String c (String d a) ++ b)%string.
  rewrite (parse_atom_symbol _ (None, b)).
  - reflexivity.
  - rewrite starts_symbol_two. exact Hstart.
  - apply read_symbol_full; [assumption | assumption | lia].
Qed.

Lemma pval_parse_symbol_limit_witness :
  pval_parse ("my-function" ++ " 1)") = (Some (PSymbol "my-function"), " 1)"%string)
  /\ pval_parse (string_of_list_ascii (repeat "a"%char 255) ++ "bc")
     = (Some (PError "SyntaxError" "Symbol too long"), "bc"%string).
Proof.
  destruct pval_parse_symbol_limit as [Hfits Hlong].
  split.
  - apply Hfits; try reflexivity. { discriminate. } { simpl. lia. }
  - apply Hlong; vm_compute; reflexivity.
Defined.

(** X6.  Round trip of symbols: a symbol the parser returns is a
    non-empty text of at most 255 characters without white space or
    parentheses, and parsing its printed form gives the same symbol with
    nothing left. *)
Theorem pval_parse_symbol_round_trip (s t r : string) :
  pval_parse s = (Some (PSymbol t), r) ->
  t <> EmptyString /\ no_delimiter t = true /\ (String.length t <= 255)%nat
  /\ pval_parse (pval_print (PSymbol t)) = (Some (PSymbol t), EmptyString).
Proof.
  rewrite pval_parse_unfold.
  pose proof (skip_whitespace_suffix s) as _.
  destruct (skip_whitespace s) as [|c rest]; [discriminate|].
  destruct (Ascii.eqb c "(") eqn:Hopen.
  { destruct (parse_list_closes (S (String.length rest)) rest [] 0 4
                (Nat.lt_succ_diag_r _)) as (v & r' & Hloop & Hclosed).
    unfold pval_list. rewrite Hloop. intros H; injection H as -> ->.
    destruct (Hclosed eq_refl) as [Htag _]. discriminate Htag. }
  unfold parse_atom. destruct (starts_number (String c rest)) eqn:Hnum.
  { destruct (Strtod.strtod (String c rest)) as [parsed_num end_ptr].
    destruct (String.length end_ptr =? String.length (String c rest))%nat; discriminate. }
  destruct (starts_with2 (String c rest) "#" "t") eqn:Htrue; [discriminate|].
  destruct (starts_with2 (String c rest) "#" "f") eqn:Hfalse; [discriminate|].
  destruct (read_symbol (String c rest) 0) as [[[|a text]|] cursor] eqn:Hsym;
    try discriminate.
  intros H; injection H as <- <-.
  destruct (read_symbol_token _ _ _ _ Hsym) as (Htext & Hplain & Hend & Hlen).
  specialize (Hlen ltac:(discriminate)).
  split; [discriminate|]. split; [exact Hplain|]. split; [lia|].
  cbn [pval_print].
  assert (Hstart : starts_symbol (String a text) = true).
  { rewrite <- (starts_symbol_token (String a text) cursor) by (discriminate || assumption).
    rewrite <- Htext. unfold starts_symbol. rewrite Hnum, Htrue, Hfalse. reflexivity. }
  pose proof (pval_parse_token (String a text) EmptyString) as Hparse.
  assert (Hnil : forall x, (x ++ "")%string = x)
    by (induction x as [|y x IH]; simpl; [|rewrite IH]; reflexivity).
  rewrite Hnil in Hparse. apply Hparse; try assumption; try reflexivity;
    [discriminate | lia].
Qed.

Lemma pval_parse_symbol_round_trip_witness :
  "hello"%string <> EmptyString /\ no_delimiter "hello" = true
  /\ (String.length "hello" <= 255)%nat
  /\ pval_parse (pval_print (PSymbol "hello")) = (Some (PSymbol "hello"), EmptyString).
Proof.
  apply (pval_parse_symbol_round_trip " hello world" "hello" " world").
  vm_compute. reflexivity.
Defined.

(** ** What the builtins and the evaluator return *)

Lemma add_loop_spec (args : list pval) (running_sum : float) :
  add_loop args running_sum
  = if forallb is_number args
    then PNumber (fold_left PrimFloat.add (numbers args) running_sum)
    else PError "TypeError" "Arguments to + must be numbers".
Proof.
  revert running_sum. induction args as [|a args IH]; intros running_sum; [reflexivity|].
  destruct a; try reflexivity. cbn [add_loop forallb is_number numbers fold_left andb].
  apply IH.
Qed.

Lemma mul_loop_spec (args : list pval) (running_product : float) :
  mul_loop args running_product
  = if forallb is_number args
    then PNumber (fold_left PrimFloat.mul (numbers args) running_product)
    else PError "TypeError" "Arguments to * must be numbers".
Proof.
  revert running_product. induction args as [|a args IH]; intros running_product;
    [reflexivity|].
  destruct a; try reflexivity. cbn [mul_loop forallb is_number numbers fold_left andb].
  apply IH.
Qed.

(** X7.  [+] and [*] fold their arguments from left to right, starting
    from 0 and from 1: when every argument is a number the result is that
    sum or product, and when some argument is not a number, wherever it
    stands, the result is a TypeError. *)
Theorem builtin_add_mul_fold (args : list pval) :
  builtin_add args
  = (if forallb is_number args
     then PNumber (fold_left PrimFloat.add (numbers args) 0%float)
     else PError "TypeError" "Arguments to + must be numbers")
  /\ builtin_mul args
     = (if forallb is_number args
        then PNumber (fold_left PrimFloat.mul (numbers args) 1%float)
        else PError "TypeError" "Arguments to * must be numbers").
Proof.
  split.
  - unfold builtin_add. destruct args as [|a args]; [reflexivity|]. apply add_loop_spec.
  - unfold builtin_mul. destruct args as [|a args]; [reflexivity|]. apply mul_loop_spec.
Qed.

Lemma builtin_add_cases (args : list pval) :
  (exists number, builtin_add args = PNumber number)
  \/ (exists error_type error_message,
        builtin_add args = PError error_type error_message).
Proof.
  unfold builtin_add. destruct args as [|a args]; [left; eexists; reflexivity|].
  rewrite add_loop_spec. destruct (forallb is_number (a :: args)); eauto.
Qed.

Lemma builtin_mul_cases (args : list pval) :
  (exists number, builtin_mul args = PNumber number)
  \/ (exists error_type error_message,
        builtin_mul args = PError error_type error_message).
Proof.
  unfold builtin_mul. destruct args as [|a args]; [left; eexists; reflexivity|].
  rewrite mul_loop_spec. destruct (forallb is_number (a :: args)); eauto.
Qed.

(** What a builtin returns: a number, a boolean or an error, or else the
    symbol of [builtin_quit] called without argument. *)
Lemma call_cases (function : builtin_function_ptr) (args : list pval) :
  (exists number, call function args = PNumber number)
  \/ (exists boolean, call function args = PBool boolean)
  \/ (exists error_type error_message,
        call function args = PError error_type error_message)
  \/ (call function args = PSymbol "quitting"
      /\ function = builtin_quit_ptr /\ args = []).
Proof.
  destruct function; cbn [call].
  - destruct (builtin_add_cases args) as [[n ->] | (t & m & ->)]; eauto 6.
  - unfold builtin_sub. destruct args as [|[] [|[] [|]]]; eauto 8.
  - destruct (builtin_mul_cases args) as [[n ->] | (t & m & ->)]; eauto 6.
  - unfold builtin_div. destruct args as [|[] [|[] [|]]]; eauto 8.
    destruct (_ =? _)%float; eauto 8.
  - unfold builtin_eq. destruct args as [|[] [|[] [|]]]; cbn; eauto 8.
  - unfold builtin_quit. destruct args; eauto 8.
Qed.

Lemma eval_items_error (eval : pval -> list pval * pval) (list_count : Z)
      (slots : list pval) (i : Z) (calls : list pval) (error_result : pval) :
  eval_items eval list_count slots i = (calls, inl error_result) ->
  is_error error_result = true.
Proof.
  revert i calls error_result.
  induction slots as [|item slots IH]; intros i calls error_result; cbn [eval_items].
  - destruct (i <? list_count); [|discriminate].
    intros H; injection H as _ <-. reflexivity.
  - destruct (i <? list_count); [|discriminate].
    destruct (eval item) as [calls_item evaluated].
    destruct (eval_items eval list_count slots (i + 1)) as [calls_rest [e|vs]] eqn:Hrest.
    + specialize (IH _ _ _ Hrest).
      destruct evaluated; intros H; injection H as _ <-; (exact IH || reflexivity).
    + destruct evaluated; intros H; try discriminate H.
      injection H as _ <-. reflexivity.
Qed.

(** The values the loop stores are as many as the slots from [i] to the
    count. *)
Lemma eval_items_length (eval : pval -> list pval * pval) (list_count : Z)
      (slots : list pval) (i : Z) (calls evaluated_items : list pval) :
  eval_items eval list_count slots i = (calls, inr evaluated_items) ->
  Z.of_nat (length evaluated_items) = Z.max 0 (list_count - i).
Proof.
  revert i calls evaluated_items.
  induction slots as [|item slots IH]; intros i calls evaluated_items; cbn [eval_items].
  - destruct (i <? list_count) eqn:Hi; [discriminate|].
    apply Z.ltb_ge in Hi. intros H; injection H as _ <-. simpl. lia.
  - destruct (i <? list_count) eqn:Hi.
    + apply Z.ltb_lt in Hi.
      destruct (eval item) as [calls_item evaluated].
      destruct (eval_items eval list_count slots (i + 1)) as [calls_rest [e|vs]] eqn:Hrest.
      * destruct evaluated; discriminate.
      * specialize (IH _ _ _ Hrest).
        destruct evaluated; intros H; try discriminate H;
          injection H as _ <-; cbn [length]; lia.
    + apply Z.ltb_ge in Hi. intros H; injection H as _ <-. simpl. lia.
Qed.

(** The evaluation of a list with at least one slot counted. *)
Lemma pval_eval_list_cases (list_items : list pval) (list_count list_capacity : Z) :
  0 < list_count ->
  (exists error_type error_message,
      pval_eval (PList list_items list_count list_capacity)
      = PError error_type error_message)
  \/ (exists function function_args item rest,
        pval_eval (PList list_items list_count list_capacity)
        = call function function_args
        /\ list_items = item :: rest /\ pval_eval item = PFunction function
        /\ Z.of_nat (length function_args) = list_count - 1).
Proof.
  intros Hpos. unfold pval_eval at 1 2. rewrite pval_eval_log_list by exact Hpos.
  cbn [snd].
  destruct (eval_items pval_eval_log list_count list_items 0)
    as [calls [e | evaluated_items]] eqn:Hloop; cbn [snd].
  - apply eval_items_error in Hloop. destruct e; try discriminate Hloop. eauto.
  - pose proof (eval_items_length _ _ _ _ _ _ Hloop) as Hlen.
    destruct list_items as [|item rest].
    { cbn [eval_items] in Hloop.
      replace (0 <? list_count) with true in Hloop
        by (symmetry; apply Z.ltb_lt, Hpos). discriminate Hloop. }
    cbn [eval_items] in Hloop.
    replace (0 <? list_count) with true in Hloop by (symmetry; apply Z.ltb_lt, Hpos).
    destruct (pval_eval_log item) as [calls_item evaluated] eqn:Hitem.
    assert (Hhead : pval_eval item = evaluated) by (unfold pval_eval; rewrite Hitem; reflexivity).
    destruct (eval_items pval_eval_log list_count rest (0 + 1)) as [calls_rest [e|vs]].
    { destruct evaluated; discriminate Hloop. }
    assert (Hitems : evaluated_items = evaluated :: vs)
      by (destruct evaluated; try discriminate Hloop; injection Hloop as _ <-; reflexivity).
    subst evaluated_items. cbn [length] in Hlen.
    unfold apply_head. destruct evaluated; eauto.
    right. exists function, vs, item, rest. repeat split; try assumption. lia.
Qed.

(** X8.  Evaluation returns a number, a boolean, a function, an error,
    the fresh empty list, or the symbol [quitting]: never a list with
    elements, and no other symbol. *)
Theorem pval_eval_result (input_value : pval) : eval_result (pval_eval input_value).
Proof.
  destruct input_value as [n | b | name | items count cap | f | t m];
    try exact I.
  - unfold pval_eval. cbn [pval_eval_log snd].
    destruct (lookup name builtins); exact I.
  - destruct (Z.ltb_spec count 0) as [Hneg | Hnonneg].
    { unfold pval_eval. cbn [pval_eval_log].
      replace (count <? 0) with true by (symmetry; apply Z.ltb_lt, Hneg). exact I. }
    destruct (Z.eqb_spec count 0) as [-> | Hnz].
    { unfold pval_eval. cbn. repeat split. }
    destruct (pval_eval_list_cases items count cap ltac:(lia))
      as [(t & m & ->) | (f & args & item & rest & -> & _)]; [exact I|].
    destruct (call_cases f args)
      as [[n ->] | [[b ->] | [(t & m & ->) | (-> & _)]]]; try exact I. reflexivity.
Qed.

Lemma lookup_quit (name : string) :
  lookup name builtins = Some builtin_quit_ptr -> name = "quit"%string.
Proof.
  unfold builtins. cbn [lookup].
  repeat (match goal with
          | |- (if String.eqb name ?k then _ else _) = _ -> _ =>
              destruct (String.eqb_spec name k) as [Hname | _];
              [intros H; first [discriminate H | exact Hname] |]
          end).
  discriminate.
Qed.

(** Only a symbol evaluates to a function, the one the table gives it. *)
Lemma pval_eval_function_inv (input_value : pval) (function : builtin_function_ptr) :
  pval_eval input_value = PFunction function ->
  exists name, input_value = PSymbol name /\ lookup name builtins = Some function.
Proof.
  destruct input_value as [n | b | name | items count cap | f | t m];
    try discriminate.
  - unfold pval_eval. cbn [pval_eval_log snd].
    destruct (lookup name builtins) as [func|] eqn:Hlookup; [|discriminate].
    intros H; injection H as ->. eauto.
  - destruct (Z.ltb_spec count 0) as [Hneg | Hnonneg].
    { unfold pval_eval. cbn [pval_eval_log].
      replace (count <? 0) with true by (symmetry; apply Z.ltb_lt, Hneg). discriminate. }
    destruct (Z.eqb_spec count 0) as [-> | Hnz]; [discriminate|].
    destruct (pval_eval_list_cases items count cap ltac:(lia))
      as [(t & m & ->) | (f & args & item & rest & -> & _)]; [discriminate|].
    destruct (call_cases f args)
      as [[n ->] | [[b ->] | [(t & m & ->) | (-> & _)]]]; discriminate.
Qed.

(** Evaluation returns a symbol only for a list that counts one element,
    the symbol [quit]. *)
Lemma pval_eval_symbol_inv (input_value : pval) (symbol : string) :
  pval_eval input_value = PSymbol symbol ->
  symbol = "quitting"%string
  /\ exists rest list_capacity,
       input_value = PList (PSymbol "quit" :: rest) 1 list_capacity.
Proof.
  destruct input_value as [n | b | name | items count cap | f | t m];
    try discriminate.
  - unfold pval_eval. cbn [pval_eval_log snd].
    destruct (lookup name builtins); discriminate.
  - destruct (Z.ltb_spec count 0) as [Hneg | Hnonneg].
    { unfold pval_eval. cbn [pval_eval_log].
      replace (count <? 0) with true by (symmetry; apply Z.ltb_lt, Hneg). discriminate. }
    destruct (Z.eqb_spec count 0) as [-> | Hnz]; [discriminate|].
    destruct (pval_eval_list_cases items count cap ltac:(lia))
      as [(t & m & ->) | (f & args & item & rest & -> & -> & Hhead & Hlen)];
      [discriminate|].
    destruct (call_cases f args)
      as [[n ->] | [[b ->] | [(t & m & ->) | (-> & -> & ->)]]]; try discriminate.
    intros H; injection H as <-. split; [reflexivity|].
    destruct (pval_eval_function_inv _ _ Hhead) as (name & -> & Hlookup).
    apply lookup_quit in Hlookup. subst name.
    exists rest, cap. f_equal. simpl in Hlen. lia.
Qed.

(** X9.  The quit signal: evaluation returns a symbol only for a list
    that counts one element, the symbol [quit]; the symbol returned is
    [quitting]. *)
Theorem pval_eval_quit (input_value : pval) (symbol : string) :
  pval_eval input_value = PSymbol symbol ->
  symbol = "quitting"%string
  /\ exists rest list_capacity,
       input_value = PList (PSymbol "quit" :: rest) 1 list_capacity.
Proof.
  exact (pval_eval_symbol_inv input_value symbol).
Qed.

Lemma pval_eval_quit_witness :
  "quitting"%string = "quitting"%string
  /\ exists rest list_capacity,
       PList [PSymbol "quit"] 1 4 = PList (PSymbol "quit" :: rest) 1 list_capacity.
Proof.
  apply (pval_eval_quit (PList [PSymbol "quit"] 1 4) "quitting"). reflexivity.
Defined.

(** X10.  A symbol evaluates to a function exactly when the table of
    builtins has its name, and then to the function of that entry; any
    other symbol evaluates to an UnboundError. *)
Theorem pval_eval_symbol (symbol : string) :
  (forall function,
      pval_eval (PSymbol symbol) = PFunction function <-> In (symbol, function) builtins)
  /\ (~ In symbol (map fst builtins) ->
      pval_eval (PSymbol symbol)
      = PError "UnboundError" "Symbol not bound to a function").
Proof.
  unfold pval_eval. cbn [pval_eval_log snd]. split.
  - intros function. split.
    + unfold builtins. cbn [lookup].
      repeat (match goal with
              | |- context [if String.eqb symbol ?k then _ else _] =>
                  destruct (String.eqb_spec symbol k) as [-> | _];
                  [intros H; injection H as <-; simpl; tauto |]
              end).
      discriminate.
    + intros Hin. unfold builtins in Hin. cbn [In] in Hin.
      repeat (destruct Hin as [Hin | Hin];
              [injection Hin as <- <-; reflexivity |]).
      contradiction.
  - intros Hnot. unfold builtins in *. cbn [lookup map fst In] in *.
    repeat (match goal with
            | |- context [if String.eqb symbol ?k then _ else _] =>
                destruct (String.eqb_spec symbol k) as [-> | _];
                [exfalso; apply Hnot; tauto |]
            end).
    reflexivity.
Qed.

Lemma pval_eval_symbol_witness :
  pval_eval (PSymbol "foo") = PError "UnboundError" "Symbol not bound to a function".
Proof.
  apply (proj2 (pval_eval_symbol "foo")).
  simpl. intros H.
  repeat (destruct H as [H | H]; [discriminate H |]). exact H.
Defined.

(** ** Printing a list *)

Lemma append_empty (s : string) : (s ++ "")%string = s.
Proof.
  induction s as [|c s IH]; simpl; [|rewrite IH]; reflexivity.
Qed.

Lemma print_items_concat (print : pval -> string) (list_count : Z)
      (slots : list pval) (i : Z) :
  i + Z.of_nat (length slots) = list_count ->
  print_items print list_count slots i = String.concat " " (map print slots).
Proof.
  revert i. induction slots as [|item slots IH]; intros i Hlen; cbn [print_items].
  - replace (i <? list_count) with false
      by (symmetry; apply Z.ltb_ge; simpl in Hlen; lia).
    reflexivity.
  - cbn [length] in Hlen.
    replace (i <? list_count) with true by (symmetry; apply Z.ltb_lt; lia).
    rewrite (IH (i + 1)) by lia. unfold separator.
    destruct slots as [|next slots].
    + replace (i <? list_count - 1) with false
        by (symmetry; apply Z.ltb_ge; simpl in Hlen; lia).
      cbn [map String.concat]. rewrite append_empty. reflexivity.
    + replace (i <? list_count - 1) with true
        by (symmetry; apply Z.ltb_lt; cbn [length] in Hlen; lia).
      reflexivity.
Qed.

(** X11.  A list whose count is the number of its elements prints as its
    elements, in order, with one space between two of them and nothing
    after the last, inside a pair of parentheses; the capacity does not
    show. *)
Theorem pval_print_list (list_items : list pval) (list_count list_capacity : Z) :
  count_matches list_items list_count ->
  pval_print (PList list_items list_count list_capacity)
  = ("(" ++ String.concat " " (map pval_print list_items) ++ ")")%string.
Proof.
  unfold count_matches. intros Hrep. cbn [pval_print].
  rewrite print_items_concat by lia. reflexivity.
Qed.

Lemma pval_print_list_witness :
  pval_print (PList [PSymbol "a"; PList [] 0 4; PBool true] 3 4)
  = ("(" ++ String.concat " "
              (map pval_print [PSymbol "a"; PList [] 0 4; PBool true]) ++ ")")%string.
Proof.
  apply (pval_print_list [PSymbol "a"; PList [] 0 4; PBool true] 3 4). reflexivity.
Defined.

(** ** The parenthesis check *)

Lemma clear_stack_empty (stack : Stack) : clear_stack stack = [].
Proof.
  induction stack as [|x stack IH]; [reflexivity | exact IH].
Qed.

(** The stack of the check holds one node for each level of nesting. *)
Lemma scan_parens_depth (s : string) (stack : Stack) :
  scan_parens s stack
  = (match paren_depth s (length stack) with
     | Some O => true
     | _ => false
     end, []).
Proof.
  revert stack. induction s as [|c rest IH]; intros stack; cbn [scan_parens paren_depth].
  - rewrite clear_stack_empty. destruct stack; reflexivity.
  - destruct (Ascii.eqb c "("); [apply (IH (40 :: stack))|].
    destruct (Ascii.eqb c ")"); [|apply IH].
    destruct stack as [|x stack]; [reflexivity|]. apply (IH stack).
Qed.

Lemma prefixes_cons (c : ascii) (rest : string) (Q : string -> Prop) :
  (forall p r, String c rest = (p ++ r)%string -> Q p)
  <-> Q EmptyString /\ (forall p r, rest = (p ++ r)%string -> Q (String c p)).
Proof.
  split.
  - intros H. split; [apply (H EmptyString (String c rest)); reflexivity|].
    intros p r ->. apply (H (String c p) r). reflexivity.
  - intros [Hnil Hcons] p r Heq. destruct p as [|x p]; [exact Hnil|].
    simpl in Heq. injection Heq as <- ->. eapply Hcons. reflexivity.
Qed.

(** The depth in terms of the numbers of parentheses: no prefix closes
    more than it opens, the starting depth counted, and the depth at the
    end is the balance of the whole. *)
Lemma paren_depth_counts (s : string) (depth final : nat) :
  paren_depth s depth = Some final
  <-> (forall p r, s = (p ++ r)%string ->
         (count_char ")" p <= count_char "(" p + depth)%nat)
      /\ (count_char "(" s + depth = count_char ")" s + final)%nat.
Proof.
  revert depth. induction s as [|c rest IH]; intros depth.
  - cbn [paren_depth count_char]. split.
    + intros H; injection H as <-. split; [|lia].
      intros [|x p] r Heq; [simpl; lia | discriminate Heq].
    + intros [_ H]. f_equal. lia.
  - rewrite prefixes_cons. cbn [paren_depth count_char].
    destruct (Ascii.eqb_spec c "(") as [-> | Hopen].
    + change (Ascii.eqb "(" ")") with false. cbn [Nat.add]. rewrite IH.
      split; intros [Hp Hall]; (split; [|lia]).
      * split; [lia|]. intros p r Heq. specialize (Hp p r Heq). lia.
      * destruct Hp as [_ Hp]. intros p r Heq. specialize (Hp p r Heq). lia.
    + destruct (Ascii.eqb_spec c ")") as [-> | Hclose].
      * destruct depth as [|depth].
        -- split; [discriminate|]. intros [[_ Hp] _].
           specialize (Hp EmptyString rest eq_refl). simpl in Hp. lia.
        -- rewrite IH. cbn [Nat.add].
           split; intros [Hp Hall]; (split; [|lia]).
           ++ split; [lia|]. intros p r Heq. specialize (Hp p r Heq). lia.
           ++ destruct Hp as [_ Hp]. intros p r Heq. specialize (Hp p r Heq). lia.
      * rewrite IH. cbn [Nat.add].
        split; intros [Hp Hall]; (split; [|lia]).
        -- split; [lia|]. intros p r Heq. specialize (Hp p r Heq). lia.
        -- destruct Hp as [_ Hp]. intros p r Heq. specialize (Hp p r Heq). lia.
Qed.

(** X12.  The parenthesis check answers true exactly when no prefix of
    the line has more closing than opening parentheses and the line has as
    many of each.  The answer does not depend on what the stack held
    before the call, and the stack is empty after it. *)
Theorem check_balanced_parens_counts (input_str : string) (paren_stack : Stack) :
  snd (check_balanced_parens input_str paren_stack) = []
  /\ (fst (check_balanced_parens input_str paren_stack) = true
      <-> (forall p r, input_str = (p ++ r)%string ->
             (count_char ")" p <= count_char "(" p)%nat)
          /\ count_char "(" input_str = count_char ")" input_str).
Proof.
  unfold check_balanced_parens. rewrite scan_parens_depth, clear_stack_empty.
  cbn [fst snd length]. split; [reflexivity|].
  pose proof (paren_depth_counts input_str 0 0) as Hcounts.
  rewrite !Nat.add_0_r in Hcounts.
  assert (Hprefix : (forall p r, input_str = (p ++ r)%string ->
                       (count_char ")" p <= count_char "(" p + 0)%nat)
                    <-> (forall p r, input_str = (p ++ r)%string ->
                           (count_char ")" p <= count_char "(" p)%nat)).
  { split; intros H p r Heq; specialize (H p r Heq); lia. }
  rewrite <- Hprefix, <- Hcounts.
  destruct (paren_depth input_str 0) as [[|k]|]; split; try reflexivity; discriminate.
Qed.

Lemma check_balanced_parens_counts_witness :
  fst (check_balanced_parens "(+ 1 (* 2 3))" [40; 40]) = true
  <-> (forall p r, "(+ 1 (* 2 3))"%string = (p ++ r)%string ->
         (count_char ")" p <= count_char "(" p)%nat)
      /\ count_char "(" "(+ 1 (* 2 3))" = count_char ")" "(+ 1 (* 2 3))".
Proof.
  exact (proj2 (check_balanced_parens_counts "(+ 1 (* 2 3))" [40; 40])).
Defined.

(** ** Parsing a line that passed the parenthesis check *)

Lemma not_paren (f : ascii -> bool) :
  f "("%char = false -> f ")"%char = false ->
  forall c, f c = true -> is_paren c = false.
Proof.
  intros Hopen Hclose c Hc. unfold is_paren. apply orb_false_iff.
  split; apply Ascii.eqb_neq; intros ->; congruence.
Qed.

Lemma no_paren_append (a b : string) :
  no_paren (a ++ b) = no_paren a && no_paren b.
Proof.
  induction a as [|c a IH]; simpl; [reflexivity|].
  rewrite IH. apply andb_assoc.
Qed.

Lemma plain_refl (s : string) : plain_suffix s s.
Proof. exists EmptyString. split; reflexivity. Qed.

Lemma plain_trans (a b c : string) :
  plain_suffix a b -> plain_suffix b c -> plain_suffix a c.
Proof.
  intros [p [-> Hp]] [q [-> Hq]]. exists (q ++ p)%string.
  split; [apply eq_sym, append_assoc|].
  rewrite no_paren_append, Hp, Hq. reflexivity.
Qed.

Lemma plain_tail (c : ascii) (r s : string) :
  is_paren c = false -> plain_suffix r s -> plain_suffix r (String c s).
Proof.
  intros Hc [p [-> Hp]]. exists (String c p).
  split; [reflexivity|]. cbn [no_paren]. rewrite Hc, Hp. reflexivity.
Qed.

Lemma paren_depth_plain (p r : string) (d : nat) :
  no_paren p = true -> paren_depth (p ++ r) d = paren_depth r d.
Proof.
  induction p as [|c p IH]; [reflexivity|].
  cbn [no_paren]. intros H. apply andb_true_iff in H. destruct H as [Hc Hp].
  apply negb_true_iff in Hc. unfold is_paren in Hc.
  apply orb_false_iff in Hc. destruct Hc as [Hopen Hclose].
  cbn [append paren_depth]. rewrite Hopen, Hclose. apply IH, Hp.
Qed.

Lemma paren_depth_no_paren (p : string) (d : nat) :
  no_paren p = true -> paren_depth p d = Some d.
Proof.
  intros Hp. rewrite <- (append_empty p). rewrite paren_depth_plain by exact Hp.
  reflexivity.
Qed.

Lemma paren_depth_append (p r : string) (d : nat) :
  paren_depth (p ++ r) d
  = match paren_depth p d with
    | Some d' => paren_depth r d'
    | None => None
    end.
Proof.
  revert d. induction p as [|c p IH]; intros d; [reflexivity|].
  cbn [append paren_depth].
  destruct (Ascii.eqb c "("); [apply IH|].
  destruct (Ascii.eqb c ")"); [|apply IH].
  destruct d as [|d]; [reflexivity | apply IH].
Qed.

Lemma skip_whitespace_plain (s : string) : plain_suffix (skip_whitespace s) s.
Proof.
  induction s as [|c s IH]; simpl; [apply plain_refl|].
  destruct (C.isspace c) eqn:Hc; [|apply plain_refl].
  apply plain_tail; [|exact IH].
  apply (not_paren C.isspace); [reflexivity | reflexivity | exact Hc].
Qed.

Lemma skip_whitespace_first (s : string) (c : ascii) (rest : string) :
  skip_whitespace s = String c rest -> C.isspace c = false.
Proof.
  induction s as [|x s IH]; simpl; [discriminate|].
  destruct (C.isspace x) eqn:Hx; [exact IH|].
  intros H; injection H as <- _. exact Hx.
Qed.

Module StrtodPlain.

Import Strtod.

Lemma digits_plain (base : Z) (is_digit : ascii -> bool) (s : string) (acc n : Z) :
  is_digit "("%char = false -> is_digit ")"%char = false ->
  plain_suffix (snd (digits base is_digit s acc n)) s.
Proof.
  intros Hopen Hclose.
  revert acc n. induction s as [|c s IH]; intros acc n; simpl; [apply plain_refl|].
  destruct (is_digit c) eqn:Hc; [|apply plain_refl].
  apply plain_tail; [|apply IH]. exact (not_paren is_digit Hopen Hclose c Hc).
Qed.

Lemma mantissa_plain (base : Z) (is_digit : ascii -> bool) (s : string)
      (m k : Z) (r : string) :
  is_digit "("%char = false -> is_digit ")"%char = false ->
  mantissa base is_digit s = Some (m, k, r) -> plain_suffix r s.
Proof.
  intros Hopen Hclose. unfold mantissa.
  pose proof (digits_plain base is_digit s 0 0 Hopen Hclose) as H1.
  destruct (digits base is_digit s 0 0) as [[a n1] r1]. cbn [snd] in H1.
  destruct r1 as [|c r2].
  - destruct (n1 =? 0); [discriminate|]. intros H; injection H as _ _ <-. exact H1.
  - destruct (Ascii.eqb c ".") eqn:Hc.
    + pose proof (digits_plain base is_digit r2 a 0 Hopen Hclose) as H2.
      destruct (digits base is_digit r2 a 0) as [[b n2] r3]. cbn [snd] in H2.
      destruct (n1 + n2 =? 0); [discriminate|].
      intros H; injection H as _ _ <-.
      eapply plain_trans; [|exact H1]. apply plain_tail; [|exact H2].
      apply (not_paren (fun x => Ascii.eqb x ".")); [reflexivity | reflexivity | exact Hc].
    + destruct (n1 =? 0); [discriminate|].
      intros H; injection H as _ _ <-. exact H1.
Qed.

Lemma sign_plain (s : string) : plain_suffix (snd (sign s)) s.
Proof.
  unfold sign. destruct s as [|c r]; [apply plain_refl|].
  destruct (Ascii.eqb c "-") eqn:Hminus.
  { cbn [snd]. apply plain_tail; [|apply plain_refl].
    apply (not_paren (fun x => Ascii.eqb x "-")); [reflexivity | reflexivity | exact Hminus]. }
  destruct (Ascii.eqb c "+") eqn:Hplus; cbn [snd]; [|apply plain_refl].
  apply plain_tail; [|apply plain_refl].
  apply (not_paren (fun x => Ascii.eqb x "+")); [reflexivity | reflexivity | exact Hplus].
Qed.

Lemma exponent_plain (is_marker : ascii -> bool) (s : string) :
  is_marker "("%char = false -> is_marker ")"%char = false ->
  plain_suffix (snd (exponent is_marker s)) s.
Proof.
  intros Hopen Hclose.
  unfold exponent. destruct s as [|c r]; [apply plain_refl|].
  destruct (is_marker c) eqn:Hc; [|apply plain_refl].
  pose proof (sign_plain r) as Hr'.
  destruct (sign r) as [negative r']. cbn [snd] in Hr'.
  pose proof (digits_plain 10 C.isdigit r' 0 0 eq_refl eq_refl) as H.
  destruct (digits 10 C.isdigit r' 0 0) as [[x n] r'']. cbn [snd] in H.
  destruct (n =? 0); cbn [snd]; [apply plain_refl|].
  apply plain_tail; [exact (not_paren is_marker Hopen Hclose c Hc)|].
  eapply plain_trans; eassumption.
Qed.

Lemma hexadecimal_plain (s : string) (v : spec_float) (r : string) :
  hexadecimal s = Some (v, r) -> plain_suffix r s.
Proof.
  unfold hexadecimal. destruct s as [|c [|x s]]; try discriminate.
  destruct (Ascii.eqb c "0" && is_x x) eqn:Hprefix; [|discriminate].
  apply andb_true_iff in Hprefix. destruct Hprefix as [Hc Hx].
  destruct (mantissa 16 C.isxdigit s) as [[[m k] r']|] eqn:Hm; [|discriminate].
  apply mantissa_plain in Hm; [|reflexivity|reflexivity].
  pose proof (exponent_plain is_p r' eq_refl eq_refl) as He.
  destruct (exponent is_p r') as [e r'']. cbn [snd] in He.
  intros H; injection H as _ <-.
  apply plain_tail;
    [apply (not_paren (fun x => Ascii.eqb x "0")); [reflexivity | reflexivity | exact Hc]|].
  apply plain_tail; [apply (not_paren is_x); [reflexivity | reflexivity | exact Hx]|].
  eapply plain_trans; eassumption.
Qed.

Lemma decimal_plain (s : string) (v : spec_float) (r : string) :
  decimal s = Some (v, r) -> plain_suffix r s.
Proof.
  unfold decimal.
  destruct (mantissa 10 C.isdigit s) as [[[m k] r']|] eqn:Hm; [|discriminate].
  apply mantissa_plain in Hm; [|reflexivity|reflexivity].
  pose proof (exponent_plain is_e r' eq_refl eq_refl) as He.
  destruct (exponent is_e r') as [e r'']. cbn [snd] in He.
  intros H; injection H as _ <-. eapply plain_trans; eassumption.
Qed.

Lemma unsigned_plain (s : string) (v : spec_float) (r : string) :
  unsigned s = Some (v, r) -> plain_suffix r s.
Proof.
  unfold unsigned. destruct (hexadecimal s) as [[v' r']|] eqn:Hh.
  - intros H; injection H as _ <-. eapply hexadecimal_plain, Hh.
  - apply decimal_plain.
Qed.

Lemma skip_space_plain (s : string) : plain_suffix (skip_space s) s.
Proof.
  induction s as [|c s IH]; simpl; [apply plain_refl|].
  destruct (C.isspace c) eqn:Hc; [|apply plain_refl].
  apply plain_tail; [|exact IH].
  apply (not_paren C.isspace); [reflexivity | reflexivity | exact Hc].
Qed.

(** [strtod] reads no parenthesis. *)
Lemma strtod_plain (nptr : string) : plain_suffix (snd (strtod nptr)) nptr.
Proof.
  unfold strtod.
  pose proof (sign_plain (skip_space nptr)) as Hbody.
  destruct (sign (skip_space nptr)) as [negative body]. cbn [snd] in Hbody.
  destruct (unsigned body) as [[v end_ptr]|] eqn:Hu; cbn [snd]; [|apply plain_refl].
  apply unsigned_plain in Hu.
  eapply plain_trans; [exact Hu|].
  eapply plain_trans; [exact Hbody | apply skip_space_plain].
Qed.

End StrtodPlain.

Lemma read_symbol_plain (input_ptr : string) (i : Z) :
  plain_suffix (snd (read_symbol input_ptr i)) input_ptr.
Proof.
  revert i. induction input_ptr as [|c rest IH]; intros i; cbn [read_symbol];
    [apply plain_refl|].
  destruct (is_delimiter c) eqn:Hc; [apply plain_refl|].
  destruct (i >=? 256 - 1); [apply plain_refl|].
  specialize (IH (i + 1)).
  assert (Hplain : is_paren c = false).
  { unfold is_delimiter in Hc. unfold is_paren.
    destruct (C.isspace c); [discriminate Hc | exact Hc]. }
  destruct (read_symbol rest (i + 1)) as [[text|] cursor']; cbn [snd] in *;
    apply plain_tail; assumption.
Qed.

(** A token that is not a list holds no parenthesis; the errors it can
    give are the two token errors, or the one of a token that is empty
    because the text starts with a delimiter. *)
Lemma parse_atom_plain (input_ptr : string) (v : pval) (r : string) :
  parse_atom input_ptr = (Some v, r) ->
  plain_suffix r input_ptr
  /\ (is_error v = true ->
      token_error v \/ fst (read_symbol input_ptr 0) = Some EmptyString).
Proof.
  unfold parse_atom, token_error. destruct (starts_number input_ptr).
  { pose proof (StrtodPlain.strtod_plain input_ptr) as Hend.
    destruct (Strtod.strtod input_ptr) as [parsed_num end_ptr]. cbn [snd] in Hend.
    destruct (String.length end_ptr =? String.length input_ptr)%nat;
      intros H; injection H as <- <-.
    - split; [apply plain_refl | auto].
    - split; [exact Hend | discriminate]. }
  destruct (starts_with2 input_ptr "#" "t") as [rest|] eqn:Ht.
  { apply starts_with2_text in Ht. subst input_ptr.
    intros H; injection H as <- <-. split; [|discriminate].
    exists "#t"%string. split; reflexivity. }
  destruct (starts_with2 input_ptr "#" "f") as [rest|] eqn:Hf.
  { apply starts_with2_text in Hf. subst input_ptr.
    intros H; injection H as <- <-. split; [|discriminate].
    exists "#f"%string. split; reflexivity. }
  pose proof (read_symbol_plain input_ptr 0) as Hcur.
  destruct (read_symbol input_ptr 0) as [[[|c text]|] cursor]; cbn [snd fst] in *;
    intros H; injection H as <- <-; (split; [exact Hcur|]); auto; discriminate.
Qed.

Lemma read_symbol_empty (c : ascii) (rest : string) (i : Z) :
  fst (read_symbol (String c rest) i) = Some EmptyString -> is_delimiter c = true.
Proof.
  cbn [read_symbol]. destruct (is_delimiter c); [reflexivity|].
  destruct (i >=? 256 - 1); [discriminate|].
  destruct (read_symbol rest (i + 1)) as [[text|] cursor]; discriminate.
Qed.

(** The list loop and the depth of nesting, the calls of [pval_parse] on
    texts of at most [bound] characters being known to follow it: a list
    is returned after a text that closes one level more than it opens;
    the end-of-text error is returned for a text that leaves a level
    open. *)
Lemma parse_list_depth (bound : nat) :
  (forall s v r, (String.length s <= bound)%nat -> pval_parse s = (Some v, r) ->
     (is_error v = false ->
      exists p, s = (p ++ r)%string /\ forall d, paren_depth p d = Some d)
     /\ (is_error v = true ->
         token_error v
         \/ (is_eof_error v = true
             /\ forall d d', paren_depth s d = Some d' -> (d < d')%nat)
         \/ exists rest, skip_whitespace s = String ")" rest)) ->
  forall n s list_items list_count list_capacity v r,
    (String.length s < n)%nat -> (String.length s <= bound)%nat ->
    parse_list s (Some (PList list_items list_count list_capacity)) = (Some v, r) ->
    (is_error v = false ->
     exists p, s = (p ++ r)%string /\ forall d, paren_depth p (S d) = Some d)
    /\ (is_error v = true ->
        token_error v
        \/ (is_eof_error v = true
            /\ forall d d', paren_depth s (S d) = Some d' -> (d < d')%nat)).
Proof.
  intros Hparse. induction n as [|n IH];
    intros s list_items list_count list_capacity v r Hn Hbound; [lia|].
  rewrite parse_list_unfold.
  destruct (skip_whitespace_plain s) as [blanks [Hs Hblanks]].
  pose proof (suffix_length _ _ (skip_whitespace_suffix s)) as Hlen.
  pose proof (skip_whitespace_first s) as Hfirst.
  destruct (skip_whitespace s) as [|c rest].
  { intros H; injection H as <- <-. split; [discriminate|].
    intros _. right. split; [reflexivity|].
    intros d d'. rewrite Hs, paren_depth_plain by exact Hblanks.
    cbn [paren_depth]. intros H; injection H as <-. lia. }
  specialize (Hfirst c rest eq_refl).
  destruct (Ascii.eqb c ")") eqn:Hc.
  { apply Ascii.eqb_eq in Hc. subst c.
    intros H; injection H as <- <-. split; [|discriminate].
    intros _. exists (blanks ++ ")")%string.
    split; [rewrite append_assoc; exact Hs|].
    intros d. rewrite paren_depth_plain by exact Hblanks. reflexivity. }
  assert (Hsame : skip_whitespace (String c rest) = String c rest)
    by (cbn [skip_whitespace]; rewrite Hfirst; reflexivity).
  destruct (pval_parse_completes _ (String c rest) (Nat.le_refl _))
    as (x & cursor & Hrun & _ & Hmoved).
  injection Hrun as Hrun. rewrite Hrun.
  destruct x as [item|].
  2:{ pose proof (pval_parse_null_iff (String c rest)) as Hnull.
      rewrite Hrun, Hsame in Hnull. destruct Hnull as [Hnull _].
      discriminate (Hnull eq_refl). }
  destruct (Hparse (String c rest) item cursor) as [Hvalue Hfails]; [lia | exact Hrun|].
  destruct (is_error item) eqn:Herr.
  { intros H; injection H as <- <-. split; [rewrite Herr; discriminate|].
    intros _. destruct (Hfails eq_refl) as [Htoken | [[Heof Hopen] | [rest' Hclose]]].
    - left; exact Htoken.
    - right. split; [exact Heof|].
      intros d d'. rewrite Hs, paren_depth_plain by exact Hblanks.
      intros Hd. specialize (Hopen _ _ Hd). lia.
    - rewrite Hsame in Hclose. injection Hclose as -> _. discriminate Hc. }
  specialize (Hmoved item eq_refl Herr).
  destruct (Hvalue eq_refl) as [p [Hp Hbalanced]].
  destruct (pval_add_keeps_list list_items list_count list_capacity (Some item))
    as (items' & count' & capacity' & ->).
  intros Hloop.
  destruct (IH cursor items' count' capacity' v r) as [Hlist Herror];
    [lia | lia | exact Hloop|].
  split.
  - intros Hv. destruct (Hlist Hv) as [p' [Hp' Hcloses]].
    exists (blanks ++ p ++ p')%string. split.
    + rewrite Hs, Hp, Hp' at 1. rewrite !append_assoc. reflexivity.
    + intros d. rewrite paren_depth_plain by exact Hblanks.
      rewrite paren_depth_append, Hbalanced. apply Hcloses.
  - intros Hv. destruct (Herror Hv) as [Htoken | [Heof Hopen]]; [left; exact Htoken|].
    right. split; [exact Heof|].
    intros d d'. rewrite Hs, paren_depth_plain by exact Hblanks.
    rewrite Hp, paren_depth_append, Hbalanced. apply Hopen.
Qed.

(** [pval_parse] and the depth of nesting: a value that is not an error
    is returned after a text that closes what it opens; the end-of-text
    error for a text that leaves a level open; the error of an empty token
    only in front of a closing parenthesis. *)
Lemma pval_parse_depth (s : string) (v : pval) (r : string) :
  pval_parse s = (Some v, r) ->
  (is_error v = false ->
   exists p, s = (p ++ r)%string /\ forall d, paren_depth p d = Some d)
  /\ (is_error v = true ->
      token_error v
      \/ (is_eof_error v = true
          /\ forall d d', paren_depth s d = Some d' -> (d < d')%nat)
      \/ exists rest, skip_whitespace s = String ")" rest).
Proof.
  remember (String.length s) as n eqn:Hn.
  assert (Hle : (String.length s <= n)%nat) by lia. clear Hn.
  revert s v r Hle. induction n as [|n IH]; intros s v r Hle.
  { destruct s; [|simpl in Hle; lia]. rewrite pval_parse_unfold. discriminate. }
  rewrite pval_parse_unfold.
  destruct (skip_whitespace_plain s) as [blanks [Hs Hblanks]].
  pose proof (suffix_length _ _ (skip_whitespace_suffix s)) as Hlen.
  pose proof (skip_whitespace_first s) as Hfirst.
  destruct (skip_whitespace s) as [|c rest]; [discriminate|].
  specialize (Hfirst c rest eq_refl). simpl in Hlen.
  destruct (Ascii.eqb c "(") eqn:Hc.
  - apply Ascii.eqb_eq in Hc. subst c. unfold pval_list. intros Hloop.
    destruct (parse_list_depth n (fun s' v' r' Hs' => IH s' v' r' Hs')
                (S (String.length rest)) rest [] 0 4 v r) as [Hlist Herror];
      [lia | lia | exact Hloop|].
    split.
    + intros Hv. destruct (Hlist Hv) as [p [Hp Hcloses]].
      exists (blanks ++ String "(" p)%string. split.
      * rewrite Hs, Hp at 1. rewrite append_assoc. reflexivity.
      * intros d. rewrite paren_depth_plain by exact Hblanks. apply Hcloses.
    + intros Hv. destruct (Herror Hv) as [Htoken | [Heof Hopen]]; [left; exact Htoken|].
      right; left. split; [exact Heof|].
      intros d d'. rewrite Hs, paren_depth_plain by exact Hblanks. apply Hopen.
  - intros Hatom. destruct (parse_atom_plain _ _ _ Hatom) as [[p [Hp Hplain]] Herror].
    split.
    + intros _. exists (blanks ++ p)%string. split.
      * rewrite Hs, Hp at 1. rewrite append_assoc. reflexivity.
      * intros d. apply paren_depth_no_paren.
        rewrite no_paren_append, Hblanks, Hplain. reflexivity.
    + intros Hv. destruct (Herror Hv) as [Htoken | Hempty]; [left; exact Htoken|].
      right; right. exists rest. f_equal.
      apply read_symbol_empty in Hempty. unfold is_delimiter in Hempty.
      rewrite Hfirst, Hc in Hempty. apply Ascii.eqb_eq in Hempty. exact Hempty.
Qed.

(** ** Lists: the loop and the matching parenthesis *)

Lemma is_eof_error_text (v : pval) :
  is_eof_error v = true -> v = PError "SyntaxError" "Unexpected EOF, expected ')'".
Proof.
  destruct v as [n | b | name | items count cap | f | t m]; try discriminate.
  cbn [is_eof_error]. intros H. apply andb_true_iff in H. destruct H as [Ht Hm].
  apply String.eqb_eq in Ht, Hm. subst t m. reflexivity.
Qed.

(** One turn of the list loop in front of an element: the element is
    parsed, and the loop ends with its error or goes on, after it, with
    the list it was appended to. *)
Lemma parse_list_turn (s : string) (l : option pval) (c : ascii) (rest : string) :
  skip_whitespace s = String c rest -> c <> ")"%char ->
  exists item cursor,
    pval_parse (String c rest) = (Some item, cursor)
    /\ (is_error item = false ->
        (String.length cursor < String.length (String c rest))%nat)
    /\ parse_list s l
       = if is_error item then (Some item, cursor)
         else parse_list cursor (pval_add l (Some item)).
Proof.
  intros Hs Hc.
  pose proof (skip_whitespace_first s c rest Hs) as Hfirst.
  assert (Hsame : skip_whitespace (String c rest) = String c rest)
    by (cbn [skip_whitespace]; rewrite Hfirst; reflexivity).
  destruct (pval_parse_completes _ (String c rest) (Nat.le_refl _))
    as (x & cursor & Hrun & _ & Hmoved).
  injection Hrun as Hrun.
  destruct x as [item|].
  2:{ pose proof (pval_parse_null_iff (String c rest)) as Hnull.
      rewrite Hrun, Hsame in Hnull. destruct Hnull as [Hnull _].
      discriminate (Hnull eq_refl). }
  exists item, cursor. split; [exact Hrun|]. split; [apply Hmoved; reflexivity|].
  rewrite parse_list_unfold, Hs.
  replace (Ascii.eqb c ")") with false by (symmetry; apply Ascii.eqb_neq, Hc).
  rewrite Hrun. reflexivity.
Qed.

(** The list loop returns a list only at the closing parenthesis that
    matches: what it read before that parenthesis closes every
    parenthesis it opens, and no other. *)
Lemma parse_list_matching (n : nat) :
  forall (s : string) (list_items : list pval) (list_count list_capacity : Z)
         (v : pval) (r : string),
    (String.length s < n)%nat ->
    parse_list s (Some (PList list_items list_count list_capacity)) = (Some v, r) ->
    is_error v = false ->
    type v = PVAL_LIST
    /\ exists inner, s = (inner ++ ")" ++ r)%string
                     /\ forall d, paren_depth inner d = Some d.
Proof.
  induction n as [|n IH];
    intros s list_items list_count list_capacity v r Hn; [lia|].
  rewrite parse_list_unfold.
  destruct (skip_whitespace_plain s) as [blanks [Hs Hblanks]].
  pose proof (suffix_length _ _ (skip_whitespace_suffix s)) as Hlen.
  destruct (skip_whitespace s) as [|c rest].
  { intros H; injection H as <- _. discriminate. }
  destruct (Ascii.eqb c ")") eqn:Hc.
  { apply Ascii.eqb_eq in Hc. subst c. intros H; injection H as <- <-. intros _.
    split; [reflexivity|]. exists blanks. split; [exact Hs|].
    intros d. apply paren_depth_no_paren, Hblanks. }
  destruct (pval_parse_completes _ (String c rest) (Nat.le_refl _))
    as (x & cursor & Hrun & _ & Hmoved).
  injection Hrun as Hrun. rewrite Hrun.
  destruct x as [item|]; [|intros H; injection H as <- _; discriminate].
  destruct (pval_parse_depth _ _ _ Hrun) as [Hvalue _].
  destruct (is_error item) eqn:Herr.
  { intros H; injection H as <- _. rewrite Herr. discriminate. }
  specialize (Hmoved item eq_refl Herr).
  destruct (Hvalue eq_refl) as [p [Hp Hbalanced]].
  destruct (pval_add_keeps_list list_items list_count list_capacity (Some item))
    as (items' & count' & capacity' & ->).
  intros Hloop Hv.
  destruct (IH cursor items' count' capacity' v r ltac:(lia) Hloop Hv)
    as [Htag [inner [Hcursor Hinner]]].
  split; [exact Htag|].
  exists (blanks ++ p ++ inner)%string. split.
  - rewrite Hs, Hp, Hcursor at 1. rewrite !append_assoc. reflexivity.
  - intros d. rewrite paren_depth_plain by exact Hblanks.
    rewrite paren_depth_append, Hbalanced. apply Hinner.
Qed.

(** C6, the claim as stated fails on the text of the message: the error of
    a list that is not closed reads "Unexpected EOF, expected ')'". *)
Lemma pval_parse_unclosed_list_message :
  pval_parse "(" = (Some (PError "SyntaxError" "Unexpected EOF, expected ')'"), ""%string)
  /\ "Unexpected EOF, expected ')'"%string
     <> "unexpected end of input, expected closing parenthesis"%string.
Proof.
  split; [vm_compute; reflexivity | discriminate].
Qed.

(** C6, amended.  A text that starts, after white space, with an opening
    parenthesis is parsed by the list loop on a fresh empty list.  Each
    turn of that loop skips white space and then: the end of the text
    yields the SyntaxError "Unexpected EOF, expected ')'"; a closing
    parenthesis ends the loop with the list built so far and the cursor
    right after it; anything else is parsed as an element, and the loop
    ends with the error of that element, whatever list was built so far,
    or goes on after the element with the list it was appended to.  So a
    parse that returns a value that is not an error returns a list, the
    cursor right after the closing parenthesis that matches the opening
    one; and when no closing parenthesis of the text matches it the parse
    returns that SyntaxError, or the error of an element met before the
    end. *)
Theorem pval_parse_list :
  (forall s rest, skip_whitespace s = String "(" rest ->
      pval_parse s = parse_list rest (Some pval_list))
  /\ (forall s l, skip_whitespace s = EmptyString ->
        parse_list s l
        = (Some (PError "SyntaxError" "Unexpected EOF, expected ')'"), EmptyString))
  /\ (forall s l rest, skip_whitespace s = String ")" rest -> parse_list s l = (l, rest))
  /\ (forall s l c rest,
        skip_whitespace s = String c rest -> c <> ")"%char ->
        exists item cursor,
          pval_parse (String c rest) = (Some item, cursor)
          /\ (is_error item = false ->
              (String.length cursor < String.length (String c rest))%nat)
          /\ parse_list s l
             = if is_error item then (Some item, cursor)
               else parse_list cursor (pval_add l (Some item)))
  /\ (forall s rest v cursor,
        skip_whitespace s = String "(" rest ->
        pval_parse s = (Some v, cursor) -> is_error v = false ->
        type v = PVAL_LIST
        /\ exists inner, rest = (inner ++ ")" ++ cursor)%string
                         /\ paren_depth inner 0 = Some O)
  /\ (forall s rest,
        skip_whitespace s = String "(" rest ->
        (forall inner r, rest = (inner ++ ")" ++ r)%string ->
                         paren_depth inner 0 <> Some O) ->
        exists v cursor,
          pval_parse s = (Some v, cursor)
          /\ (v = PError "SyntaxError" "Unexpected EOF, expected ')'"
              \/ token_error v)).
Proof.
  assert (Hmatch : forall s rest v cursor,
            skip_whitespace s = String "(" rest ->
            pval_parse s = (Some v, cursor) -> is_error v = false ->
            type v = PVAL_LIST
            /\ exists inner, rest = (inner ++ ")" ++ cursor)%string
                             /\ paren_depth inner 0 = Some O).
  { intros s rest v cursor Hs Hrun Hv.
    rewrite pval_parse_unfold, Hs in Hrun. cbn [Ascii.eqb Bool.eqb] in Hrun.
    unfold pval_list in Hrun.
    destruct (parse_list_matching (S (String.length rest)) rest [] 0 4 v cursor
                (Nat.lt_succ_diag_r _) Hrun Hv) as [Htag [inner [Hrest Hinner]]].
    split; [exact Htag|]. exists inner. split; [exact Hrest | apply Hinner]. }
  split.
  { intros s rest Hs. rewrite pval_parse_unfold, Hs. reflexivity. }
  split.
  { intros s l Hs. rewrite parse_list_unfold, Hs. reflexivity. }
  split.
  { intros s l rest Hs. rewrite parse_list_unfold, Hs. reflexivity. }
  split; [exact parse_list_turn|].
  split; [exact Hmatch|].
  intros s rest Hs Hopen.
  destruct (pval_parse s) as [[v|] cursor] eqn:Hrun.
  2:{ pose proof (pval_parse_null_iff s) as Hnull. rewrite Hrun, Hs in Hnull.
      destruct Hnull as [Hnull _]. discriminate (Hnull eq_refl). }
  exists v, cursor. split; [reflexivity|].
  destruct (pval_parse_depth _ _ _ Hrun) as [_ Herror].
  destruct (is_error v) eqn:Hv.
  - destruct (Herror eq_refl) as [Htoken | [[Heof _] | [rest' Hclose]]].
    + right. exact Htoken.
    + left. apply is_eof_error_text, Heof.
    + rewrite Hs in Hclose. discriminate Hclose.
  - destruct (Hmatch s rest v cursor Hs Hrun Hv) as [_ [inner [Hrest Hinner]]].
    exfalso. exact (Hopen inner cursor Hrest Hinner).
Qed.

Lemma pval_parse_list_witness :
  pval_parse " (1 2" = parse_list "1 2" (Some pval_list)
  /\ parse_list "  " (Some pval_list)
     = (Some (PError "SyntaxError" "Unexpected EOF, expected ')'"), EmptyString)
  /\ parse_list " ) x" (Some pval_list) = (Some pval_list, " x"%string)
  /\ (exists item cursor,
        pval_parse "(a) b) c" = (Some item, cursor)
        /\ (is_error item = false ->
            (String.length cursor < String.length "(a) b) c")%nat)
        /\ parse_list " (a) b) c" (Some pval_list)
           = if is_error item then (Some item, cursor)
             else parse_list cursor (pval_add (Some pval_list) (Some item)))
  /\ (type (PList [PList [PSymbol "a"] 1 4; PSymbol "b"] 2 4) = PVAL_LIST
      /\ exists inner, "(a) b) c"%string = (inner ++ ")" ++ " c")%string
                       /\ paren_depth inner 0 = Some O)
  /\ (exists v cursor,
        pval_parse "((a)" = (Some v, cursor)
        /\ (v = PError "SyntaxError" "Unexpected EOF, expected ')'"
            \/ token_error v)).
Proof.
  destruct pval_parse_list as (Hopen & Heof & Hclose & Hturn & Hdone & Hunclosed).
  split; [apply Hopen; reflexivity|].
  split; [apply Heof; reflexivity|].
  split; [apply Hclose; reflexivity|].
  split.
  { apply (Hturn " (a) b) c"%string (Some pval_list) "("%char "a) b) c"%string).
    - reflexivity.
    - discriminate. }
  split.
  { apply (Hdone "((a) b) c"%string "(a) b) c"%string).
    - reflexivity.
    - vm_compute. reflexivity.
    - reflexivity. }
  apply (Hunclosed "((a)"%string "(a)"%string); [reflexivity|].
  intros inner r Hrest Hinner.
  destruct inner as [|c0 inner]; cbn [append] in Hrest; [discriminate Hrest|].
  injection Hrest as Hc0 Hrest. subst c0.
  destruct inner as [|c1 inner]; cbn [append] in Hrest; [discriminate Hrest|].
  injection Hrest as Hc1 Hrest. subst c1.
  destruct inner as [|c2 inner]; cbn [append] in Hrest; [discriminate Hinner|].
  injection Hrest as Hc2 Hrest. destruct inner; discriminate Hrest.
Defined.

Lemma check_balanced_parens_depth (input_str : string) (paren_stack : Stack) :
  fst (check_balanced_parens input_str paren_stack) = true
  <-> paren_depth input_str 0 = Some O.
Proof.
  unfold check_balanced_parens. rewrite scan_parens_depth, clear_stack_empty.
  cbn [fst length].
  destruct (paren_depth input_str 0) as [[|k]|]; split; try reflexivity; discriminate.
Qed.

(** X13.  On a line that passed the parenthesis check, as every line
    [main] hands to the parser has, the parser never reports a list the
    text ends in nor an empty token: the only errors left are "Invalid
    number format" and "Symbol too long".  When it returns a value, what
    it leaves unread passes the check as well. *)
Theorem pval_parse_after_check (input_buffer : string) (paren_stack : Stack)
        (parsed_value : pval) (parse_ptr : string) :
  fst (check_balanced_parens input_buffer paren_stack) = true ->
  pval_parse input_buffer = (Some parsed_value, parse_ptr) ->
  (is_error parsed_value = true ->
   parsed_value = PError "SyntaxError" "Invalid number format"
   \/ parsed_value = PError "SyntaxError" "Symbol too long")
  /\ (is_error parsed_value = false ->
      forall stack, fst (check_balanced_parens parse_ptr stack) = true).
Proof.
  intros Hcheck Hrun. apply check_balanced_parens_depth in Hcheck.
  destruct (pval_parse_depth _ _ _ Hrun) as [Hvalue Herror]. split.
  - intros Hv. destruct (Herror Hv) as [Htoken | [[_ Hopen] | [rest Hclose]]].
    + exact Htoken.
    + specialize (Hopen _ _ Hcheck). lia.
    + destruct (skip_whitespace_plain input_buffer) as [blanks [Hs Hblanks]].
      rewrite Hclose in Hs. rewrite Hs, paren_depth_plain in Hcheck by exact Hblanks.
      discriminate Hcheck.
  - intros Hv stack. apply check_balanced_parens_depth.
    destruct (Hvalue Hv) as [p [Hp Hbalanced]].
    rewrite Hp, paren_depth_append, Hbalanced in Hcheck. exact Hcheck.
Qed.

Lemma pval_parse_after_check_witness :
  (PError "SyntaxError" "Invalid number format"
   = PError "SyntaxError" "Invalid number format"
   \/ PError "SyntaxError" "Invalid number format"
      = PError "SyntaxError" "Symbol too long")
  /\ fst (check_balanced_parens " (a)" [40]) = true.
Proof.
  split.
  - apply (pval_parse_after_check "(+ 1 . 2)" [] _ ". 2)");
      vm_compute; reflexivity.
  - apply (pval_parse_after_check "(+ 1 2) (a)" []
             (PList [PSymbol "+"; PNumber 1; PNumber 2] 3 4) " (a)");
      vm_compute; reflexivity.
Defined.

(** ** Evaluating what the parser returns *)

(** Induction on a value, the elements of a list included. *)
Lemma pval_items_ind (P : pval -> Prop) :
  (forall number, P (PNumber number)) ->
  (forall boolean, P (PBool boolean)) ->
  (forall symbol, P (PSymbol symbol)) ->
  (forall list_items list_count list_capacity,
      Forall P list_items -> P (PList list_items list_count list_capacity)) ->
  (forall function, P (PFunction function)) ->
  (forall error_type error_message, P (PError error_type error_message)) ->
  forall v, P v.
Proof.
  intros Hnumber Hbool Hsymbol Hlist Hfunction Herror.
  fix IH 1. intros [n | b | name | items count cap | f | t m];
    [apply Hnumber | apply Hbool | apply Hsymbol | | apply Hfunction | apply Herror].
  apply Hlist. induction items as [|item items IHitems]; constructor;
    [apply IH | exact IHitems].
Qed.

Lemma call_error_kind (function : builtin_function_ptr) (args : list pval)
      (kind : string) :
  error_kind (call function args) = Some kind ->
  In kind [ "TypeError"; "ArityError"; "DivisionByZeroError" ]%string.
Proof.
  destruct function; cbn [call].
  - unfold builtin_add. destruct args as [|a args]; [discriminate|].
    rewrite add_loop_spec. destruct (forallb is_number (a :: args)); [discriminate|].
    intros H; injection H as <-. simpl; tauto.
  - unfold builtin_sub. destruct args as [|[] [|[] [|]]];
      intros H; try discriminate H; injection H as <-; simpl; tauto.
  - unfold builtin_mul. destruct args as [|a args]; [discriminate|].
    rewrite mul_loop_spec. destruct (forallb is_number (a :: args)); [discriminate|].
    intros H; injection H as <-. simpl; tauto.
  - unfold builtin_div. destruct args as [|[] [|[] [|]]];
      try (intros H; try discriminate H; injection H as <-; simpl; tauto).
    destruct (_ =? _)%float; intros H; try discriminate H.
    injection H as <-. simpl; tauto.
  - unfold builtin_eq. destruct args as [|[] [|[] [|]]]; cbn;
      intros H; try discriminate H; injection H as <-; simpl; tauto.
  - unfold builtin_quit. destruct args; intros H; try discriminate H.
    injection H as <-. simpl; tauto.
Qed.

(** When the count is the number of slots, the error the loop returns is
    the result of evaluating one of them. *)
Lemma eval_items_outcome (eval : pval -> list pval * pval) (list_count : Z)
      (Q : pval -> Prop) (slots : list pval) (i : Z) (calls : list pval)
      (error_result : pval) :
  i + Z.of_nat (length slots) = list_count ->
  Forall (fun v => Q (snd (eval v))) slots ->
  eval_items eval list_count slots i = (calls, inl error_result) ->
  Q error_result.
Proof.
  revert i calls error_result.
  induction slots as [|item slots IH]; intros i calls error_result Hlen Hall;
    cbn [eval_items].
  - replace (i <? list_count) with false
      by (symmetry; apply Z.ltb_ge; simpl in Hlen; lia).
    discriminate.
  - cbn [length] in Hlen. apply Forall_cons_iff in Hall. destruct Hall as [Hitem Hrest].
    destruct (i <? list_count); [|discriminate].
    destruct (eval item) as [calls_item evaluated]. cbn [snd] in Hitem.
    destruct (eval_items eval list_count slots (i + 1)) as [calls_rest [e|vs]] eqn:Hloop.
    + assert (He : Q e) by (eapply (IH (i + 1)); [lia | exact Hrest | exact Hloop]).
      destruct evaluated; intros H; injection H as _ <-; assumption.
    + destruct evaluated; intros H; try discriminate H.
      injection H as _ <-. exact Hitem.
Qed.

(** X14.  Evaluating data as the parser builds it, made of numbers,
    booleans, symbols and well-formed lists of such, gives an error of five
    kinds only: UnboundError, InapplicableHeadError, TypeError, ArityError
    and DivisionByZeroError.  The ListError and EvalError exits of the
    evaluator are never taken on it. *)
Theorem pval_eval_data_errors (input_value : pval) :
  is_data input_value = true -> pval_wf input_value = true ->
  forall kind, error_kind (pval_eval input_value) = Some kind ->
    In kind evaluation_errors.
Proof.
  revert input_value.
  apply (pval_items_ind
           (fun v => is_data v = true -> pval_wf v = true ->
                     forall kind, error_kind (pval_eval v) = Some kind ->
                                  In kind evaluation_errors)).
  - intros number Hdata Hwf kind H. discriminate H.
  - intros boolean Hdata Hwf kind H. discriminate H.
  - intros symbol Hdata Hwf kind. unfold pval_eval. cbn [pval_eval_log snd].
    destruct (lookup symbol builtins); [discriminate|].
    intros H; injection H as <-. simpl; tauto.
  - intros list_items list_count list_capacity IH Hdata Hwf kind.
    cbn [is_data] in Hdata. cbn [pval_wf] in Hwf.
    apply andb_true_iff in Hwf. destruct Hwf as [Hwf Hitems].
    apply andb_true_iff in Hwf. destruct Hwf as [Hwf _].
    apply andb_true_iff in Hwf. destruct Hwf as [Hwf _].
    apply andb_true_iff in Hwf. destruct Hwf as [Hcount _].
    apply Z.eqb_eq in Hcount.
    destruct list_items as [|item rest].
    { subst list_count. discriminate. }
    assert (Hpos : 0 < list_count) by (subst list_count; cbn [length]; lia).
    unfold pval_eval. rewrite pval_eval_log_list by exact Hpos. cbn [snd].
    destruct (eval_items pval_eval_log list_count (item :: rest) 0)
      as [calls [e | evaluated_items]] eqn:Hloop; cbn [snd].
    + revert kind.
      apply (eval_items_outcome pval_eval_log list_count
               (fun x => forall kind, error_kind x = Some kind ->
                                      In kind evaluation_errors)
               (item :: rest) 0 calls e); [lia | | exact Hloop].
      apply Forall_forall. intros x Hx.
      rewrite Forall_forall in IH. rewrite forallb_forall in Hdata, Hitems.
      exact (IH x Hx (Hdata x Hx) (Hitems x Hx)).
    + unfold apply_head. destruct evaluated_items as [|[] function_args];
        try (intros H; injection H as <-; simpl; tauto).
      intros H. apply call_error_kind in H. simpl in *. tauto.
  - intros function H. discriminate H.
  - intros error_type error_message H. discriminate H.
Qed.

Lemma pval_eval_data_errors_witness :
  In "DivisionByZeroError"%string evaluation_errors.
Proof.
  apply (pval_eval_data_errors (PList [PSymbol "/"; PNumber 1; PNumber 0] 3 4));
    vm_compute; reflexivity.
Defined.

(** ** Integers: printing and reading back *)

Lemma to_int32_of_int32 (z : Z) :
  C.int32_range z ->
  Double.to_int32 (Double.of_int32 z) = z
  /\ (Double.of_int32 z =? Double.of_int32 z)%float = true.
Proof.
  unfold C.int32_range, C.INT32_MIN, C.INT32_MAX. change (2 ^ 31) with 2147483648.
  intros Hz. rewrite FloatAxioms.eqb_spec. unfold Double.to_int32.
  assert (Hcase : z = 0 \/ exists s p, z = cond_Zopp s (Zpos p) /\ Zpos p <= 2 ^ 31).
  { change (2 ^ 31) with 2147483648.
    destruct z as [|p|p]; [left; reflexivity| |].
    - right. exists false, p. split; [reflexivity | lia].
    - right. exists true, p. split; [reflexivity | lia]. }
  destruct Hcase as [-> | (s & p & Hzp & Hp)].
  { rewrite Prim2SF_of_int32_zero. split; reflexivity. }
  rewrite Hzp. destruct (Prim2SF_of_int32 s p Hp) as (m & -> & Hm).
  pose proof (digits2_pos_le p 31 ltac:(lia) Hp) as Hd.
  split; [|apply SFeqb_finite; repeat split].
  rewrite Z.shiftl_div_pow2 by lia.
  replace (- (Zpos (digits2_pos p) - 53)) with (53 - Zpos (digits2_pos p)) by lia.
  rewrite Hm, Z.div_mul by (apply Z.pow_nonzero; lia).
  rewrite <- Hzp. unfold Double.clamp_int32, C.INT32_MIN, C.INT32_MAX.
  change (2 ^ 31) with 2147483648. lia.
Qed.

Lemma delimiter_not_char (c x : ascii) :
  is_delimiter c = true -> is_delimiter x = false -> Ascii.eqb c x = false.
Proof.
  intros Hc Hx. destruct (Ascii.eqb_spec c x) as [-> | _]; [congruence | reflexivity].
Qed.

Lemma digit_not_char (c x : ascii) :
  C.isdigit c = true -> C.isdigit x = false -> Ascii.eqb c x = false.
Proof.
  intros Hc Hx. destruct (Ascii.eqb_spec c x) as [-> | _]; [congruence | reflexivity].
Qed.

Lemma digit_not_space (c : ascii) : C.isdigit c = true -> C.isspace c = false.
Proof.
  unfold C.isdigit, C.isspace. intros H.
  apply andb_true_iff in H. destruct H as [Hlo Hhi].
  apply Z.leb_le in Hlo, Hhi. apply orb_false_iff.
  split; [apply Z.eqb_neq; lia | apply andb_false_iff; right; apply Z.leb_gt; lia].
Qed.

Module StrtodDecimal.

Import Strtod.

Lemma digits_step (c : ascii) (s : string) (acc n : Z) :
  C.isdigit c = true ->
  digits 10 C.isdigit (String c s) acc n
  = digits 10 C.isdigit s (acc * 10 + digit_value c) (n + 1).
Proof.
  intros H. cbn [digits]. rewrite H. reflexivity.
Qed.

Lemma digits_stop (r : string) (acc n : Z) :
  ends_token r = true -> digits 10 C.isdigit r acc n = (acc, n, r).
Proof.
  destruct r as [|c r]; [reflexivity|]. cbn [ends_token digits]. intros H.
  rewrite (delimiter_not_digit c H). reflexivity.
Qed.

Ltac digit_value_step :=
  rewrite digits_step by reflexivity;
  match goal with
  | |- digits _ _ _ ?a _ = _ =>
      match a with
      | context [digit_value ?c] =>
          let v := eval vm_compute in (digit_value c) in
          change (digit_value c) with v
      end
  end.

(** The digits of a decimal numeral, read after a number that is not
    zero. *)
Lemma digits_of_uint_acc (d : Decimal.uint) (r : string) :
  ends_token r = true ->
  forall (acc : positive) (n : Z),
    digits 10 C.isdigit (NilEmpty.string_of_uint d ++ r) (Zpos acc) n
    = (Zpos (Pos.of_uint_acc d acc), n + Z.of_nat (Decimal.nb_digits d), r).
Proof.
  intros Hr.
  induction d as [|d IH|d IH|d IH|d IH|d IH|d IH|d IH|d IH|d IH|d IH]; intros acc n;
    cbn [NilEmpty.string_of_uint append Pos.of_uint_acc Decimal.nb_digits].
  { rewrite digits_stop by exact Hr. f_equal. f_equal. lia. }
  all: digit_value_step.
  all: match goal with
       | |- digits _ _ _ ?a _ = (Zpos (Pos.of_uint_acc _ ?b), _, _) =>
           replace a with (Zpos b) by lia
       end.
  all: rewrite IH; f_equal; f_equal; lia.
Qed.

(** The digits of a decimal numeral give its value. *)
Lemma digits_of_uint (d : Decimal.uint) (r : string) :
  ends_token r = true ->
  forall n : Z,
    digits 10 C.isdigit (NilEmpty.string_of_uint d ++ r) 0 n
    = (Z.of_N (Pos.of_uint d), n + Z.of_nat (Decimal.nb_digits d), r).
Proof.
  intros Hr.
  induction d as [|d IH|d IH|d IH|d IH|d IH|d IH|d IH|d IH|d IH|d IH]; intros n;
    cbn [NilEmpty.string_of_uint append Pos.of_uint Decimal.nb_digits].
  { rewrite digits_stop by exact Hr. f_equal. f_equal. lia. }
  all: digit_value_step.
  all: match goal with
       | |- digits _ _ _ ?a _ = _ =>
           let v := eval vm_compute in a in change a with v
       end.
  all: first [rewrite IH | rewrite digits_of_uint_acc by exact Hr];
    cbn [Z.of_N]; f_equal; f_equal; lia.
Qed.

Lemma unsigned_decimal (s r : string) (v n : Z) :
  digits 10 C.isdigit s 0 0 = (v, n, r) -> n <> 0 -> ends_token r = true ->
  unsigned s = Some (decimal_value v 0, r).
Proof.
  intros Hd Hn Hr. unfold unsigned.
  assert (Hhex : hexadecimal s = None).
  { unfold hexadecimal. destruct s as [|c [|x s']]; try reflexivity.
    destruct (Ascii.eqb c "0") eqn:Hc; [|reflexivity].
    destruct (is_x x) eqn:Hx; [|reflexivity]. exfalso.
    apply Ascii.eqb_eq in Hc. subst c.
    assert (Hplain : C.isdigit x = false /\ is_delimiter x = false).
    { unfold is_x in Hx. apply orb_true_iff in Hx.
      destruct Hx as [Hx | Hx]; apply Ascii.eqb_eq in Hx; subst x; split; reflexivity. }
    destruct Hplain as [Hdigit Hdelim].
    rewrite digits_step in Hd by reflexivity.
    cbn [digits] in Hd. rewrite Hdigit in Hd. injection Hd as _ _ <-.
    cbn [ends_token] in Hr. congruence. }
  rewrite Hhex. unfold decimal, mantissa. rewrite Hd.
  assert (Hn0 : (n =? 0) = false) by (apply Z.eqb_neq; exact Hn).
  destruct r as [|c r2].
  - rewrite Hn0. reflexivity.
  - cbn [ends_token] in Hr.
    rewrite (delimiter_not_char c "." Hr eq_refl), Hn0.
    unfold exponent, is_e.
    rewrite (delimiter_not_char c "e" Hr eq_refl), (delimiter_not_char c "E" Hr eq_refl).
    reflexivity.
Qed.

(** [strtod] on a decimal numeral, with or without a minus sign, that a
    delimiter or the end of the text follows. *)
Lemma strtod_decimal (negative : bool) (c : ascii) (t r : string) (v n : Z) :
  C.isdigit c = true ->
  digits 10 C.isdigit (String c t) 0 0 = (v, n, r) -> n <> 0 -> ends_token r = true ->
  strtod ((if negative then "-" else "") ++ String c t)
  = (if negative then PrimFloat.opp (SF2Prim (decimal_value v 0))
     else SF2Prim (decimal_value v 0), r).
Proof.
  intros Hc Hd Hn Hr. pose proof (unsigned_decimal _ _ _ _ Hd Hn Hr) as Hu.
  unfold strtod. destruct negative; cbn [append].
  - change (skip_space (String "-" (String c t))) with (String "-" (String c t)).
    change (sign (String "-" (String c t))) with (true, String c t).
    cbv beta iota. rewrite Hu. reflexivity.
  - assert (Hskip : skip_space (String c t) = String c t)
      by (cbn [skip_space]; rewrite (digit_not_space c Hc); reflexivity).
    rewrite Hskip. unfold sign.
    rewrite (digit_not_char c "-" Hc eq_refl), (digit_not_char c "+" Hc eq_refl).
    cbv beta iota. rewrite Hu. reflexivity.
Qed.

End StrtodDecimal.

(** The text of [%d]: an optional minus sign and the decimal numeral of
    the magnitude, which starts with a digit. *)
Lemma printf_d_text (z : Z) :
  exists d c t,
    Double.printf_d z
    = ((if (z <? 0)%Z then "-" else "") ++ NilEmpty.string_of_uint d)%string
    /\ NilEmpty.string_of_uint d = String c t /\ C.isdigit c = true
    /\ Z.of_N (Pos.of_uint d) = Z.abs z.
Proof.
  assert (Hdigit : forall d, d <> Decimal.Nil ->
            exists c t, NilEmpty.string_of_uint d = String c t /\ C.isdigit c = true).
  { intros d Hd. destruct d; [contradiction|..]; eexists _, _; split; reflexivity. }
  assert (Hnil : forall p, Pos.to_uint p <> Decimal.Nil).
  { intros p E. pose proof (DecimalPos.Unsigned.of_to p) as H.
    rewrite E in H. discriminate H. }
  assert (Htext : forall p,
            NilZero.string_of_uint (Pos.to_uint p)
            = NilEmpty.string_of_uint (Pos.to_uint p)).
  { intros p. specialize (Hnil p). unfold NilZero.string_of_uint.
    destruct (Pos.to_uint p); [contradiction|..]; reflexivity. }
  unfold Double.printf_d. destruct z as [|p|p]; cbn [Z.to_int NilZero.string_of_int].
  - exists (Decimal.D0 Decimal.Nil), "0"%char, EmptyString. repeat split.
  - destruct (Hdigit _ (Hnil p)) as (c & t & Hct & Hc).
    exists (Pos.to_uint p), c, t. rewrite Htext.
    split; [reflexivity|]. split; [exact Hct|]. split; [exact Hc|].
    rewrite DecimalPos.Unsigned.of_to. reflexivity.
  - destruct (Hdigit _ (Hnil p)) as (c & t & Hct & Hc).
    exists (Pos.to_uint p), c, t. rewrite Htext.
    split; [reflexivity|]. split; [exact Hct|]. split; [exact Hc|].
    rewrite DecimalPos.Unsigned.of_to. reflexivity.
Qed.

(** The double [strtod] gives for the numeral of an [int32_t] magnitude
    is the conversion of the integer. *)
Lemma decimal_value_of_int32 (z : Z) :
  0 <= z <= 2 ^ 31 ->
  SF2Prim (Strtod.decimal_value z 0) = PrimFloat.of_uint63 (Uint63.of_Z z).
Proof.
  intros Hz. rewrite <- (FloatAxioms.SF2Prim_Prim2SF (of_uint63 (Uint63.of_Z z))).
  f_equal. rewrite of_uint63_spec, Uint63.of_Z_spec.
  rewrite Z.mod_small
    by (change (2 ^ 31) with 2147483648 in Hz; change wB with 9223372036854775808; lia).
  unfold Strtod.decimal_value. destruct (Z.eqb_spec z 0) as [-> | Hnz]; [reflexivity|].
  change (0 <=? 0) with true. cbv iota.
  rewrite Z.pow_0_r, Z.mul_1_r. reflexivity.
Qed.

(** The numeral of an [int32_t], followed by a delimiter or the end of
    the text, is parsed to the number of that integer. *)
Lemma pval_parse_printf_d (z : Z) (r : string) :
  C.int32_range z -> ends_token r = true ->
  pval_parse (Double.printf_d z ++ r) = (Some (PNumber (Double.of_int32 z)), r).
Proof.
  intros Hz Hr.
  destruct (printf_d_text z) as (d & c & t & -> & Hct & Hc & Hvalue).
  pose proof (StrtodDecimal.digits_of_uint d r Hr 0) as Hdigits.
  rewrite Hvalue, Hct in Hdigits.
  assert (Hcount : 0 + Z.of_nat (Decimal.nb_digits d) <> 0).
  { destruct d; [discriminate Hct|..]; cbn [Decimal.nb_digits]; lia. }
  rewrite Hct.
  assert (Hrange : 0 <= Z.abs z <= 2 ^ 31).
  { unfold C.int32_range, C.INT32_MIN, C.INT32_MAX in Hz.
    change (2 ^ 31) with 2147483648 in *. lia. }
  assert (Hlen : forall sign_text : string,
            (String.length r =? String.length ((sign_text ++ String c t) ++ r))%nat
            = false).
  { intros sign_text. apply Nat.eqb_neq. rewrite !length_append. cbn [String.length]. lia. }
  assert (Hstrtod : forall negative : bool,
            Strtod.strtod (((if negative then "-" else "") ++ String c t) ++ r)
            = (if negative
               then PrimFloat.opp (PrimFloat.of_uint63 (Uint63.of_Z (Z.abs z)))
               else PrimFloat.of_uint63 (Uint63.of_Z (Z.abs z)), r)).
  { intros negative. rewrite append_assoc.
    change (String c t ++ r)%string with (String c (t ++ r)) in *.
    rewrite (StrtodDecimal.strtod_decimal negative c (t ++ r) r _ _ Hc Hdigits Hcount Hr).
    rewrite (decimal_value_of_int32 _ Hrange). reflexivity. }
  rewrite pval_parse_unfold.
  destruct (Z.ltb_spec z 0) as [Hneg | Hpos].
  - specialize (Hstrtod true). specialize (Hlen "-"%string).
    cbn [append] in *. cbn [skip_whitespace].
    change (C.isspace "-") with false. cbv iota.
    change (Ascii.eqb "-" "(") with false. cbv iota.
    unfold parse_atom, starts_number.
    change (C.isdigit "-") with false. change (Ascii.eqb "-" "-") with true.
    rewrite Hc. cbn [orb andb]. rewrite Hstrtod, Hlen.
    unfold Double.of_int32. replace (z <? 0) with true by (symmetry; apply Z.ltb_lt, Hneg).
    replace (- z) with (Z.abs z) by lia. reflexivity.
  - specialize (Hstrtod false). specialize (Hlen ""%string).
    cbn [append] in *. cbn [skip_whitespace].
    rewrite (digit_not_space c Hc), (digit_not_char c "(" Hc eq_refl).
    unfold parse_atom, starts_number. rewrite Hc. cbn [orb].
    rewrite Hstrtod, Hlen.
    unfold Double.of_int32. replace (z <? 0) with false by (symmetry; apply Z.ltb_ge, Hpos).
    replace (Z.abs z) with z by lia. reflexivity.
Qed.

(** X15.  Integers round-trip: the number of a 32-bit integer is printed
    as the decimal numeral of the integer, and that numeral, followed by
    a delimiter or the end of the text, is parsed back to the same
    number, the cursor left right after it. *)
Theorem pval_parse_print_integer (z : Z) (r : string) :
  C.int32_range z -> ends_token r = true ->
  pval_print (PNumber (Double.of_int32 z)) = Double.printf_d z
  /\ pval_parse (pval_print (PNumber (Double.of_int32 z)) ++ r)
     = (Some (PNumber (Double.of_int32 z)), r).
Proof.
  intros Hz Hr.
  assert (Hprint : pval_print (PNumber (Double.of_int32 z)) = Double.printf_d z).
  { cbn [pval_print]. unfold print_number.
    destruct (to_int32_of_int32 z Hz) as [-> ->]. reflexivity. }
  split; [exact Hprint|]. rewrite Hprint.
  apply pval_parse_printf_d; assumption.
Qed.

Lemma pval_parse_print_integer_witness :
  pval_print (PNumber (Double.of_int32 (-42))) = Double.printf_d (-42)
  /\ pval_parse (pval_print (PNumber (Double.of_int32 (-42))) ++ ")")
     = (Some (PNumber (Double.of_int32 (-42))), ")"%string).
Proof.
  apply (pval_parse_print_integer (-42) ")").
  - unfold C.int32_range, C.INT32_MIN, C.INT32_MAX. lia.
  - reflexivity.
Defined.

(** ** The comparison: symmetry *)

(** Rounding an integer and its opposite gives the same magnitude. *)
Lemma SFabs_binary_normalize_opp (m e : Z) :
  SFabs (binary_normalize prec emax (- m) e false)
  = SFabs (binary_normalize prec emax m e false).
Proof.
  assert (Hround : forall p,
            SFabs (binary_round prec emax true p e)
            = SFabs (binary_round prec emax false p e)).
  { intros p. unfold binary_round.
    destruct (shl_align p e _) as [mz ez]. unfold binary_round_aux.
    destruct (shr_fexp prec emax (Zpos mz) ez loc_Exact) as [mrs' e'].
    destruct (shr_fexp prec emax _ e' loc_Exact) as [mrs'' e''].
    destruct (shr_m mrs''); [reflexivity | | reflexivity].
    destruct (e'' <=? emax - prec); reflexivity. }
  destruct m as [|p|p]; cbn [Z.opp binary_normalize];
    [reflexivity | apply Hround | symmetry; apply Hround].
Qed.

(** The magnitude of a difference does not depend on the order of the
    operands. *)
Lemma SFabs_sub_sym (x y : spec_float) :
  SFabs (SF64sub x y) = SFabs (SF64sub y x).
Proof.
  unfold SF64sub, SFsub.
  destruct x as [sx | sx | | sx mx ex], y as [sy | sy | | sy my ey];
    try reflexivity; try (destruct sx, sy; reflexivity).
  rewrite (Z.min_comm ey ex).
  rewrite <- SFabs_binary_normalize_opp. f_equal. f_equal. lia.
Qed.

(** X16.  [=] is symmetric: swapping its two arguments never changes the
    result, whatever the arguments are.  A number compares as equal to
    itself exactly when it is finite: an infinity and a NaN are not equal
    to themselves. *)
Theorem builtin_eq_symmetric :
  (forall first_arg second_arg,
      builtin_eq [first_arg; second_arg] = builtin_eq [second_arg; first_arg])
  /\ (forall number,
        builtin_eq [PNumber number; PNumber number] = PBool (Double.finite number)).
Proof.
  split.
  - intros a b. unfold builtin_eq.
    destruct a as [x | p | t | items count cap | f | k m],
             b as [y | q | u | items' count' cap' | g | k' m'];
      cbn [type pval_t_eqb negb]; try reflexivity.
    + unfold pval_bool. f_equal.
      rewrite !FloatAxioms.ltb_spec, !abs_spec, !FloatAxioms.sub_spec.
      rewrite (SFabs_sub_sym (Prim2SF x) (Prim2SF y)). reflexivity.
    + unfold pval_bool. f_equal. destruct p, q; reflexivity.
    + unfold pval_bool. f_equal. apply String.eqb_sym.
  - intros x. unfold builtin_eq, Double.finite. cbn [type pval_t_eqb negb].
    unfold pval_bool. f_equal.
    rewrite FloatAxioms.ltb_spec, abs_spec, FloatAxioms.sub_spec.
    unfold SF64sub, SFsub.
    destruct (Prim2SF x) as [s | s | | s m e].
    + destruct s; vm_compute; reflexivity.
    + destruct s; vm_compute; reflexivity.
    + vm_compute; reflexivity.
    + rewrite Z.sub_diag. vm_compute. reflexivity.
Qed.

(** ** The read loop *)

(** X17.  The read loop is left on a line exactly when the line passes
    the parenthesis check and its first expression is the list of the one
    symbol [quit]; the text written is then [Quitting...].  The test made
    before the evaluation decides alone: the test for the symbol
    [quitting] after it never leaves the loop. *)
Theorem main_step_quits (input_buffer : string) (paren_stack : Stack) :
  (snd (fst (main_step input_buffer paren_stack)) = true
   <-> fst (check_balanced_parens input_buffer paren_stack) = true
       /\ exists list_capacity parse_ptr,
            pval_parse input_buffer
            = (Some (PList [PSymbol "quit"] 1 list_capacity), parse_ptr))
  /\ (snd (fst (main_step input_buffer paren_stack)) = true ->
      fst (fst (main_step input_buffer paren_stack)) = ("Quitting..." ++ newline)%string)
  /\ (forall parsed_value parse_ptr,
        pval_parse input_buffer = (Some parsed_value, parse_ptr) ->
        is_quit_list parsed_value = false ->
        is_quitting (pval_eval parsed_value) = false).
Proof.
  assert (Hdead : forall parsed_value,
            is_quit_list parsed_value = false ->
            is_quitting (pval_eval parsed_value) = false).
  { intros v Hquit. destruct (pval_eval v) as [n | b | name | items count cap | f | t m] eqn:Heval;
      try reflexivity.
    destruct (pval_eval_symbol_inv _ _ Heval) as (_ & rest & cap & ->).
    discriminate Hquit. }
  assert (Hlist : forall parsed_value parse_ptr,
            pval_parse input_buffer = (Some parsed_value, parse_ptr) ->
            is_quit_list parsed_value = true ->
            exists list_capacity, parsed_value = PList [PSymbol "quit"] 1 list_capacity).
  { intros v r Hrun Hquit. apply pval_parse_wf in Hrun.
    destruct v as [n | b | name | [|[n | b | name | i c k | f | t m] rest] count cap | f | t m];
      try discriminate Hquit.
    cbn [is_quit_list] in Hquit. apply andb_true_iff in Hquit.
    destruct Hquit as [Hcount Hname].
    apply Z.eqb_eq in Hcount. apply String.eqb_eq in Hname. subst count name.
    apply pval_wf_list in Hrun. destruct Hrun as (Hmatch & _).
    unfold count_matches in Hmatch. cbn [length] in Hmatch.
    destruct rest; [|cbn [length] in Hmatch; lia]. exists cap. reflexivity. }
  unfold main_step. destruct input_buffer as [|c rest].
  { cbn [fst snd]. split; [|split; [discriminate|]].
    - split; [discriminate|]. intros [_ (cap & r & Hrun)].
      rewrite pval_parse_unfold in Hrun. discriminate Hrun.
    - intros v r _. apply Hdead. }
  destruct (check_balanced_parens (String c rest) paren_stack) as [balanced stack'].
  cbn [fst].
  destruct balanced; cbn [negb].
  2:{ cbn [fst snd]. split; [|split; [discriminate|]].
      - split; [discriminate | intros [H _]; discriminate H].
      - intros v r _. apply Hdead. }
  destruct (pval_parse (String c rest)) as [[parsed_value|] parse_ptr] eqn:Hrun.
  2:{ cbn [fst snd]. split; [|split; [discriminate|]].
      - split; [discriminate | intros [_ (cap & r & H)]; discriminate H].
      - intros v r H. discriminate H. }
  destruct (is_error parsed_value) eqn:Herr.
  { cbn [fst snd]. split; [|split; [discriminate|]].
    - split; [discriminate|]. intros [_ (cap & r & H)].
      injection H as -> _. discriminate Herr.
    - intros v r _. apply Hdead. }
  destruct (is_quit_list parsed_value) eqn:Hquit.
  { cbn [fst snd]. split; [|split; [reflexivity|]].
    - split; [|reflexivity]. intros _. split; [reflexivity|].
      destruct (Hlist _ _ eq_refl Hquit) as [cap ->]. eauto.
    - intros v r _. apply Hdead. }
  rewrite (Hdead _ Hquit). cbn [fst snd]. split; [|split; [discriminate|]].
  - split; [discriminate|]. intros [_ (cap & r & H)].
    injection H as -> _. discriminate Hquit.
  - intros v r _. apply Hdead.
Qed.

Lemma main_step_quits_witness :
  fst (fst (main_step "(quit) (+ 1 2)" [])) = ("Quitting..." ++ newline)%string.
Proof.
  apply (proj1 (proj2 (main_step_quits "(quit) (+ 1 2)" []))).
  vm_compute. reflexivity.
Defined.

Lemma all_space_no_paren (s : string) : all_space s = true -> no_paren s = true.
Proof.
  induction s as [|c s IH]; [reflexivity|]. cbn [all_space no_paren]. intros H.
  apply andb_true_iff in H. destruct H as [Hc Hs].
  rewrite (not_paren C.isspace eq_refl eq_refl c Hc), (IH Hs). reflexivity.
Qed.

(** X18.  A line of white space only passes the parenthesis check and is
    answered as one that gives no expression, with the text "Empty input
    or unparsable"; the line that has no character at all is answered
    with the text "Empty input".  Neither leaves the loop. *)
Theorem main_step_blank (input_buffer : string) (paren_stack : Stack) :
  all_space input_buffer = true ->
  main_step input_buffer paren_stack
  = match input_buffer with
    | EmptyString =>
        ("$error{SyntaxError Empty input}" ++ newline, false, paren_stack)%string
    | String _ _ =>
        ("$error{SyntaxError Empty input or unparsable}" ++ newline, false, [])%string
    end.
Proof.
  intros Hblank. unfold main_step. destruct input_buffer as [|c rest]; [reflexivity|].
  pose proof (check_balanced_parens_depth (String c rest) paren_stack) as Hcheck.
  rewrite (paren_depth_no_paren _ _ (all_space_no_paren _ Hblank)) in Hcheck.
  unfold check_balanced_parens in *.
  rewrite scan_parens_depth in *. cbn [fst] in Hcheck.
  destruct Hcheck as [_ Hcheck]. rewrite (Hcheck eq_refl). cbn [negb].
  rewrite pval_parse_unfold.
  rewrite <- (append_empty (String c rest)), skip_whitespace_blanks by exact Hblank.
  reflexivity.
Qed.

Lemma main_step_blank_witness :
  main_step "   " [40]
  = ("$error{SyntaxError Empty input or unparsable}" ++ newline, false, [])%string.
Proof.
  apply (main_step_blank "   " [40]). reflexivity.
Defined.

(** ** Printing and reading back *)

Lemma to_int32_range (x : float) : C.int32_range (Double.to_int32 x).
Proof.
  unfold C.int32_range, Double.to_int32, Double.clamp_int32, C.INT32_MIN, C.INT32_MAX.
  change (2 ^ 31) with 2147483648.
  destruct (Prim2SF x) as [s | s | | s m e]; try lia.
  destruct s; lia.
Qed.

Lemma readable_not_error (v : pval) : readable v = true -> is_error v = false.
Proof.
  destruct v; try reflexivity. discriminate.
Qed.

(** The printed form of a readable value starts with a character that is
    neither white space nor a closing parenthesis. *)
Lemma readable_first (v : pval) :
  readable v = true ->
  exists c t, pval_print v = String c t
              /\ C.isspace c = false /\ Ascii.eqb c ")" = false.
Proof.
  destruct v as [x | b | name | items count cap | f | k m]; cbn [readable pval_print];
    try discriminate.
  - intros Hx. unfold print_number. rewrite Hx.
    destruct (printf_d_text (Double.to_int32 x)) as (d & c & t & -> & -> & Hc & _).
    destruct (Double.to_int32 x <? 0); cbn [append].
    + eexists _, _. split; [reflexivity|]. split; reflexivity.
    + eexists _, _. split; [reflexivity|].
      split; [apply digit_not_space, Hc | apply (digit_not_char c ")" Hc eq_refl)].
  - intros _. destruct b; eexists _, _; (split; [reflexivity|]); split; reflexivity.
  - intros H. apply andb_true_iff in H. destruct H as [H _].
    apply andb_true_iff in H. destruct H as [H _].
    apply andb_true_iff in H. destruct H as [Hname Hplain].
    destruct name as [|c t]; [discriminate Hname|].
    cbn [no_delimiter] in Hplain. apply andb_true_iff in Hplain.
    destruct Hplain as [Hc _]. apply negb_true_iff in Hc.
    unfold is_delimiter in Hc.
    apply orb_false_iff in Hc. destruct Hc as [Hc Hclose].
    apply orb_false_iff in Hc. destruct Hc as [Hspace _].
    exists c, t. split; [reflexivity|]. split; assumption.
  - intros _. eexists _, _. split; [reflexivity|]. split; reflexivity.
Qed.

Lemma parse_list_close (r : string) (l : option pval) :
  parse_list (String ")" r) l = (l, r).
Proof.
  rewrite parse_list_unfold. reflexivity.
Qed.

Lemma parse_list_space (s : string) (l : option pval) :
  parse_list (String " " s) l = parse_list s l.
Proof.
  rewrite (parse_list_unfold (String " " s)), (parse_list_unfold s). reflexivity.
Qed.

(** One turn of the list loop on the text of an element. *)
Lemma parse_list_item (text tail : string) (l : option pval) (item : pval) :
  (exists c t, text = String c t /\ C.isspace c = false /\ Ascii.eqb c ")" = false) ->
  pval_parse (text ++ tail) = (Some item, tail) ->
  is_error item = false ->
  parse_list (text ++ tail) l = parse_list tail (pval_add l (Some item)).
Proof.
  intros (c & t & -> & Hspace & Hclose) Hparse Herr.
  rewrite parse_list_unfold. cbn [append skip_whitespace]. rewrite Hspace, Hclose.
  change (String c (t ++ tail)) with (String c t ++ tail)%string.
  rewrite Hparse, Herr. reflexivity.
Qed.

Lemma concat_cons (p : string) (ps : list string) (tail : string) :
  (String.concat " " (p :: ps) ++ tail)%string
  = (p ++ match ps with
          | [] => tail
          | _ :: _ => " " ++ String.concat " " ps ++ tail
          end)%string.
Proof.
  destruct ps as [|q ps]; [reflexivity|]. cbn [String.concat].
  rewrite !append_assoc. reflexivity.
Qed.

(** The list loop on the printed elements of a list: it appends values
    that print as the elements do. *)
Lemma parse_list_printed (list_items : list pval) :
  Forall (fun v => readable v = true ->
            forall r, ends_token r = true ->
              exists v', pval_parse (pval_print v ++ r) = (Some v', r)
                         /\ pval_print v' = pval_print v /\ readable v' = true)
         list_items ->
  forallb readable list_items = true ->
  forall (read : list pval) (list_count list_capacity : Z) (r : string),
    ends_token r = true ->
    count_matches read list_count ->
    0 < list_capacity <= C.INT32_MAX ->
    list_count <= list_capacity ->
    list_count + Z.of_nat (length list_items) <= 2 ^ 30 ->
    exists items capacity,
      parse_list (String.concat " " (map pval_print list_items) ++ ")" ++ r)
        (Some (PList read list_count list_capacity))
      = (Some (PList (read ++ items) (list_count + Z.of_nat (length list_items))
                capacity), r)
      /\ map pval_print items = map pval_print list_items
      /\ forallb readable items = true.
Proof.
  induction list_items as [|item rest IH];
    intros Hall Hreadable read list_count list_capacity r Hr Hrep Hcap Hcount Hbound.
  { exists [], list_capacity. cbn [map String.concat append length].
    rewrite parse_list_close, app_nil_r, Z.add_0_r. repeat split. }
  apply Forall_cons_iff in Hall. destruct Hall as [Hitem Hrest].
  cbn [forallb] in Hreadable. apply andb_true_iff in Hreadable.
  destruct Hreadable as [Hreadable_item Hreadable_rest].
  cbn [map]. rewrite concat_cons.
  set (tail := match map pval_print rest with
               | [] => (")" ++ r)%string
               | _ :: _ => (" " ++ String.concat " " (map pval_print rest) ++ ")" ++ r)%string
               end).
  assert (Htail : ends_token tail = true)
    by (unfold tail; destruct (map pval_print rest); reflexivity).
  destruct (Hitem Hreadable_item tail Htail) as (item' & Hparse & Hprint & Hreadable').
  rewrite (parse_list_item _ _ _ item' (readable_first _ Hreadable_item) Hparse
             (readable_not_error _ Hreadable')).
  assert (Hnonneg : 0 <= list_count) by (unfold count_matches in Hrep; lia).
  cbn [length] in Hbound.
  assert (Hroom : list_count < list_capacity \/ list_capacity <= C.INT32_MAX / 2).
  { destruct (Z.lt_ge_cases list_count list_capacity) as [H | H]; [left; exact H|].
    right. unfold C.INT32_MAX. change (2 ^ 31) with 2147483648.
    change (2 ^ 30) with 1073741824 in Hbound.
    change ((2147483648 - 1) / 2) with 1073741823. lia. }
  rewrite pval_add_appends by (try assumption; lia).
  set (capacity := if list_count <? list_capacity then list_capacity
                   else list_capacity * 2).
  assert (Hcapacity : 0 < capacity <= C.INT32_MAX /\ list_count + 1 <= capacity).
  { unfold capacity. destruct (Z.ltb_spec list_count list_capacity) as [H | H]; [lia|].
    destruct Hroom as [Hroom | Hroom]; [lia|].
    unfold C.INT32_MAX in *. change (2 ^ 31) with 2147483648 in *.
    change ((2147483648 - 1) / 2) with 1073741823 in Hroom. lia. }
  destruct Hcapacity as [Hcapacity Hfits].
  assert (Hrep' : count_matches (read ++ [item']) (list_count + 1)).
  { unfold count_matches in *. rewrite length_app. cbn [length]. lia. }
  assert (Hloop : parse_list tail (Some (PList (read ++ [item']) (list_count + 1) capacity))
                  = parse_list (String.concat " " (map pval_print rest) ++ ")" ++ r)
                      (Some (PList (read ++ [item']) (list_count + 1) capacity))).
  { unfold tail. destruct (map pval_print rest); [reflexivity|]. apply parse_list_space. }
  rewrite Hloop.
  destruct (IH Hrest Hreadable_rest (read ++ [item']) (list_count + 1) capacity r
              Hr Hrep' Hcapacity Hfits ltac:(lia))
    as (items & capacity' & Hrun & Hprints & Hreadables).
  exists (item' :: items), capacity'. split; [|split].
  - rewrite Hrun. rewrite <- app_assoc. cbn [app length].
    replace (list_count + Z.of_nat (S (length rest)))
      with (list_count + 1 + Z.of_nat (length rest)) by lia.
    reflexivity.
  - cbn [map]. rewrite Hprint, Hprints. reflexivity.
  - cbn [forallb]. rewrite Hreadable', Hreadables. reflexivity.
Qed.

(** X19.  Printing and reading back: the printed form of a readable
    value, followed by a delimiter or the end of the text, is parsed with
    the cursor left right after it to a readable value that prints the
    same.  Readable are the numbers printed as integers, the booleans,
    the symbols that are one token the parser takes for a symbol, and the
    lists of readable values that hold the elements they count. *)
Theorem pval_print_parse (target_value : pval) (r : string) :
  readable target_value = true -> ends_token r = true ->
  exists parsed_value,
    pval_parse (pval_print target_value ++ r) = (Some parsed_value, r)
    /\ pval_print parsed_value = pval_print target_value
    /\ readable parsed_value = true.
Proof.
  revert target_value r.
  apply (pval_items_ind
           (fun v => forall r, readable v = true -> ends_token r = true ->
              exists v', pval_parse (pval_print v ++ r) = (Some v', r)
                         /\ pval_print v' = pval_print v /\ readable v' = true)).
  - intros x r Hx Hr. cbn [readable] in Hx. cbn [pval_print]. unfold print_number.
    rewrite Hx.
    pose proof (to_int32_range x) as Hz.
    exists (PNumber (Double.of_int32 (Double.to_int32 x))).
    split; [apply pval_parse_printf_d; assumption|].
    destruct (to_int32_of_int32 _ Hz) as [Hback Hsame].
    cbn [pval_print readable]. unfold print_number. rewrite Hback, Hsame.
    split; reflexivity.
  - intros b r _ Hr. exists (PBool b). split; [|split; reflexivity].
    rewrite pval_parse_unfold. destruct b; reflexivity.
  - intros name r Hname Hr. exists (PSymbol name). split; [|split; [reflexivity | exact Hname]].
    cbn [readable] in Hname.
    apply andb_true_iff in Hname. destruct Hname as [Hname Hlen].
    apply andb_true_iff in Hname. destruct Hname as [Hname Hstart].
    apply andb_true_iff in Hname. destruct Hname as [Hname Hplain].
    cbn [pval_print]. apply pval_parse_token; try assumption.
    + intros ->. discriminate Hname.
    + apply Nat.leb_le, Hlen.
  - intros list_items list_count list_capacity IH r Hlist Hr.
    cbn [readable] in Hlist.
    apply andb_true_iff in Hlist. destruct Hlist as [Hlist Hitems].
    apply andb_true_iff in Hlist. destruct Hlist as [Hcount Hbound].
    apply Z.eqb_eq in Hcount. apply Z.leb_le in Hbound.
    assert (Hall : Forall (fun v => readable v = true ->
                     forall r, ends_token r = true ->
                       exists v', pval_parse (pval_print v ++ r) = (Some v', r)
                                  /\ pval_print v' = pval_print v /\ readable v' = true)
                     list_items).
    { apply Forall_forall. intros v Hv Hreadable r' Hr'.
      rewrite Forall_forall in IH. exact (IH v Hv r' Hreadable Hr'). }
    destruct (parse_list_printed list_items Hall Hitems [] 0 4 r Hr eq_refl)
      as (items & capacity & Hrun & Hprints & Hreadables);
      [unfold C.INT32_MAX; change (2 ^ 31) with 2147483648; lia | lia | lia |].
    cbn [app Z.add] in Hrun.
    assert (Hlen : length items = length list_items)
      by (rewrite <- (length_map pval_print items), Hprints; apply length_map).
    exists (PList items (Z.of_nat (length list_items)) capacity).
    cbn [pval_print readable].
    rewrite (print_items_concat pval_print list_count list_items 0) by lia.
    rewrite (print_items_concat pval_print _ items 0) by lia.
    split; [|split].
    + rewrite pval_parse_unfold. cbn [append skip_whitespace].
      change (C.isspace "(") with false. cbv iota.
      change (Ascii.eqb "(" "(") with true. cbv iota.
      rewrite append_assoc. unfold pval_list. exact Hrun.
    + rewrite Hprints. reflexivity.
    + rewrite Hlen, Z.eqb_refl, Hreadables.
      replace (Z.of_nat (length list_items) <=? 2 ^ 30) with true
        by (symmetry; apply Z.leb_le; lia).
      reflexivity.
  - intros f r H. discriminate H.
  - intros k m r H. discriminate H.
Qed.

Lemma pval_print_parse_witness :
  exists parsed_value,
    pval_parse (pval_print (PList [PSymbol "+"; PNumber 1; PList [PBool true] 1 4] 3 8)
                ++ " rest")
    = (Some parsed_value, " rest"%string)
    /\ pval_print parsed_value
       = pval_print (PList [PSymbol "+"; PNumber 1; PList [PBool true] 1 4] 3 8)
    /\ readable parsed_value = true.
Proof.
  apply (pval_print_parse (PList [PSymbol "+"; PNumber 1; PList [PBool true] 1 4] 3 8)
           " rest"); vm_compute; reflexivity.
Defined.
